(** * Sympathetic Synthesizer System: voice engine, envelopes and pitch tables

    A shallow embedding of [src/lib/audio/audio-engine.ts], [envelope.ts] and
    [synth.ts], and of the way the keyboard and the control panels drive them.

    - JavaScript numbers are read as real numbers ([R]); [Math.max],
      [Math.min] and [Math.pow] are the real functions.
    - The Web Audio substrate is an explicit store of nodes.  An [AudioParam]
      keeps its current value and, oldest first, the automation calls made on
      it; what the substrate renders from them is not modelled, nor are its
      range checks on times and values.
    - [Envelope] instances live in a store of their own and are referred to by
      index, as the voices refer to their nodes.
    - The mixer and the LFO are modelled beside the voice engine: the voices
      do not write to them.  The limiter and the connections of the node
      graph carry no state that the properties below depend on; they are left
      out.
    - The on-screen keyboard ([responsive-keyboard.tsx]) and the tool call of
      the sound-design assistant ([chat-panel.tsx]) are modelled as far as
      they decide which calls reach the engine. *)

From Stdlib Require Import ZArith Reals Lra Lia Ascii String DecimalString DecimalPos.
From stdpp Require Import base list strings.

Open Scope R_scope.

(** ** Numbers and strings as JavaScript has them *)

(** [Math.max] and [Math.min] on two numbers. *)
Definition Math_max (a b : R) : R := Rmax a b.
Definition Math_min (a b : R) : R := Rmin a b.

(** [Math.pow(2, x)]. *)
Definition Math_pow2 (x : R) : R := Rpower 2 x.

(** [`${n}`] for an integer [n]: decimal digits, a leading [-] when negative.
    JavaScript prints a number this way below 10^21 in size and with an
    exponent from there on; the model follows it below that size. *)
Definition Z_to_string (n : Z) : string := NilZero.string_of_int (Z.to_int n).

(** [c.toUpperCase()] on one ASCII character. *)
Definition toUpperCase (c : ascii) : ascii :=
  let n := nat_of_ascii c in
  if ((97 <=? n) && (n <=? 122))%nat then ascii_of_nat (n - 32) else c.

(** The character classes of the note pattern. *)
Definition is_digit (c : ascii) : bool :=
  let n := nat_of_ascii c in ((48 <=? n) && (n <=? 57))%nat.

Definition is_letter_A_G (c : ascii) : bool :=
  let n := nat_of_ascii c in ((65 <=? n) && (n <=? 71))%nat.

Definition is_letter_a_g (c : ascii) : bool :=
  let n := nat_of_ascii c in ((97 <=? n) && (n <=? 103))%nat.

Definition is_note_letter (c : ascii) : bool := is_letter_A_G c || is_letter_a_g c.

Definition is_accidental (c : ascii) : bool :=
  Ascii.eqb c "#" || Ascii.eqb c "b".

Fixpoint all_digits (s : string) : bool :=
  match s with
  | EmptyString => true
  | String c s' => is_digit c && all_digits s'
  end.

(** [parseInt(s, 10)] on a string of decimal digits. *)
Fixpoint parseInt_from (acc : Z) (s : string) : Z :=
  match s with
  | EmptyString => acc
  | String c s' => parseInt_from (10 * acc + (Z.of_nat (nat_of_ascii c) - 48)) s'
  end.

Definition parseInt (s : string) : Z := parseInt_from 0 s.

(** ** The audio substrate

    The rendering substrate is opaque to the engine: the model keeps what the
    engine can observe and what it asks for.  An [AudioParam] has a current
    [value] and the list of automation calls made on it, oldest first. *)

Inductive AutomationCall : Type :=
| cancelScheduledValues (cancelTime : R)
| setValueAtTime (v : R) (startTime : R)
| exponentialRampToValueAtTime (v : R) (endTime : R)
| linearRampToValueAtTime (v : R) (endTime : R).

Record AudioParam : Type := mkAudioParam {
  value : R;
  automation : list AutomationCall
}.

Definition schedule (c : AutomationCall) (p : AudioParam) : AudioParam :=
  {| value := value p; automation := automation p ++ [c] |}.

Definition assign_value (v : R) (p : AudioParam) : AudioParam :=
  {| value := v; automation := automation p |}.

Inductive WaveformType : Type := sine | square | sawtooth | triangle.
Inductive FilterType : Type := lowpass | highpass | bandpass.

Record GainNode : Type := mkGainNode { gain : AudioParam }.

Record BiquadFilterNode : Type := mkBiquadFilterNode {
  filter_type : FilterType;
  frequency : AudioParam;
  Q : AudioParam
}.

Record OscillatorNode : Type := mkOscillatorNode {
  osc_type : WaveformType;
  osc_frequency : AudioParam;
  detune : AudioParam;
  start_time : option R;
  stop_time : option R
}.

(** The nodes created so far (a node is named by its index) and the clock. *)
Record AudioContext : Type := mkAudioContext {
  currentTime : R;
  gain_nodes : list GainNode;
  filter_nodes : list BiquadFilterNode;
  oscillator_nodes : list OscillatorNode
}.

(** The parameters an envelope is connected to: [gainNode.gain] and
    [filter.frequency]. *)
Inductive AudioParamRef : Type :=
| gain_of (g : nat)
| frequency_of (f : nat).

#[global] Instance AudioParamRef_eq_dec : EqDecision AudioParamRef.
Proof. solve_decision. Defined.

Definition param_get (ctx : AudioContext) (r : AudioParamRef) : option AudioParam :=
  match r with
  | gain_of g => gain <$> gain_nodes ctx !! g
  | frequency_of f => frequency <$> filter_nodes ctx !! f
  end.

Definition with_gain (f : AudioParam -> AudioParam) (n : GainNode) : GainNode :=
  {| gain := f (gain n) |}.

Definition with_frequency (f : AudioParam -> AudioParam) (n : BiquadFilterNode)
  : BiquadFilterNode :=
  {| filter_type := filter_type n; frequency := f (frequency n); Q := Q n |}.

Definition with_Q (f : AudioParam -> AudioParam) (n : BiquadFilterNode)
  : BiquadFilterNode :=
  {| filter_type := filter_type n; frequency := frequency n; Q := f (Q n) |}.

Definition param_modify (f : AudioParam -> AudioParam) (r : AudioParamRef)
    (ctx : AudioContext) : AudioContext :=
  match r with
  | gain_of g =>
      {| currentTime := currentTime ctx;
         gain_nodes := alter (with_gain f) g (gain_nodes ctx);
         filter_nodes := filter_nodes ctx;
         oscillator_nodes := oscillator_nodes ctx |}
  | frequency_of i =>
      {| currentTime := currentTime ctx;
         gain_nodes := gain_nodes ctx;
         filter_nodes := alter (with_frequency f) i (filter_nodes ctx);
         oscillator_nodes := oscillator_nodes ctx |}
  end.

(** A parameter with the calls [cs] added to its record. *)
Definition append_calls (cs : list AutomationCall) (p : AudioParam) : AudioParam :=
  {| value := value p; automation := automation p ++ cs |}.

(** The calls [cs], made in order on the parameter [p]. *)
Definition schedule_all (cs : list AutomationCall) (p : AudioParamRef)
    (ctx : AudioContext) : AudioContext :=
  foldl (fun c a => param_modify (schedule a) p c) ctx cs.

(** An oscillator node with its start time, its stop time or the value of
    its detune written. *)
Definition set_start (when : R) (n : OscillatorNode) : OscillatorNode :=
  {| osc_type := osc_type n; osc_frequency := osc_frequency n; detune := detune n;
     start_time := Some when; stop_time := stop_time n |}.

Definition set_stop (when : R) (n : OscillatorNode) : OscillatorNode :=
  {| osc_type := osc_type n; osc_frequency := osc_frequency n; detune := detune n;
     start_time := start_time n; stop_time := Some when |}.

Definition set_detune (v : R) (n : OscillatorNode) : OscillatorNode :=
  {| osc_type := osc_type n; osc_frequency := osc_frequency n;
     detune := assign_value v (detune n);
     start_time := start_time n; stop_time := stop_time n |}.

(** [osc.start(when)]. *)
Definition osc_start (o : nat) (when : R) (ctx : AudioContext) : AudioContext :=
  {| currentTime := currentTime ctx;
     gain_nodes := gain_nodes ctx;
     filter_nodes := filter_nodes ctx;
     oscillator_nodes := alter (set_start when) o (oscillator_nodes ctx) |}.

(** [osc.stop(when)]: the substrate raises an error ([None]) for a node that
    was never started; otherwise the node stops at [when]. *)
Definition osc_stop (o : nat) (when : R) (ctx : AudioContext) : option AudioContext :=
  match oscillator_nodes ctx !! o with
  | Some n =>
      match start_time n with
      | Some _ =>
          Some {| currentTime := currentTime ctx;
                  gain_nodes := gain_nodes ctx;
                  filter_nodes := filter_nodes ctx;
                  oscillator_nodes := <[ o := set_stop when n ]> (oscillator_nodes ctx) |}
      | None => None
      end
  | None => None
  end.

(** [osc.detune.value = v]. *)
Definition osc_set_detune (o : nat) (v : R) (ctx : AudioContext) : AudioContext :=
  {| currentTime := currentTime ctx;
     gain_nodes := gain_nodes ctx;
     filter_nodes := filter_nodes ctx;
     oscillator_nodes := alter (set_detune v) o (oscillator_nodes ctx) |}.

(** The clock only moves forward. *)
Definition clock_advance (t : R) (ctx : AudioContext) : AudioContext :=
  {| currentTime := Rmax (currentTime ctx) t;
     gain_nodes := gain_nodes ctx;
     filter_nodes := filter_nodes ctx;
     oscillator_nodes := oscillator_nodes ctx |}.

(** ** AudioEngine (audio-engine.ts) *)

Module AudioEngine.

(** The [notes] table of [noteToFrequency]. *)
Definition notes : list (string * Z) :=
  [ ("C", 0); ("C#", 1); ("Db", 1); ("D", 2); ("D#", 3); ("Eb", 3);
    ("E", 4); ("F", 5); ("F#", 6); ("Gb", 6); ("G", 7); ("G#", 8);
    ("Ab", 8); ("A", 9); ("A#", 10); ("Bb", 10); ("B", 11) ]%Z.

(** [notes[noteName]]: [None] is JavaScript's [undefined]. *)
Definition notes_get (noteName : string) : option Z :=
  snd <$> List.find (fun p => String.eqb (fst p) noteName) notes.

(** The tail [(\d+)$] of the pattern. *)
Definition match_digits (s : string) : option string :=
  match s with
  | EmptyString => None
  | String _ _ => if all_digits s then Some s else None
  end.

(** [note.match(/^([A-Ga-g][#b]?)(\d+)$/)]: the two capture groups.  The
    optional accidental is greedy; when the digits do not follow it, the
    matcher falls back to the empty accidental. *)
Definition note_match (note : string) : option (string * string) :=
  match note with
  | EmptyString => None
  | String c rest =>
      if is_note_letter c then
        let plain := (fun d => (String c EmptyString, d)) <$> match_digits rest in
        match rest with
        | String a rest' =>
            if is_accidental a then
              match match_digits rest' with
              | Some d => Some (String c (String a EmptyString), d)
              | None => plain
              end
            else plain
        | EmptyString => plain
        end
      else None
  end.

(** [match[1].charAt(0).toUpperCase() + match[1].slice(1)]. *)
Definition capitalise (s : string) : string :=
  match s with
  | EmptyString => EmptyString
  | String c s' => String (toUpperCase c) s'
  end.

(** [noteToFrequency(note)]: the frequency returned and the lines written
    with [console.warn]. *)
Definition noteToFrequency (note : string) : R * list string :=
  match note_match note with
  | None => (440, [("Invalid note format: " ++ note)%string])
  | Some (m1, m2) =>
      let noteName := capitalise m1 in
      let octave := parseInt m2 in
      match notes_get noteName with
      | None => (440, [("Unknown note: " ++ noteName)%string])
      | Some semitone =>
          let semitonesFromA4 := (semitone - 9 + (octave - 4) * 12)%Z in
          (440 * Math_pow2 (IZR semitonesFromA4 / 12), [])
      end
  end.

(** [midiToFrequency(midiNote)]. *)
Definition midiToFrequency (midiNote : R) : R :=
  440 * Math_pow2 ((midiNote - 69) / 12).

Definition noteNames : list string :=
  [ "C"; "C#"; "D"; "D#"; "E"; "F"; "F#"; "G"; "G#"; "A"; "A#"; "B" ]%string.

(** [midiToNote(midiNote)] for an integer [midiNote]: [%] is the truncated
    remainder, and an index outside the array reads [undefined].  The
    division, the remainder and the printed octave are those of the code for
    the integers a number holds exactly, up to 2^53 - 1 in size. *)
Definition midiToNote (midiNote : Z) : string :=
  let octave := (midiNote / 12 - 1)%Z in
  let i := Z.rem midiNote 12 in
  let noteName :=
    if (i <? 0)%Z then "undefined"%string
    else default "undefined"%string (noteNames !! Z.to_nat i) in
  (noteName ++ Z_to_string octave)%string.

(** [createGain(initialGain)]: the new node's name and the context with it. *)
Definition createGain (initialGain : R) (ctx : AudioContext) : nat * AudioContext :=
  (length (gain_nodes ctx),
   {| currentTime := currentTime ctx;
      gain_nodes := gain_nodes ctx ++ [ {| gain := mkAudioParam initialGain [] |} ];
      filter_nodes := filter_nodes ctx;
      oscillator_nodes := oscillator_nodes ctx |}).

(** [createOscillator(frequency, type)]: the node is neither started nor
    stopped, and its detune is at the substrate's default 0. *)
Definition createOscillator (frequency : R) (type : WaveformType) (ctx : AudioContext)
  : nat * AudioContext :=
  (length (oscillator_nodes ctx),
   {| currentTime := currentTime ctx;
      gain_nodes := gain_nodes ctx;
      filter_nodes := filter_nodes ctx;
      oscillator_nodes := oscillator_nodes ctx ++
        [ {| osc_type := type;
             osc_frequency := mkAudioParam frequency [];
             detune := mkAudioParam 0 [];
             start_time := None;
             stop_time := None |} ] |}).

(** [createFilter(type, frequency, Q)]. *)
Definition createFilter (type : FilterType) (frequency Q : R) (ctx : AudioContext)
  : nat * AudioContext :=
  (length (filter_nodes ctx),
   {| currentTime := currentTime ctx;
      gain_nodes := gain_nodes ctx;
      filter_nodes := filter_nodes ctx ++
        [ {| filter_type := type;
             frequency := mkAudioParam frequency [];
             Q := mkAudioParam Q [] |} ];
      oscillator_nodes := oscillator_nodes ctx |}).

End AudioEngine.


(** ** Envelope (envelope.ts) *)

Module EnvelopeOptions.
Record t : Type := mk {
  attack : R;
  decay : R;
  sustain : R;
  release : R;
  startLevel : option R;
  maxLevel : option R
}.
End EnvelopeOptions.

(** [Partial<EnvelopeOptions>]: [None] is an absent ([undefined]) field. *)
Module PartialEnvelopeOptions.
Record t : Type := mk {
  attack : option R;
  decay : option R;
  sustain : option R;
  release : option R;
  startLevel : option R;
  maxLevel : option R
}.
End PartialEnvelopeOptions.

Module Envelope.

Record t : Type := mk {
  attack : R;
  decay : R;
  sustain : R;
  release : R;
  startLevel : R;
  maxLevel : R;
  param : option AudioParamRef;
  releaseStartTime : R
}.

(** [new Envelope(options)]. *)
Definition new (options : EnvelopeOptions.t) : t :=
  {| attack := EnvelopeOptions.attack options;
     decay := EnvelopeOptions.decay options;
     sustain := EnvelopeOptions.sustain options;
     release := EnvelopeOptions.release options;
     startLevel := default 0 (EnvelopeOptions.startLevel options);
     maxLevel := default 1 (EnvelopeOptions.maxLevel options);
     param := None;
     releaseStartTime := 0 |}.

Definition connect (p : AudioParamRef) (e : t) : t :=
  {| attack := attack e; decay := decay e; sustain := sustain e;
     release := release e; startLevel := startLevel e; maxLevel := maxLevel e;
     param := Some p; releaseStartTime := releaseStartTime e |}.

(** The automation calls [trigger] makes on its target, in order. *)
Definition trigger_calls (now : R) (e : t) : list AutomationCall :=
  let attackTime := Math_max (attack e) 0.001 in
  let decayTime := Math_max (decay e) 0.001 in
  let safeStartLevel := Math_max (startLevel e) 0.0001 in
  let safeMaxLevel := Math_max (maxLevel e) 0.0001 in
  let safeSustain := Math_max (sustain e) 0.0001 in
  [ cancelScheduledValues now;
    setValueAtTime safeStartLevel now;
    exponentialRampToValueAtTime safeMaxLevel (now + attackTime);
    exponentialRampToValueAtTime safeSustain (now + attackTime + decayTime) ].

(** [trigger(startTime?)]. *)
Definition trigger (startTime : option R) (e : t) (ctx : AudioContext)
  : AudioContext :=
  match param e with
  | None => ctx
  | Some p =>
      let now := Math_max (default (currentTime ctx) startTime) (currentTime ctx) in
      schedule_all (trigger_calls now e) p ctx
  end.

(** The automation calls [triggerRelease] makes, given the target's value
    read after the cancellation. *)
Definition release_calls (now : R) (read : R) (e : t) : list AutomationCall :=
  let releaseTime_ := Math_max (release e) 0.001 in
  let safeStartLevel := Math_max (startLevel e) 0.0001 in
  let currentValue := Math_max read 0.0001 in
  [ cancelScheduledValues now;
    setValueAtTime currentValue now;
    exponentialRampToValueAtTime safeStartLevel (now + releaseTime_) ].

(** [triggerRelease(releaseTime?)]: the envelope records when its release
    started. *)
Definition triggerRelease (releaseTime : option R) (e : t) (ctx : AudioContext)
  : t * AudioContext :=
  match param e with
  | None => (e, ctx)
  | Some p =>
      let now := Math_max (default (currentTime ctx) releaseTime) (currentTime ctx) in
      let e' :=
        {| attack := attack e; decay := decay e; sustain := sustain e;
           release := release e; startLevel := startLevel e;
           maxLevel := maxLevel e; param := param e; releaseStartTime := now |} in
      let read := default 0 (value <$> param_get ctx p) in
      (e', schedule_all (release_calls now read e) p ctx)
  end.

(** [getEndTime(releaseTime?)]. *)
Definition getEndTime (releaseTime : option R) (e : t) : R :=
  let releaseStart := default (releaseStartTime e) releaseTime in
  releaseStart + release e.

(** [update(options)]: only the fields present are written. *)
Definition update (options : PartialEnvelopeOptions.t) (e : t) : t :=
  {| attack := default (attack e) (PartialEnvelopeOptions.attack options);
     decay := default (decay e) (PartialEnvelopeOptions.decay options);
     sustain := default (sustain e) (PartialEnvelopeOptions.sustain options);
     release := default (release e) (PartialEnvelopeOptions.release options);
     startLevel := default (startLevel e) (PartialEnvelopeOptions.startLevel options);
     maxLevel := default (maxLevel e) (PartialEnvelopeOptions.maxLevel options);
     param := param e;
     releaseStartTime := releaseStartTime e |}.

Definition getRelease (e : t) : R := release e.

End Envelope.

(** ** The active-voice table

    A JavaScript [Map] with string keys: entries in insertion order.  [set]
    on a present key replaces the value in place, [delete] removes the entry. *)

Module JSMap.
Section Ops.
Context {V : Type}.

Definition t : Type := list (string * V).

Fixpoint get (k : string) (m : t) : option V :=
  match m with
  | [] => None
  | (k', v) :: m' => if String.eqb k' k then Some v else get k m'
  end.

Definition has (k : string) (m : t) : bool :=
  match get k m with Some _ => true | None => false end.

Fixpoint set (k : string) (v : V) (m : t) : t :=
  match m with
  | [] => [(k, v)]
  | (k', v') :: m' =>
      if String.eqb k' k then (k', v) :: m' else (k', v') :: set k v m'
  end.

Fixpoint delete (k : string) (m : t) : t :=
  match m with
  | [] => []
  | (k', v') :: m' =>
      if String.eqb k' k then m' else (k', v') :: delete k m'
  end.

Definition keys (m : t) : list string := map fst m.
Definition values (m : t) : list V := map snd m.
Definition size (m : t) : nat := length m.
End Ops.
Arguments t : clear implicits.
End JSMap.

(** ** Synth (synth.ts) *)

Module OscillatorSettings.
Record t : Type := mk {
  range : Z;
  waveform : WaveformType;
  detune : R
}.
End OscillatorSettings.

(** [FilterEnvelopeSettings extends EnvelopeOptions]. *)
Module FilterEnvelopeSettings.
Record t : Type := mk {
  attack : R;
  decay : R;
  sustain : R;
  release : R;
  startLevel : option R;
  maxLevel : option R;
  Q : R;
  cutoffFrequency : R;
  contour : R;
  filterType : FilterType
}.
End FilterEnvelopeSettings.

(** A voice holds its nodes and envelopes by name. *)
Module ActiveVoice.
Record t : Type := mk {
  note : string;
  oscillators : list nat;
  gainNodes : list nat;
  filters : list nat;
  volumeEnvelope : nat;
  filterEnvelope : nat;
  releaseTime : R
}.
End ActiveVoice.

(** The objects the voices share with the engine: the audio context and the
    [Envelope] instances created so far (an envelope is named by its index). *)
Record Store : Type := mkStore {
  context : AudioContext;
  envelopes : list Envelope.t
}.

Definition on_context (f : AudioContext -> AudioContext) (h : Store) : Store :=
  {| context := f (context h); envelopes := envelopes h |}.

Definition new_Envelope (options : EnvelopeOptions.t) (h : Store) : nat * Store :=
  (length (envelopes h),
   {| context := context h; envelopes := envelopes h ++ [Envelope.new options] |}).

Definition env_connect (e : nat) (p : AudioParamRef) (h : Store) : Store :=
  {| context := context h; envelopes := alter (Envelope.connect p) e (envelopes h) |}.

Definition env_trigger (e : nat) (startTime : option R) (h : Store) : Store :=
  match envelopes h !! e with
  | Some env => on_context (Envelope.trigger startTime env) h
  | None => h
  end.

Definition env_triggerRelease (e : nat) (releaseTime : option R) (h : Store) : Store :=
  match envelopes h !! e with
  | Some env =>
      let '(env', ctx) := Envelope.triggerRelease releaseTime env (context h) in
      {| context := ctx; envelopes := <[ e := env' ]> (envelopes h) |}
  | None => h
  end.

Module Synth.

(** The engine.  [osc1], [osc2], [osc3] are the three entries of the
    [oscillators] record.  The mixer and the LFO, which the voices do not
    write to, are the modules [Mixer] and [LFO] below; the limiter takes
    part in the node graph only and is left out, as are the graph's
    connections. *)
Record t : Type := mk {
  osc1 : OscillatorSettings.t;
  osc2 : OscillatorSettings.t;
  osc3 : OscillatorSettings.t;
  volumeEnvelopeSettings : EnvelopeOptions.t;
  filterEnvelopeSettings : FilterEnvelopeSettings.t;
  noiseLevel : GainNode;
  noiseGate : GainNode;
  noiseStarted : bool;
  noiseFilter : BiquadFilterNode;
  masterVolume : GainNode;
  activeVoices : JSMap.t ActiveVoice.t;
  store : Store;
  console : list string
}.

Definition with_store (h : Store) (s : t) : t :=
  mk (osc1 s) (osc2 s) (osc3 s) (volumeEnvelopeSettings s) (filterEnvelopeSettings s)
     (noiseLevel s) (noiseGate s) (noiseStarted s) (noiseFilter s) (masterVolume s)
     (activeVoices s) h (console s).

Definition with_activeVoices (m : JSMap.t ActiveVoice.t) (s : t) : t :=
  mk (osc1 s) (osc2 s) (osc3 s) (volumeEnvelopeSettings s) (filterEnvelopeSettings s)
     (noiseLevel s) (noiseGate s) (noiseStarted s) (noiseFilter s) (masterVolume s)
     m (store s) (console s).

Definition with_noiseGate (g : GainNode) (s : t) : t :=
  mk (osc1 s) (osc2 s) (osc3 s) (volumeEnvelopeSettings s) (filterEnvelopeSettings s)
     (noiseLevel s) g (noiseStarted s) (noiseFilter s) (masterVolume s)
     (activeVoices s) (store s) (console s).

Definition with_noiseLevel (g : GainNode) (started : bool) (s : t) : t :=
  mk (osc1 s) (osc2 s) (osc3 s) (volumeEnvelopeSettings s) (filterEnvelopeSettings s)
     g (noiseGate s) started (noiseFilter s) (masterVolume s)
     (activeVoices s) (store s) (console s).

Definition with_noiseFilter (f : BiquadFilterNode) (s : t) : t :=
  mk (osc1 s) (osc2 s) (osc3 s) (volumeEnvelopeSettings s) (filterEnvelopeSettings s)
     (noiseLevel s) (noiseGate s) (noiseStarted s) f (masterVolume s)
     (activeVoices s) (store s) (console s).

Definition with_masterVolume (g : GainNode) (s : t) : t :=
  mk (osc1 s) (osc2 s) (osc3 s) (volumeEnvelopeSettings s) (filterEnvelopeSettings s)
     (noiseLevel s) (noiseGate s) (noiseStarted s) (noiseFilter s) g
     (activeVoices s) (store s) (console s).

Definition with_console (c : list string) (s : t) : t :=
  mk (osc1 s) (osc2 s) (osc3 s) (volumeEnvelopeSettings s) (filterEnvelopeSettings s)
     (noiseLevel s) (noiseGate s) (noiseStarted s) (noiseFilter s) (masterVolume s)
     (activeVoices s) (store s) c.

Definition with_oscillators (o1 o2 o3 : OscillatorSettings.t) (s : t) : t :=
  mk o1 o2 o3 (volumeEnvelopeSettings s) (filterEnvelopeSettings s)
     (noiseLevel s) (noiseGate s) (noiseStarted s) (noiseFilter s) (masterVolume s)
     (activeVoices s) (store s) (console s).

Definition with_volumeEnvelopeSettings (o : EnvelopeOptions.t) (s : t) : t :=
  mk (osc1 s) (osc2 s) (osc3 s) o (filterEnvelopeSettings s)
     (noiseLevel s) (noiseGate s) (noiseStarted s) (noiseFilter s) (masterVolume s)
     (activeVoices s) (store s) (console s).

Definition with_filterEnvelopeSettings (o : FilterEnvelopeSettings.t) (s : t) : t :=
  mk (osc1 s) (osc2 s) (osc3 s) (volumeEnvelopeSettings s) o
     (noiseLevel s) (noiseGate s) (noiseStarted s) (noiseFilter s) (masterVolume s)
     (activeVoices s) (store s) (console s).

(** [new Synth(settings)] on an engine whose clock reads [now]; [volume] is
    [settings.volume]. *)
Definition new (volume : option R) (now : R) : t :=
  {| osc1 := OscillatorSettings.mk 8 square 0;
     osc2 := OscillatorSettings.mk 4 sawtooth 0;
     osc3 := OscillatorSettings.mk 16 square 0;
     volumeEnvelopeSettings :=
       EnvelopeOptions.mk 0.01 0.5 0.4 0.3 (Some 0) (Some 1);
     filterEnvelopeSettings :=
       FilterEnvelopeSettings.mk 0.1 0.5 2000 1 (Some 200) (Some 10000)
                                 5 10000 1 lowpass;
     noiseLevel := {| gain := mkAudioParam 0 [] |};
     noiseGate := {| gain := mkAudioParam 0 [] |};
     noiseStarted := false;
     noiseFilter :=
       {| filter_type := bandpass;
          frequency := mkAudioParam 1000 [];
          Q := mkAudioParam 1 [] |};
     masterVolume := {| gain := mkAudioParam (default 0.5 volume) [] |};
     activeVoices := [];
     store := {| context := mkAudioContext now [] [] []; envelopes := [] |};
     console := [] |}.

(** [rangeToFrequency(baseFrequency, range)]. *)
Definition rangeToFrequency (baseFrequency : R) (range : Z) : R :=
  match range with
  | 2%Z => baseFrequency * 4
  | 4%Z => baseFrequency * 2
  | 16%Z => baseFrequency / 2
  | 32%Z => baseFrequency / 4
  | 64%Z => baseFrequency / 8
  | _ => baseFrequency
  end.

(** The body of the loop of [createOscillators], for one slot. *)
Definition create_oscillator (frequency : R) (acc : list nat * Store)
    (settings : OscillatorSettings.t) : list nat * Store :=
  let '(oscillators, h) := acc in
  let '(osc, ctx) :=
    AudioEngine.createOscillator
      (rangeToFrequency frequency (OscillatorSettings.range settings))
      (OscillatorSettings.waveform settings)
      (context h) in
  let ctx := osc_set_detune osc (OscillatorSettings.detune settings) ctx in
  (oscillators ++ [osc], on_context (fun _ => ctx) h).

(** [createOscillators(frequency)]: one oscillator per slot, in slot order. *)
Definition createOscillators (frequency : R) (s : t) : list nat * Store :=
  foldl (create_oscillator frequency) ([], store s) [osc1 s; osc2 s; osc3 s].

(** The per-gain-node fade of [stopNote]. *)
Definition fade_gain (stopTime releaseTime : R) (h : Store) (gainNode : nat) : Store :=
  let v := default 0 (value <$> param_get (context h) (gain_of gainNode)) in
  on_context
    (fun ctx =>
       param_modify (schedule (linearRampToValueAtTime 0 (stopTime + releaseTime)))
         (gain_of gainNode)
         (param_modify (schedule (setValueAtTime v stopTime)) (gain_of gainNode)
            (param_modify (schedule (cancelScheduledValues stopTime))
               (gain_of gainNode) ctx)))
    h.

(** [try { osc.stop(releaseEnd) } catch { }]. *)
Definition try_stop (releaseEnd : R) (h : Store) (osc : nat) : Store :=
  on_context (fun ctx => default ctx (osc_stop osc releaseEnd ctx)) h.

(** What [stopNote] does to the voice it found. *)
Definition release_voice (voice : ActiveVoice.t) (stopTime : R) (h : Store) : Store :=
  let releaseTime := ActiveVoice.releaseTime voice in
  let h := env_triggerRelease (ActiveVoice.volumeEnvelope voice) (Some stopTime) h in
  let h := env_triggerRelease (ActiveVoice.filterEnvelope voice) (Some stopTime) h in
  let h := foldl (fade_gain stopTime releaseTime) h (ActiveVoice.gainNodes voice) in
  let releaseEnd := stopTime + releaseTime + 0.1 in
  foldl (try_stop releaseEnd) h (ActiveVoice.oscillators voice).

(** [stopNote(note)]; [stopTime] is [None] when the caller gives no time. *)
Definition stopNote (noteName : string) (stopTime : option R) (s : t) : t :=
  let stopTime := default (currentTime (context (store s))) stopTime in
  match JSMap.get noteName (activeVoices s) with
  | None => s
  | Some voice =>
      let s := with_store (release_voice voice stopTime (store s)) s in
      let s := with_activeVoices (JSMap.delete noteName (activeVoices s)) s in
      if (JSMap.size (activeVoices s) =? 0)%nat
      then with_noiseGate (with_gain (assign_value 0) (noiseGate s)) s
      else s
  end.

(** The options of the filter envelopes of a new voice, with the contour
    applied. *)
Definition filter_envelope_options (fs : FilterEnvelopeSettings.t) : EnvelopeOptions.t :=
  let startLevel := default 200 (FilterEnvelopeSettings.startLevel fs) in
  let maxLevel := default 10000 (FilterEnvelopeSettings.maxLevel fs) in
  let envDepth := maxLevel - startLevel in
  let scaledMaxLevel := startLevel + envDepth * FilterEnvelopeSettings.contour fs in
  {| EnvelopeOptions.attack := FilterEnvelopeSettings.attack fs;
     EnvelopeOptions.decay := FilterEnvelopeSettings.decay fs;
     EnvelopeOptions.sustain := FilterEnvelopeSettings.sustain fs;
     EnvelopeOptions.release := FilterEnvelopeSettings.release fs;
     EnvelopeOptions.startLevel := Some startLevel;
     EnvelopeOptions.maxLevel := Some scaledMaxLevel |}.

(** The body of [oscillators.forEach((osc, index) => ...)] in [playNote];
    the accumulator carries the store and the arrays [gainNodes] and
    [filters]. *)
Definition connect_oscillator (s : t) (startTime : R)
    (volumeEnvelope filterEnvelope : nat)
    (acc : Store * list nat * list nat) (item : nat * nat)
  : Store * list nat * list nat :=
  let '(h, gainNodes, filters) := acc in
  let '(index, osc) := item in
  let fs := filterEnvelopeSettings s in
  let '(gainNode, ctx) := AudioEngine.createGain 0 (context h) in
  let '(filter, ctx) :=
    AudioEngine.createFilter (FilterEnvelopeSettings.filterType fs)
      (FilterEnvelopeSettings.cutoffFrequency fs) (FilterEnvelopeSettings.Q fs) ctx in
  let h := on_context (fun _ => ctx) h in
  let h :=
    if (index =? 0)%nat then
      env_connect filterEnvelope (frequency_of filter)
        (env_connect volumeEnvelope (gain_of gainNode) h)
    else
      let '(volEnv, h) := new_Envelope (volumeEnvelopeSettings s) h in
      let '(filtEnv, h) := new_Envelope (filter_envelope_options fs) h in
      let h := env_connect volEnv (gain_of gainNode) h in
      let h := env_connect filtEnv (frequency_of filter) h in
      let h := env_trigger volEnv (Some startTime) h in
      env_trigger filtEnv (Some startTime) h in
  let h := on_context (osc_start osc startTime) h in
  (h, gainNodes ++ [gainNode], filters ++ [filter]).

(** [playNote] once any earlier voice of the note is out of the way: build
    the voice, trigger its envelopes, open the noise gate, record it. *)
Definition start_voice (noteName : string) (startTime : R) (s : t) : t :=
  let '(frequency, warnings) := AudioEngine.noteToFrequency noteName in
  let s := with_console (console s ++ warnings) s in
  let '(oscillators, h) := createOscillators frequency s in
  let '(volumeEnvelope, h) := new_Envelope (volumeEnvelopeSettings s) h in
  let '(filterEnvelope, h) :=
    new_Envelope (filter_envelope_options (filterEnvelopeSettings s)) h in
  let '(h, gainNodes, filters) :=
    foldl (connect_oscillator s startTime volumeEnvelope filterEnvelope)
          (h, [], []) (imap pair oscillators) in
  let h := env_trigger volumeEnvelope (Some startTime) h in
  let h := env_trigger filterEnvelope (Some startTime) h in
  let s := with_store h s in
  let s := with_noiseFilter (with_frequency (assign_value frequency) (noiseFilter s)) s in
  let s := with_noiseGate (with_gain (assign_value 1) (noiseGate s)) s in
  with_activeVoices
    (JSMap.set noteName
       {| ActiveVoice.note := noteName;
          ActiveVoice.oscillators := oscillators;
          ActiveVoice.gainNodes := gainNodes;
          ActiveVoice.filters := filters;
          ActiveVoice.volumeEnvelope := volumeEnvelope;
          ActiveVoice.filterEnvelope := filterEnvelope;
          ActiveVoice.releaseTime := EnvelopeOptions.release (volumeEnvelopeSettings s) |}
       (activeVoices s))
    s.

(** [playNote(note)]; [startTime] is [None] when the caller gives no time.
    A voice already sounding under the note is stopped first. *)
Definition playNote (noteName : string) (startTime : option R) (s : t) : t :=
  let startTime := default (currentTime (context (store s))) startTime in
  let s := if JSMap.has noteName (activeVoices s) then stopNote noteName None s else s in
  start_voice noteName startTime s.

(** [stopAll()]: the loop visits every key of the table; [stopNote] deletes
    only the key being visited. *)
Definition stopAll (s : t) : t :=
  foldl (fun s noteName => stopNote noteName None s) s (JSMap.keys (activeVoices s)).

Definition setVolume (v : R) (s : t) : t :=
  with_masterVolume
    (with_gain (assign_value (Math_max 0 (Math_min 1 v))) (masterVolume s)) s.

Definition setNoiseLevel (v : R) (s : t) : t :=
  let level := with_gain (assign_value (Math_max 0 (Math_min 1 v))) (noiseLevel s) in
  if Rlt_dec 0 v
  then with_noiseLevel level true s
  else with_noiseLevel level (noiseStarted s) s.

Definition setNoiseFilterFrequency (v : R) (s : t) : t :=
  with_noiseFilter
    (with_frequency (assign_value (Math_max 20 (Math_min 20000 v))) (noiseFilter s)) s.

Definition setNoiseFilterQ (v : R) (s : t) : t :=
  with_noiseFilter
    (with_Q (assign_value (Math_max 0.1 (Math_min 20 v))) (noiseFilter s)) s.

Definition setFilterType (type : FilterType) (s : t) : t :=
  let fs := filterEnvelopeSettings s in
  with_filterEnvelopeSettings
    (FilterEnvelopeSettings.mk
       (FilterEnvelopeSettings.attack fs) (FilterEnvelopeSettings.decay fs)
       (FilterEnvelopeSettings.sustain fs) (FilterEnvelopeSettings.release fs)
       (FilterEnvelopeSettings.startLevel fs) (FilterEnvelopeSettings.maxLevel fs)
       (FilterEnvelopeSettings.Q fs) (FilterEnvelopeSettings.cutoffFrequency fs)
       (FilterEnvelopeSettings.contour fs) type) s.

(** The value given to [updateOscillator] with its [param]. *)
Inductive OscillatorParam : Type :=
| param_range (v : Z)
| param_waveform (w : WaveformType)
| param_detune (v : R).

(** [this.oscillators[oscKey]]. *)
Definition oscillators_get (oscKey : string) (s : t) : option OscillatorSettings.t :=
  if String.eqb oscKey "osc1" then Some (osc1 s)
  else if String.eqb oscKey "osc2" then Some (osc2 s)
  else if String.eqb oscKey "osc3" then Some (osc3 s)
  else None.

Definition oscillators_put (oscKey : string) (o : OscillatorSettings.t) (s : t) : t :=
  if String.eqb oscKey "osc1" then with_oscillators o (osc2 s) (osc3 s) s
  else if String.eqb oscKey "osc2" then with_oscillators (osc1 s) o (osc3 s) s
  else if String.eqb oscKey "osc3" then with_oscillators (osc1 s) (osc2 s) o s
  else s.

(** [updateOscillator(oscKey, param, value)]: a detune also reaches the
    oscillator of that slot in every sounding voice. *)
Definition updateOscillator (oscKey : string) (p : OscillatorParam) (s : t) : t :=
  match oscillators_get oscKey s with
  | None => s
  | Some osc =>
      let osc' :=
        match p with
        | param_range v =>
            OscillatorSettings.mk v (OscillatorSettings.waveform osc)
                                  (OscillatorSettings.detune osc)
        | param_waveform w =>
            OscillatorSettings.mk (OscillatorSettings.range osc) w
                                  (OscillatorSettings.detune osc)
        | param_detune v =>
            OscillatorSettings.mk (OscillatorSettings.range osc)
                                  (OscillatorSettings.waveform osc) v
        end in
      let s := oscillators_put oscKey osc' s in
      match p with
      | param_detune v =>
          (* [parseInt(oscKey.replace('osc', '')) - 1]; here [oscKey] is one of
             the three slot names, which start with ["osc"] *)
          let digits := String.substring 3 (String.length oscKey - 3) oscKey in
          let oscIndex := (parseInt digits - 1)%Z in
          with_store
            (foldl
               (fun h voice =>
                  match ActiveVoice.oscillators voice !! Z.to_nat oscIndex with
                  | Some o => on_context (osc_set_detune o v) h
                  | None => h
                  end)
               (store s) (JSMap.values (activeVoices s)))
            s
      | _ => s
      end
  end.

End Synth.

(** ** The mixer and the LFO (synth.ts)

    Two parts of [Synth] that the voices do not write to.  The mixer is the
    record [mixer], one channel per slot; the LFO is [lfoSettings] with the
    three nodes [initLFO] creates.  Their connections to the voices are part
    of the node graph and are not modelled. *)

(** The names of the properties a plain object, such as [mixer], inherits
    from [Object.prototype]. *)
Definition Object_prototype_names : list string :=
  [ "constructor"; "hasOwnProperty"; "isPrototypeOf"; "propertyIsEnumerable";
    "toLocaleString"; "toString"; "valueOf"; "__proto__";
    "__defineGetter__"; "__defineSetter__"; "__lookupGetter__";
    "__lookupSetter__" ]%string.

Module MixerChannel.
Record t : Type := mk {
  node : GainNode;
  volume : R;
  active : bool
}.
End MixerChannel.

Module Mixer.

Definition t : Type := JSMap.t MixerChannel.t.

(** The channels the constructor creates. *)
Definition new : t :=
  [ ("osc1"%string, MixerChannel.mk {| gain := mkAudioParam 0.25 [] |} 0.25 true);
    ("osc2"%string, MixerChannel.mk {| gain := mkAudioParam 0.25 [] |} 0.25 true);
    ("osc3"%string, MixerChannel.mk {| gain := mkAudioParam 0.25 [] |} 0.25 true) ].

(** [updateMixer(oscKey, volume)], for a key that is a slot or that the
    mixer object does not have at all: [this.mixer[oscKey]] is then the
    channel or [undefined].  The panels pass [osc1], [osc2] or [osc3].  For a
    name of [Object_prototype_names] the object would answer with the
    property it inherits, and the call would end in a TypeError; the
    properties of the mixer leave those names out. *)
Definition updateMixer (oscKey : string) (volume : R) (mixer : t) : t :=
  match JSMap.get oscKey mixer with
  | Some channel =>
      JSMap.set oscKey
        {| MixerChannel.node :=
             with_gain (assign_value volume) (MixerChannel.node channel);
           MixerChannel.volume := volume;
           MixerChannel.active := MixerChannel.active channel |}
        mixer
  | None => mixer
  end.

End Mixer.

Module LFOSettings.
Record t : Type := mk {
  waveform : WaveformType;
  frequency : R;
  depth : R
}.
End LFOSettings.

Module LFO.

Record t : Type := mk {
  lfoSettings : LFOSettings.t;
  lfo : option OscillatorNode;
  lfoPitchGain : option GainNode;
  lfoFilterGain : option GainNode
}.

(** The fields as they are initialised, before [initLFO]. *)
Definition new : t :=
  {| lfoSettings := LFOSettings.mk triangle 0 0;
     lfo := None;
     lfoPitchGain := None;
     lfoFilterGain := None |}.

(** [initLFO()]: the oscillator and the two gains come from the context
    with its defaults (a sine at 440 Hz, a gain of 1) and are then set from
    the settings; the oscillator is started at once. *)
Definition initLFO (s : t) : t :=
  let created :=
    {| osc_type := sine;
       osc_frequency := mkAudioParam 440 [];
       detune := mkAudioParam 0 [];
       start_time := None;
       stop_time := None |} in
  let typed :=
    {| osc_type := LFOSettings.waveform (lfoSettings s);
       osc_frequency :=
         assign_value (LFOSettings.frequency (lfoSettings s)) (osc_frequency created);
       detune := detune created;
       start_time := start_time created;
       stop_time := stop_time created |} in
  let pitchGain :=
    with_gain (assign_value (LFOSettings.depth (lfoSettings s)))
      {| gain := mkAudioParam 1 [] |} in
  let filterGain :=
    with_gain (assign_value (LFOSettings.depth (lfoSettings s) * 100))
      {| gain := mkAudioParam 1 [] |} in
  {| lfoSettings := lfoSettings s;
     lfo := Some (set_start 0 typed);
     lfoPitchGain := Some pitchGain;
     lfoFilterGain := Some filterGain |}.

(** The value given to [updateLFO] with its [param]. *)
Inductive Param : Type :=
| param_waveform (w : WaveformType)
| param_frequency (v : R)
| param_depth (v : R).

Definition set_type (w : WaveformType) (n : OscillatorNode) : OscillatorNode :=
  {| osc_type := w; osc_frequency := osc_frequency n; detune := detune n;
     start_time := start_time n; stop_time := stop_time n |}.

Definition set_frequency (v : R) (n : OscillatorNode) : OscillatorNode :=
  {| osc_type := osc_type n; osc_frequency := assign_value v (osc_frequency n);
     detune := detune n; start_time := start_time n; stop_time := stop_time n |}.

(** [updateLFO(param, value)]. *)
Definition updateLFO (p : Param) (s : t) : t :=
  let settings := lfoSettings s in
  match p with
  | param_waveform w =>
      {| lfoSettings :=
           LFOSettings.mk w (LFOSettings.frequency settings) (LFOSettings.depth settings);
         lfo := set_type w <$> lfo s;
         lfoPitchGain := lfoPitchGain s;
         lfoFilterGain := lfoFilterGain s |}
  | param_frequency v =>
      {| lfoSettings :=
           LFOSettings.mk (LFOSettings.waveform settings) v (LFOSettings.depth settings);
         lfo := set_frequency v <$> lfo s;
         lfoPitchGain := lfoPitchGain s;
         lfoFilterGain := lfoFilterGain s |}
  | param_depth v =>
      {| lfoSettings :=
           LFOSettings.mk (LFOSettings.waveform settings) (LFOSettings.frequency settings) v;
         lfo := lfo s;
         lfoPitchGain := with_gain (assign_value v) <$> lfoPitchGain s;
         lfoFilterGain := with_gain (assign_value (v * 100)) <$> lfoFilterGain s |}
  end.

End LFO.

(** ** The engine as its callers drive it

    The keyboard and the two control panels call the methods above and assign
    the fields of the two public settings records; the substrate moves the
    clock and the current value of the parameters it renders. *)

Inductive VolumeEnvelopeField : Type :=
| volume_attack | volume_decay | volume_sustain | volume_release.

Inductive FilterEnvelopeField : Type :=
| filter_attack | filter_decay | filter_sustain | filter_release
| filter_cutoff | filter_emphasis | filter_contour | filter_start.

(** [synth.volumeEnvelopeSettings.<field> = v]. *)
Definition assign_volumeEnvelope (f : VolumeEnvelopeField) (v : R) (s : Synth.t) : Synth.t :=
  let o := Synth.volumeEnvelopeSettings s in
  let a := EnvelopeOptions.attack o in
  let d := EnvelopeOptions.decay o in
  let su := EnvelopeOptions.sustain o in
  let r := EnvelopeOptions.release o in
  let sl := EnvelopeOptions.startLevel o in
  let ml := EnvelopeOptions.maxLevel o in
  Synth.with_volumeEnvelopeSettings
    match f with
    | volume_attack => EnvelopeOptions.mk v d su r sl ml
    | volume_decay => EnvelopeOptions.mk a v su r sl ml
    | volume_sustain => EnvelopeOptions.mk a d v r sl ml
    | volume_release => EnvelopeOptions.mk a d su v sl ml
    end s.

(** [synth.filterEnvelopeSettings.<field> = v]; the cutoff control writes
    both [cutoffFrequency] and [maxLevel]. *)
Definition assign_filterEnvelope (f : FilterEnvelopeField) (v : R) (s : Synth.t) : Synth.t :=
  let o := Synth.filterEnvelopeSettings s in
  let a := FilterEnvelopeSettings.attack o in
  let d := FilterEnvelopeSettings.decay o in
  let su := FilterEnvelopeSettings.sustain o in
  let r := FilterEnvelopeSettings.release o in
  let sl := FilterEnvelopeSettings.startLevel o in
  let ml := FilterEnvelopeSettings.maxLevel o in
  let q := FilterEnvelopeSettings.Q o in
  let cf := FilterEnvelopeSettings.cutoffFrequency o in
  let c := FilterEnvelopeSettings.contour o in
  let ty := FilterEnvelopeSettings.filterType o in
  Synth.with_filterEnvelopeSettings
    match f with
    | filter_attack => FilterEnvelopeSettings.mk v d su r sl ml q cf c ty
    | filter_decay => FilterEnvelopeSettings.mk a v su r sl ml q cf c ty
    | filter_sustain => FilterEnvelopeSettings.mk a d v r sl ml q cf c ty
    | filter_release => FilterEnvelopeSettings.mk a d su v sl ml q cf c ty
    | filter_cutoff => FilterEnvelopeSettings.mk a d su r sl (Some v) q v c ty
    | filter_emphasis => FilterEnvelopeSettings.mk a d su r sl ml v cf c ty
    | filter_contour => FilterEnvelopeSettings.mk a d su r sl ml q cf v ty
    | filter_start => FilterEnvelopeSettings.mk a d su r (Some v) ml q cf c ty
    end s.

Inductive Op : Type :=
| playNote (note : string) (startTime : option R)
| stopNote (note : string) (stopTime : option R)
| stopAll
| setVolume (v : R)
| setNoiseLevel (v : R)
| setNoiseFilterFrequency (v : R)
| setNoiseFilterQ (v : R)
| setFilterType (type : FilterType)
| updateOscillator (oscKey : string) (p : Synth.OscillatorParam)
| set_volumeEnvelope (f : VolumeEnvelopeField) (v : R)
| set_filterEnvelope (f : FilterEnvelopeField) (v : R)
| clock_reads (t : R)
| rendered (p : AudioParamRef) (v : R).

Definition step (s : Synth.t) (o : Op) : Synth.t :=
  match o with
  | playNote n t => Synth.playNote n t s
  | stopNote n t => Synth.stopNote n t s
  | stopAll => Synth.stopAll s
  | setVolume v => Synth.setVolume v s
  | setNoiseLevel v => Synth.setNoiseLevel v s
  | setNoiseFilterFrequency v => Synth.setNoiseFilterFrequency v s
  | setNoiseFilterQ v => Synth.setNoiseFilterQ v s
  | setFilterType ty => Synth.setFilterType ty s
  | updateOscillator k p => Synth.updateOscillator k p s
  | set_volumeEnvelope f v => assign_volumeEnvelope f v s
  | set_filterEnvelope f v => assign_filterEnvelope f v s
  | clock_reads t => Synth.with_store (on_context (clock_advance t) (Synth.store s)) s
  | rendered p v =>
      Synth.with_store (on_context (param_modify (assign_value v) p) (Synth.store s)) s
  end.

Definition run (ops : list Op) (s : Synth.t) : Synth.t := foldl step s ops.

(** A state the callers can bring the engine to. *)
Definition reachable (s : Synth.t) : Prop :=
  exists volume now ops, s = run ops (Synth.new volume now).

(** The same for one envelope on its own: its methods, and the substrate's
    moves in between. *)
Inductive EnvelopeCall : Type :=
| env_call_connect (p : AudioParamRef)
| env_call_trigger (startTime : option R)
| env_call_triggerRelease (releaseTime : option R)
| env_call_update (options : PartialEnvelopeOptions.t)
| env_clock_reads (t : R)
| env_rendered (p : AudioParamRef) (v : R).

Definition env_step (st : Envelope.t * AudioContext) (c : EnvelopeCall)
  : Envelope.t * AudioContext :=
  let '(e, ctx) := st in
  match c with
  | env_call_connect p => (Envelope.connect p e, ctx)
  | env_call_trigger t => (e, Envelope.trigger t e ctx)
  | env_call_triggerRelease t => Envelope.triggerRelease t e ctx
  | env_call_update o => (Envelope.update o e, ctx)
  | env_clock_reads t => (e, clock_advance t ctx)
  | env_rendered p v => (e, param_modify (assign_value v) p ctx)
  end.

Definition env_run (calls : list EnvelopeCall) (st : Envelope.t * AudioContext)
  : Envelope.t * AudioContext := foldl env_step st calls.

(** ** The keyboard (responsive-keyboard.tsx)

    The component that calls [playNote] and [stopNote]: the names it prints
    on its keys, the keys of the computer keyboard it maps to names, and the
    octave it moves in. *)

Module Keyboard.

Definition WHITE_NOTES : list string := [ "C"; "D"; "E"; "F"; "G"; "A"; "B" ]%string.

(** [BLACK_KEY_POSITIONS], in the order of its entries. *)
Definition BLACK_KEY_POSITIONS : list (string * Z) :=
  [ ("C#", 0); ("D#", 1); ("F#", 3); ("G#", 4); ("A#", 5) ]%string%Z.

Record Mapping : Type := mkMapping {
  note : string;
  octaveOffset : Z
}.

Definition KEY_TO_NOTE : JSMap.t Mapping :=
  [ ("a", mkMapping "C" 0); ("s", mkMapping "D" 0); ("d", mkMapping "E" 0);
    ("f", mkMapping "F" 0); ("g", mkMapping "G" 0); ("h", mkMapping "A" 0);
    ("j", mkMapping "B" 0); ("k", mkMapping "C" 1); ("l", mkMapping "D" 1);
    (";", mkMapping "E" 1);
    ("w", mkMapping "C#" 0); ("e", mkMapping "D#" 0); ("t", mkMapping "F#" 0);
    ("y", mkMapping "G#" 0); ("u", mkMapping "A#" 0); ("o", mkMapping "C#" 1);
    ("p", mkMapping "D#" 1) ]%string%Z.

(** [key.toLowerCase()] on ASCII characters. *)
Definition toLowerCase_char (c : ascii) : ascii :=
  let n := nat_of_ascii c in
  if ((65 <=? n) && (n <=? 90))%nat then ascii_of_nat (n + 32) else c.

Fixpoint toLowerCase (s : string) : string :=
  match s with
  | EmptyString => EmptyString
  | String c s' => String (toLowerCase_char c) (toLowerCase s')
  end.

(** [updateOctaves]: the number of octaves shown for a container width;
    [None] is a container that is not mounted. *)
Definition updateOctaves (offsetWidth : option Z) : Z :=
  let width := default 400%Z offsetWidth in
  if (width <? 400)%Z then 1%Z else if (width <? 700)%Z then 2%Z else 3%Z.

(** The values of [o] in [for (let o = octave; o < octave + visibleOctaves; o++)]. *)
Definition octaves_shown (octave visibleOctaves : Z) : list Z :=
  (fun i => (octave + Z.of_nat i)%Z) <$> seq 0 (Z.to_nat visibleOctaves).

Definition generateWhiteNotes (octave visibleOctaves : Z) : list string :=
  (octaves_shown octave visibleOctaves ≫=
     fun o => (fun note => (note ++ Z_to_string o)%string) <$> WHITE_NOTES)
  ++ [ ("C" ++ Z_to_string (octave + visibleOctaves))%string ].

(** The black keys: the name and the position, counted in white keys. *)
Definition generateBlackNotes (octave visibleOctaves : Z) : list (string * Z) :=
  octaves_shown octave visibleOctaves ≫=
    fun o =>
      (fun entry : string * Z =>
         let octaveOffset := ((o - octave) * 7)%Z in
         ((fst entry ++ Z_to_string o)%string, (snd entry + octaveOffset)%Z))
        <$> BLACK_KEY_POSITIONS.

(** [`${mapping.note}${octave + mapping.octaveOffset}`]. *)
Definition fullNote (octave : Z) (mapping : Mapping) : string :=
  (note mapping ++ Z_to_string (octave + octaveOffset mapping))%string.

(** The two buttons and the swipe of the navigation area; [diff] is the
    horizontal distance of the swipe. *)
Inductive Navigation : Type :=
| click_lower
| click_higher
| swipe (diff : R).

(** The octave after one of them. *)
Definition navigate (octave : Z) (n : Navigation) : Z :=
  match n with
  | click_lower => if (1 <? octave)%Z then (octave - 1)%Z else octave
  | click_higher => if (octave <? 6)%Z then (octave + 1)%Z else octave
  | swipe diff =>
      if Rlt_dec 80 (Rabs diff) then
        if Rlt_dec 0 diff then
          if (1 <? octave)%Z then (octave - 1)%Z
          else if Rlt_dec diff 0 then
                 if (octave <? 6)%Z then (octave + 1)%Z else octave
               else octave
        else if Rlt_dec diff 0 then
               if (octave <? 6)%Z then (octave + 1)%Z else octave
             else octave
      else octave
  end.

(** The octave the component starts in. *)
Definition initial_octave : Z := 4%Z.

(** A JavaScript [Set] of strings: its members in insertion order. *)
Definition Set_has (x : string) (l : list string) : bool := existsb (String.eqb x) l.

Definition Set_add (x : string) (l : list string) : list string :=
  if Set_has x l then l else l ++ [x].

Definition Set_delete (x : string) (l : list string) : list string :=
  List.filter (fun y => negb (String.eqb x y)) l.

(** What the component keeps between two events of the computer keyboard:
    the state [activeNotes] and the reference [keyboardNotesRef]. *)
Record State : Type := mkState {
  activeNotes : list string;
  keyboardNotes : list string
}.

(** The calls to the two properties [onNoteOn] and [onNoteOff]. *)
Inductive Callback : Type :=
| onNoteOn (note : string)
| onNoteOff (note : string).

(** [handleKeyDown], registered with the octave of the current rendering.
    [in_text_field]: the target of the event is a text area, or an input
    that is neither a range, a checkbox nor a radio button; [repeat] is
    [e.repeat]. *)
Definition handleKeyDown (octave : Z) (in_text_field : bool) (key : string)
    (repeat : bool) (st : State) : State * list Callback :=
  if in_text_field then (st, [])
  else
    match JSMap.get (toLowerCase key) KEY_TO_NOTE with
    | Some mapping =>
        if repeat then (st, [])
        else
          let fullNote := fullNote octave mapping in
          if Set_has fullNote (keyboardNotes st) then (st, [])
          else
            ({| activeNotes := Set_add fullNote (activeNotes st);
                keyboardNotes := Set_add fullNote (keyboardNotes st) |},
             [onNoteOn fullNote])
    | None => (st, [])
    end.

(** [handleKeyUp], registered with the octave of the current rendering. *)
Definition handleKeyUp (octave : Z) (key : string) (st : State)
  : State * list Callback :=
  match JSMap.get (toLowerCase key) KEY_TO_NOTE with
  | Some mapping =>
      let fullNote := fullNote octave mapping in
      ({| activeNotes := Set_delete fullNote (activeNotes st);
          keyboardNotes := Set_delete fullNote (keyboardNotes st) |},
       [onNoteOff fullNote])
  | None => (st, [])
  end.

End Keyboard.

(** What the panel does with the two calls (synth-panel.tsx): [handleNoteOn]
    plays the note and [handleNoteOff] stops it, both at the current time. *)
Definition deliver (c : Keyboard.Callback) : Op :=
  match c with
  | Keyboard.onNoteOn note => playNote note None
  | Keyboard.onNoteOff note => stopNote note None
  end.

(** ** The sound-design tool call (chat-panel.tsx)

    The panel receives the arguments of a tool call, a record in which every
    field may be absent, and applies the fields that are present to the
    engine, in a fixed order. *)

(** The arguments [args] of [adjustSynthSettings]: [None] is an absent
    field. *)
Module ToolArgs.
Record t : Type := mk {
  osc1Waveform : option WaveformType;
  osc1Range : option Z;
  osc1Detune : option R;
  osc1Volume : option R;
  osc2Waveform : option WaveformType;
  osc2Range : option Z;
  osc2Detune : option R;
  osc2Volume : option R;
  osc3Waveform : option WaveformType;
  osc3Range : option Z;
  osc3Detune : option R;
  osc3Volume : option R;
  filterAttack : option R;
  filterDecay : option R;
  filterSustain : option R;
  filterRelease : option R;
  filterCutoff : option R;
  filterStartLevel : option R;
  filterEmphasis : option R;
  filterContour : option R;
  volumeAttack : option R;
  volumeDecay : option R;
  volumeSustain : option R;
  volumeRelease : option R;
  masterVolume : option R;
  noiseLevel : option R;
  noiseFilterFreq : option R;
  noiseFilterQ : option R;
  lfoWaveform : option WaveformType;
  lfoFrequency : option R;
  lfoDepth : option R
}.

(** Arguments with no field. *)
Definition empty : t :=
  mk None None None None None None None None None None None None
     None None None None None None None None None None None None
     None None None None None None None.
End ToolArgs.

(** The whole [Synth] object: the engine of the voices with its mixer and
    its LFO. *)
Module Instrument.
Record t : Type := mk {
  synth : Synth.t;
  mixer : Mixer.t;
  lfo : LFO.t
}.

(** [new Synth(settings)]. *)
Definition new (volume : option R) (now : R) : t :=
  {| synth := Synth.new volume now;
     mixer := Mixer.new;
     lfo := LFO.initLFO LFO.new |}.

Definition on_synth (f : Synth.t -> Synth.t) (i : t) : t :=
  {| synth := f (synth i); mixer := mixer i; lfo := lfo i |}.

Definition on_mixer (f : Mixer.t -> Mixer.t) (i : t) : t :=
  {| synth := synth i; mixer := f (mixer i); lfo := lfo i |}.

Definition on_lfo (f : LFO.t -> LFO.t) (i : t) : t :=
  {| synth := synth i; mixer := mixer i; lfo := f (lfo i) |}.
End Instrument.

Module ChatPanel.

(** [if (field !== undefined) ...]. *)
Definition if_defined {A : Type} (field : option A)
    (f : A -> Instrument.t -> Instrument.t) (i : Instrument.t) : Instrument.t :=
  match field with
  | Some v => f v i
  | None => i
  end.

(** [if (field) ...] on a number: 0 counts as absent. *)
Definition if_truthy (field : option Z)
    (f : Z -> Instrument.t -> Instrument.t) (i : Instrument.t) : Instrument.t :=
  match field with
  | Some v => if (v =? 0)%Z then i else f v i
  | None => i
  end.

(** The four statements for one oscillator slot.  The name of a waveform is
    not the empty string, so [if (args.oscNWaveform)] holds when the field is
    present. *)
Definition apply_oscillator (oscKey : string) (waveform : option WaveformType)
    (range : option Z) (detune volume : option R) (i : Instrument.t) : Instrument.t :=
  let i :=
    if_defined waveform
      (fun w => Instrument.on_synth
                  (Synth.updateOscillator oscKey (Synth.param_waveform w))) i in
  let i :=
    if_truthy range
      (fun r => Instrument.on_synth
                  (Synth.updateOscillator oscKey (Synth.param_range r))) i in
  let i :=
    if_defined detune
      (fun d => Instrument.on_synth
                  (Synth.updateOscillator oscKey (Synth.param_detune d))) i in
  if_defined volume (fun v => Instrument.on_mixer (Mixer.updateMixer oscKey v)) i.

(** [onToolCall] for the tool [adjustSynthSettings] on a panel whose engine
    is there. *)
Definition onToolCall (args : ToolArgs.t) (i : Instrument.t) : Instrument.t :=
  let filter f := fun v => Instrument.on_synth (assign_filterEnvelope f v) in
  let volume f := fun v => Instrument.on_synth (assign_volumeEnvelope f v) in
  let i :=
    apply_oscillator "osc1" (ToolArgs.osc1Waveform args) (ToolArgs.osc1Range args)
      (ToolArgs.osc1Detune args) (ToolArgs.osc1Volume args) i in
  let i :=
    apply_oscillator "osc2" (ToolArgs.osc2Waveform args) (ToolArgs.osc2Range args)
      (ToolArgs.osc2Detune args) (ToolArgs.osc2Volume args) i in
  let i :=
    apply_oscillator "osc3" (ToolArgs.osc3Waveform args) (ToolArgs.osc3Range args)
      (ToolArgs.osc3Detune args) (ToolArgs.osc3Volume args) i in
  let i := if_defined (ToolArgs.filterAttack args) (filter filter_attack) i in
  let i := if_defined (ToolArgs.filterDecay args) (filter filter_decay) i in
  let i := if_defined (ToolArgs.filterSustain args) (filter filter_sustain) i in
  let i := if_defined (ToolArgs.filterRelease args) (filter filter_release) i in
  let i := if_defined (ToolArgs.filterCutoff args) (filter filter_cutoff) i in
  let i := if_defined (ToolArgs.filterEmphasis args) (filter filter_emphasis) i in
  let i := if_defined (ToolArgs.filterStartLevel args) (filter filter_start) i in
  let i := if_defined (ToolArgs.filterContour args) (filter filter_contour) i in
  let i := if_defined (ToolArgs.volumeAttack args) (volume volume_attack) i in
  let i := if_defined (ToolArgs.volumeDecay args) (volume volume_decay) i in
  let i := if_defined (ToolArgs.volumeSustain args) (volume volume_sustain) i in
  let i := if_defined (ToolArgs.volumeRelease args) (volume volume_release) i in
  let i :=
    if_defined (ToolArgs.masterVolume args)
      (fun v => Instrument.on_synth (Synth.setVolume v)) i in
  let i :=
    if_defined (ToolArgs.noiseLevel args)
      (fun v => Instrument.on_synth (Synth.setNoiseLevel v)) i in
  let i :=
    if_defined (ToolArgs.noiseFilterFreq args)
      (fun v => Instrument.on_synth (Synth.setNoiseFilterFrequency v)) i in
  let i :=
    if_defined (ToolArgs.noiseFilterQ args)
      (fun v => Instrument.on_synth (Synth.setNoiseFilterQ v)) i in
  let i :=
    if_defined (ToolArgs.lfoWaveform args)
      (fun w => Instrument.on_lfo (LFO.updateLFO (LFO.param_waveform w))) i in
  let i :=
    if_defined (ToolArgs.lfoFrequency args)
      (fun v => Instrument.on_lfo (LFO.updateLFO (LFO.param_frequency v))) i in
  if_defined (ToolArgs.lfoDepth args)
    (fun v => Instrument.on_lfo (LFO.updateLFO (LFO.param_depth v))) i.

End ChatPanel.

(** ** Vocabulary of the properties *)

(** A note name as a grammar: one letter of the class [letter], an optional
    [#] or [b], one or more decimal digits. *)
Definition note_form (letter : ascii -> bool) (s : string) : Prop :=
  exists (l : ascii) (accidental digits : string),
    s = String l (accidental ++ digits)%string /\
    letter l = true /\
    (accidental = ""%string \/ accidental = "#"%string \/ accidental = "b"%string) /\
    digits <> ""%string /\
    all_digits digits = true.

(** The specification's note names, [[A-G](#|b)?[0-9]+]. *)
Definition spec_note_form (s : string) : Prop := note_form is_letter_A_G s.

(** The semitone distance from A4 that [noteToFrequency] computes on the way,
    when it computes one. *)
Definition semitonesFromA4_of (note : string) : option Z :=
  match AudioEngine.note_match note with
  | None => None
  | Some (m1, m2) =>
      match AudioEngine.notes_get (AudioEngine.capitalise m1) with
      | None => None
      | Some semitone => Some (semitone - 9 + (parseInt m2 - 4) * 12)%Z
      end
  end.

(** [r] is [v] clamped into [[lo, hi]]. *)
Definition clamped_into (lo hi v r : R) : Prop :=
  lo <= r <= hi /\
  (lo <= v <= hi -> r = v) /\
  (v <= lo -> r = lo) /\
  (hi <= v -> r = hi).

(** Every exponential ramp recorded on a parameter ends at 1e-4 or above. *)
Definition exp_ramps_floored (p : AudioParam) : Prop :=
  forall v t, exponentialRampToValueAtTime v t ∈ automation p -> 0.0001 <= v.

Definition ctx_exp_ramps_floored (ctx : AudioContext) : Prop :=
  forall r p, param_get ctx r = Some p -> exp_ramps_floored p.

(** A call that is not an exponential ramp, or one ending at 1e-4 or above. *)
Definition floored_call (c : AutomationCall) : Prop :=
  match c with
  | exponentialRampToValueAtTime v _ => 0.0001 <= v
  | _ => True
  end.

(** The name of MIDI note [m] is looked up as [m - 69] semitones from A4. *)
Definition midi_name_agrees (m : Z) : bool :=
  match semitonesFromA4_of (AudioEngine.midiToNote m) with
  | Some k => (k =? m - 69)%Z
  | None => false
  end.

(** ** Vocabulary of the proofs about voices *)

(** A store grown from [b]: the nodes [G], [F], [O] and the envelopes [E]
    come after those of [b]. *)
Definition ext (b : Store) (G : list GainNode) (F : list BiquadFilterNode)
    (O : list OscillatorNode) (E : list Envelope.t) : Store :=
  {| context :=
       {| currentTime := currentTime (context b);
          gain_nodes := gain_nodes (context b) ++ G;
          filter_nodes := filter_nodes (context b) ++ F;
          oscillator_nodes := oscillator_nodes (context b) ++ O |};
     envelopes := envelopes b ++ E |}.

Definition n_gains (b : Store) : nat := length (gain_nodes (context b)).
Definition n_filters (b : Store) : nat := length (filter_nodes (context b)).
Definition n_oscillators (b : Store) : nat := length (oscillator_nodes (context b)).
Definition n_envelopes (b : Store) : nat := length (envelopes b).

(** What [playNote] builds for a voice, on the engine state [s] (after any
    earlier voice of the note was stopped), for the frequency [f] and the
    start time [st]. *)
Definition voice_volume_envelope (s : Synth.t) (k : nat) : Envelope.t :=
  Envelope.connect (gain_of (n_gains (Synth.store s) + k))
    (Envelope.new (Synth.volumeEnvelopeSettings s)).

Definition voice_filter_envelope (s : Synth.t) (k : nat) : Envelope.t :=
  Envelope.connect (frequency_of (n_filters (Synth.store s) + k))
    (Envelope.new (Synth.filter_envelope_options (Synth.filterEnvelopeSettings s))).

Definition voice_trigger_time (s : Synth.t) (st : R) : R :=
  Math_max st (currentTime (context (Synth.store s))).

Definition voice_gain (s : Synth.t) (st : R) (k : nat) : GainNode :=
  with_gain
    (append_calls
       (Envelope.trigger_calls (voice_trigger_time s st) (voice_volume_envelope s k)))
    {| gain := mkAudioParam 0 [] |}.

Definition voice_filter (s : Synth.t) (st : R) (k : nat) : BiquadFilterNode :=
  let fs := Synth.filterEnvelopeSettings s in
  with_frequency
    (append_calls
       (Envelope.trigger_calls (voice_trigger_time s st) (voice_filter_envelope s k)))
    {| filter_type := FilterEnvelopeSettings.filterType fs;
       frequency := mkAudioParam (FilterEnvelopeSettings.cutoffFrequency fs) [];
       Q := mkAudioParam (FilterEnvelopeSettings.Q fs) [] |}.

Definition voice_oscillator (f st : R) (slot : OscillatorSettings.t) : OscillatorNode :=
  set_start st
    (set_detune (OscillatorSettings.detune slot)
       {| osc_type := OscillatorSettings.waveform slot;
          osc_frequency :=
            mkAudioParam
              (Synth.rangeToFrequency f (OscillatorSettings.range slot)) [];
          detune := mkAudioParam 0 [];
          start_time := None;
          stop_time := None |}).

Definition voice_store (s : Synth.t) (f st : R) : Store :=
  ext (Synth.store s)
    [voice_gain s st 0; voice_gain s st 1; voice_gain s st 2]
    [voice_filter s st 0; voice_filter s st 1; voice_filter s st 2]
    [voice_oscillator f st (Synth.osc1 s); voice_oscillator f st (Synth.osc2 s);
     voice_oscillator f st (Synth.osc3 s)]
    [voice_volume_envelope s 0; voice_filter_envelope s 0;
     voice_volume_envelope s 1; voice_filter_envelope s 1;
     voice_volume_envelope s 2; voice_filter_envelope s 2].

Definition new_voice (s : Synth.t) (noteName : string) : ActiveVoice.t :=
  let h := Synth.store s in
  {| ActiveVoice.note := noteName;
     ActiveVoice.oscillators :=
       [(n_oscillators h + 0)%nat; (n_oscillators h + 1)%nat; (n_oscillators h + 2)%nat];
     ActiveVoice.gainNodes :=
       [(n_gains h + 0)%nat; (n_gains h + 1)%nat; (n_gains h + 2)%nat];
     ActiveVoice.filters :=
       [(n_filters h + 0)%nat; (n_filters h + 1)%nat; (n_filters h + 2)%nat];
     ActiveVoice.volumeEnvelope := (n_envelopes h + 0)%nat;
     ActiveVoice.filterEnvelope := (n_envelopes h + 1)%nat;
     ActiveVoice.releaseTime := EnvelopeOptions.release (Synth.volumeEnvelopeSettings s) |}.

(** The table has one entry per key, filed under the voice's own note. *)
Definition table_ok (s : Synth.t) : Prop :=
  NoDup (JSMap.keys (Synth.activeVoices s)) /\
  (forall k v, (k, v) ∈ Synth.activeVoices s -> ActiveVoice.note v = k).

(** The gain of the noise gate is 1 when some voice is in the table, and 0
    when none is. *)
Definition gate_ok (s : Synth.t) : Prop :=
  (Synth.activeVoices s = [] -> value (gain (Synth.noiseGate s)) = 0) /\
  (Synth.activeVoices s <> [] -> value (gain (Synth.noiseGate s)) = 1).

(** The operations that are neither a note-on nor a note-off. *)
Definition parameter_op (o : Op) : Prop :=
  match o with
  | playNote _ _ | stopNote _ _ | stopAll => False
  | _ => True
  end.

(** An oscillator of the store that was started and has no stop scheduled;
    one that has a stop scheduled at [when]. *)
Definition osc_started (h : Store) (o : nat) : Prop :=
  exists node t,
    oscillator_nodes (context h) !! o = Some node /\ start_time node = Some t.

Definition osc_sounding (h : Store) (o : nat) : Prop :=
  exists node t,
    oscillator_nodes (context h) !! o = Some node /\
    start_time node = Some t /\ stop_time node = None.

Definition osc_stopped_at (h : Store) (o : nat) (when : R) : Prop :=
  exists node,
    oscillator_nodes (context h) !! o = Some node /\ stop_time node = Some when.

(** Two envelopes that differ at most in [releaseStartTime]. *)
Definition same_settings (e e' : Envelope.t) : Prop :=
  Envelope.attack e' = Envelope.attack e /\
  Envelope.decay e' = Envelope.decay e /\
  Envelope.sustain e' = Envelope.sustain e /\
  Envelope.release e' = Envelope.release e /\
  Envelope.startLevel e' = Envelope.startLevel e /\
  Envelope.maxLevel e' = Envelope.maxLevel e /\
  Envelope.param e' = Envelope.param e.

(** [h'] is a later store than [h]: the envelopes of [h] are still there
    with their settings, no node has gone, and an oscillator that was
    started still is. *)
Definition store_kept (h h' : Store) : Prop :=
  (forall i e, envelopes h !! i = Some e ->
     exists e', envelopes h' !! i = Some e' /\ same_settings e e') /\
  (n_gains h <= n_gains h')%nat /\
  (n_filters h <= n_filters h')%nat /\
  (forall o, osc_started h o -> osc_started h' o).

(** The filter settings as the control panels keep them: the two cutoff
    fields agree and the start level is set. *)
Definition filter_settings_ok (s : Synth.t) : Prop :=
  let fs := Synth.filterEnvelopeSettings s in
  FilterEnvelopeSettings.maxLevel fs = Some (FilterEnvelopeSettings.cutoffFrequency fs) /\
  is_Some (FilterEnvelopeSettings.startLevel fs).

(** An operation that neither plays nor stops the note [n]. *)
Definition op_leaves_note (n : string) (o : Op) : Prop :=
  match o with
  | playNote m _ | stopNote m _ => m <> n
  | stopAll => False
  | _ => True
  end.

(** What a voice needs from the store for its release: its two envelopes
    are there with the settings of [ev0] and [ef0], connected to the first
    gain node and to the filter [f0]; its three gain nodes are distinct nodes
    of the context; its oscillators were started. *)
Definition voice_refs_ok (v : ActiveVoice.t) (ev0 ef0 : Envelope.t)
    (g0 g1 g2 f0 : nat) (h : Store) : Prop :=
  ActiveVoice.gainNodes v = [g0; g1; g2] /\
  g0 <> g1 /\ g0 <> g2 /\ g1 <> g2 /\
  (g0 < n_gains h)%nat /\ (g1 < n_gains h)%nat /\ (g2 < n_gains h)%nat /\
  (f0 < n_filters h)%nat /\
  ActiveVoice.volumeEnvelope v <> ActiveVoice.filterEnvelope v /\
  Envelope.param ev0 = Some (gain_of g0) /\
  Envelope.param ef0 = Some (frequency_of f0) /\
  (exists ev, envelopes h !! ActiveVoice.volumeEnvelope v = Some ev /\ same_settings ev0 ev) /\
  (exists ef, envelopes h !! ActiveVoice.filterEnvelope v = Some ef /\ same_settings ef0 ef) /\
  (forall o, o ∈ ActiveVoice.oscillators v -> osc_started h o).

(** The three calls of the release of an envelope, and the three calls of
    the fade of a gain node, spelled out. *)
Definition envelope_release (now read startLevel release : R) : list AutomationCall :=
  [ cancelScheduledValues now;
    setValueAtTime (Rmax read 0.0001) now;
    exponentialRampToValueAtTime (Rmax startLevel 0.0001) (now + Rmax release 0.001) ].

Definition gain_fade (stopTime read release : R) : list AutomationCall :=
  [ cancelScheduledValues stopTime;
    setValueAtTime read stopTime;
    linearRampToValueAtTime 0 (stopTime + release) ].

(** ** Vocabulary of the further properties *)

(** The voices of the table and the oscillators of the store: every
    oscillator of a voice is sounding, every sounding oscillator belongs to a
    voice, and the voices of two notes share no oscillator. *)
Definition voices_sounding (s : Synth.t) : Prop :=
  forall k v o, (k, v) ∈ Synth.activeVoices s -> o ∈ ActiveVoice.oscillators v ->
    osc_sounding (Synth.store s) o.

Definition sounding_owned (s : Synth.t) : Prop :=
  forall o, osc_sounding (Synth.store s) o ->
    exists k v, (k, v) ∈ Synth.activeVoices s /\ o ∈ ActiveVoice.oscillators v.

Definition voices_disjoint (s : Synth.t) : Prop :=
  forall k v k' v' o,
    (k, v) ∈ Synth.activeVoices s -> (k', v') ∈ Synth.activeVoices s ->
    o ∈ ActiveVoice.oscillators v -> o ∈ ActiveVoice.oscillators v' -> k = k'.

Definition voices_ok (s : Synth.t) : Prop :=
  table_ok s /\ voices_sounding s /\ sounding_owned s /\ voices_disjoint s.

(** [ctx'] is a later context than [ctx] in which every filter has kept its
    type and its Q, and every oscillator its waveform, its frequency and,
    once started, its start time. *)
Definition nodes_kept (ctx ctx' : AudioContext) : Prop :=
  (forall i f, filter_nodes ctx !! i = Some f ->
     exists f', filter_nodes ctx' !! i = Some f' /\
                filter_type f' = filter_type f /\ Q f' = Q f) /\
  (forall o n, oscillator_nodes ctx !! o = Some n ->
     exists n', oscillator_nodes ctx' !! o = Some n' /\
                osc_type n' = osc_type n /\ osc_frequency n' = osc_frequency n /\
                (is_Some (start_time n) -> start_time n' = start_time n)).

(** The noise source has been asked for: a call of [setNoiseLevel] with a
    positive value. *)
Definition asks_for_noise (o : Op) : Prop :=
  match o with
  | setNoiseLevel v => 0 < v
  | _ => False
  end.

(** The body of the loop of [updateOscillator] over the voices, for the
    oscillator index [i] and the detune [v]. *)
Definition retune (i : nat) (v : R) (h : Store) (voice : ActiveVoice.t) : Store :=
  match ActiveVoice.oscillators voice !! i with
  | Some o => on_context (osc_set_detune o v) h
  | None => h
  end.

(** A call other than [connect]. *)
Definition not_connect (c : EnvelopeCall) : Prop :=
  match c with
  | env_call_connect _ => False
  | _ => True
  end.

(** The channels of the mixer are the three slots; each is active, and its
    gain node carries the volume the channel records. *)
Definition mixer_ok (mixer : Mixer.t) : Prop :=
  JSMap.keys mixer = ["osc1"; "osc2"; "osc3"]%string /\
  forall k channel, JSMap.get k mixer = Some channel ->
    value (gain (MixerChannel.node channel)) = MixerChannel.volume channel /\
    automation (gain (MixerChannel.node channel)) = [] /\
    MixerChannel.active channel = true.

(** The nodes of the LFO mirror its settings: the oscillator has the
    waveform and the frequency, the pitch gain is the depth and the filter
    gain a hundred times the depth; the oscillator runs. *)
Definition lfo_ok (s : LFO.t) : Prop :=
  exists osc pitchGain filterGain,
    LFO.lfo s = Some osc /\ LFO.lfoPitchGain s = Some pitchGain /\
    LFO.lfoFilterGain s = Some filterGain /\
    osc_type osc = LFOSettings.waveform (LFO.lfoSettings s) /\
    value (osc_frequency osc) = LFOSettings.frequency (LFO.lfoSettings s) /\
    value (gain pitchGain) = LFOSettings.depth (LFO.lfoSettings s) /\
    value (gain filterGain) = LFOSettings.depth (LFO.lfoSettings s) * 100 /\
    start_time osc = Some 0 /\ stop_time osc = None.

(** The names the keyboard can send with the octave [octave] and
    [visibleOctaves] octaves shown: those printed on its white and black
    keys and those of the mapped keys of the computer keyboard. *)
Definition keyboard_name (octave visibleOctaves : Z) (name : string) : Prop :=
  name ∈ Keyboard.generateWhiteNotes octave visibleOctaves \/
  name ∈ (fst <$> Keyboard.generateBlackNotes octave visibleOctaves) \/
  exists key mapping,
    JSMap.get key Keyboard.KEY_TO_NOTE = Some mapping /\
    name = Keyboard.fullNote octave mapping.

(** [a] is lower in pitch than [b], by the semitones [noteToFrequency]
    counts for the two names. *)
Definition pitch_below (a b : string) : bool :=
  match semitonesFromA4_of a, semitonesFromA4_of b with
  | Some x, Some y => (x <? y)%Z
  | _, _ => false
  end.

Fixpoint ascending (l : list string) : bool :=
  match l with
  | [] => true
  | a :: l' =>
      match l' with
      | [] => true
      | b :: _ => pitch_below a b && ascending l'
      end
  end.

(** The black key [key] lies between the white keys at its position and at
    the next one. *)
Definition black_key_between (whites : list string) (key : string * Z) : bool :=
  match whites !! Z.to_nat (snd key), whites !! S (Z.to_nat (snd key)) with
  | Some a, Some b =>
      (0 <=? snd key)%Z && pitch_below a (fst key) && pitch_below (fst key) b
  | _, _ => false
  end.

Definition layout_in_order (octave visibleOctaves : Z) : bool :=
  let whites := Keyboard.generateWhiteNotes octave visibleOctaves in
  let blacks := Keyboard.generateBlackNotes octave visibleOctaves in
  (length whites =? 7 * Z.to_nat visibleOctaves + 1)%nat &&
  (length blacks =? 5 * Z.to_nat visibleOctaves)%nat &&
  ascending whites &&
  forallb (black_key_between whites) blacks.

(** The parameter [r] is one of the voice [v]: the gain of one of its gain
    nodes or the frequency of one of its filters. *)
Definition owns (v : ActiveVoice.t) (r : AudioParamRef) : Prop :=
  match r with
  | gain_of g => g ∈ ActiveVoice.gainNodes v
  | frequency_of f => f ∈ ActiveVoice.filters v
  end.

(** The gain nodes and the filters of the voice [v] are nodes of the store,
    and its two envelopes are envelopes of the store that are connected to
    nothing but parameters of [v]. *)
Definition voice_wired (v : ActiveVoice.t) (h : Store) : Prop :=
  (forall g, g ∈ ActiveVoice.gainNodes v -> (g < n_gains h)%nat) /\
  (forall f, f ∈ ActiveVoice.filters v -> (f < n_filters h)%nat) /\
  (forall e, e ∈ [ActiveVoice.volumeEnvelope v; ActiveVoice.filterEnvelope v] ->
     exists env, envelopes h !! e = Some env /\
                 forall r, Envelope.param env = Some r -> owns v r).

(** Two voices with no gain node, no filter and no envelope in common. *)
Definition voices_apart (v v' : ActiveVoice.t) : Prop :=
  (forall g, g ∈ ActiveVoice.gainNodes v -> g ∉ ActiveVoice.gainNodes v') /\
  (forall f, f ∈ ActiveVoice.filters v -> f ∉ ActiveVoice.filters v') /\
  (forall e, e ∈ [ActiveVoice.volumeEnvelope v; ActiveVoice.filterEnvelope v] ->
     e ∉ [ActiveVoice.volumeEnvelope v'; ActiveVoice.filterEnvelope v']).

Definition voices_separate (s : Synth.t) : Prop :=
  (forall k v, (k, v) ∈ Synth.activeVoices s -> voice_wired v (Synth.store s)) /\
  (forall k v k' v',
     (k, v) ∈ Synth.activeVoices s -> (k', v') ∈ Synth.activeVoices s -> k <> k' ->
     voices_apart v v').

(** The store [h'] has for the voice [v] exactly what [h] has: its gain
    nodes, its filters, its oscillators and its two envelopes. *)
Definition voice_untouched (v : ActiveVoice.t) (h h' : Store) : Prop :=
  (forall g, g ∈ ActiveVoice.gainNodes v ->
     gain_nodes (context h') !! g = gain_nodes (context h) !! g) /\
  (forall f, f ∈ ActiveVoice.filters v ->
     filter_nodes (context h') !! f = filter_nodes (context h) !! f) /\
  (forall o, o ∈ ActiveVoice.oscillators v ->
     oscillator_nodes (context h') !! o = oscillator_nodes (context h) !! o) /\
  (forall e, e ∈ [ActiveVoice.volumeEnvelope v; ActiveVoice.filterEnvelope v] ->
     envelopes h' !! e = envelopes h !! e).

(** What the schema of the tool admits (route.ts): a number between two
    bounds, one of the five ranges. *)
Definition between (lo hi : R) (field : option R) : Prop :=
  match field with
  | Some v => lo <= v <= hi
  | None => True
  end.

Definition a_range (field : option Z) : Prop :=
  match field with
  | Some v => v ∈ [2; 4; 8; 16; 32]%Z
  | None => True
  end.

Definition schema_admits (a : ToolArgs.t) : Prop :=
  a_range (ToolArgs.osc1Range a) /\ between (-50) 50 (ToolArgs.osc1Detune a) /\
  between 0 1 (ToolArgs.osc1Volume a) /\
  a_range (ToolArgs.osc2Range a) /\ between (-50) 50 (ToolArgs.osc2Detune a) /\
  between 0 1 (ToolArgs.osc2Volume a) /\
  a_range (ToolArgs.osc3Range a) /\ between (-50) 50 (ToolArgs.osc3Detune a) /\
  between 0 1 (ToolArgs.osc3Volume a) /\
  between 0 5 (ToolArgs.filterAttack a) /\ between 0 2.5 (ToolArgs.filterDecay a) /\
  between 0 10000 (ToolArgs.filterSustain a) /\ between 0 5 (ToolArgs.filterRelease a) /\
  between 20 20000 (ToolArgs.filterCutoff a) /\
  between 20 5000 (ToolArgs.filterStartLevel a) /\
  between 0 10 (ToolArgs.filterEmphasis a) /\ between 0 1 (ToolArgs.filterContour a) /\
  between 0 5 (ToolArgs.volumeAttack a) /\ between 0.1 5 (ToolArgs.volumeDecay a) /\
  between 0.1 1 (ToolArgs.volumeSustain a) /\ between 0 10 (ToolArgs.volumeRelease a) /\
  between 0 1 (ToolArgs.masterVolume a) /\ between 0 1 (ToolArgs.noiseLevel a) /\
  between 100 8000 (ToolArgs.noiseFilterFreq a) /\
  between 0.1 10 (ToolArgs.noiseFilterQ a) /\
  between 0 30 (ToolArgs.lfoFrequency a) /\ between 0 100 (ToolArgs.lfoDepth a).

(** [new] is [old] with the field written over it when it is present. *)
Definition patched {A : Type} (old : A) (field : option A) (new : A) : Prop :=
  new = default old field.

(** * Properties *)

(** ** The model at work *)

Example midiToNote_samples :
  AudioEngine.midiToNote 69 = "A4"%string /\
  AudioEngine.midiToNote 60 = "C4"%string /\
  AudioEngine.midiToNote 61 = "C#4"%string /\
  AudioEngine.midiToNote 12 = "C0"%string /\
  AudioEngine.midiToNote 127 = "G9"%string /\
  AudioEngine.midiToNote 11 = "B-1"%string.
Proof. repeat split; reflexivity. Qed.

Example note_match_samples :
  AudioEngine.note_match "C#4" = Some ("C#"%string, "4"%string) /\
  AudioEngine.note_match "bb12" = Some ("bb"%string, "12"%string) /\
  AudioEngine.note_match "b4" = Some ("b"%string, "4"%string) /\
  AudioEngine.note_match "B-1" = None /\
  AudioEngine.note_match "H3" = None /\
  AudioEngine.note_match "A" = None /\
  AudioEngine.note_match "A4 " = None.
Proof. repeat split; reflexivity. Qed.

(** A4 is 440 Hz; a name the table does not have, such as B sharp, falls
    back to 440 Hz with a warning of its own. *)
Example noteToFrequency_samples :
  AudioEngine.noteToFrequency "A4" = (440, []) /\
  AudioEngine.noteToFrequency "A5" = (880, []) /\
  AudioEngine.noteToFrequency "B#3" = (440, ["Unknown note: B#"%string]) /\
  AudioEngine.noteToFrequency "" = (440, ["Invalid note format: "%string]).
Proof.
  assert (H0 : Rpower 2 (IZR 0 / 12) = 1).
  { replace (IZR 0 / 12) with 0 by lra. apply Rpower_O. lra. }
  assert (H1 : Rpower 2 (IZR 12 / 12) = 2).
  { replace (IZR 12 / 12) with 1 by lra. apply Rpower_1. lra. }
  repeat split.
  - lazy -[Math_pow2 Rmult Rdiv IZR]. unfold Math_pow2. rewrite H0. f_equal. lra.
  - lazy -[Math_pow2 Rmult Rdiv IZR]. unfold Math_pow2. rewrite H1. f_equal. lra.
Qed.

Example rangeToFrequency_64 (f : R) : Synth.rangeToFrequency f 64 = f / 8.
Proof. reflexivity. Qed.

(** One note played on a new engine: the voice recorded in the table. *)
Example playNote_on_new_engine :
  Synth.activeVoices (Synth.playNote "C3" None (Synth.new None 0)) =
    [ ("C3"%string,
       {| ActiveVoice.note := "C3";
          ActiveVoice.oscillators := [0; 1; 2]%nat;
          ActiveVoice.gainNodes := [0; 1; 2]%nat;
          ActiveVoice.filters := [0; 1; 2]%nat;
          ActiveVoice.volumeEnvelope := 0%nat;
          ActiveVoice.filterEnvelope := 1%nat;
          ActiveVoice.releaseTime := 0.3 |}) ].
Proof. reflexivity. Qed.

Example stop_then_play_again :
  JSMap.keys
    (Synth.activeVoices
       (run [playNote "C3" None; playNote "E3" None; stopNote "C3" None;
             playNote "C3" None]
            (Synth.new None 0))) = ["E3"%string; "C3"%string].
Proof. reflexivity. Qed.

(** ** Reading and writing parameters in a context *)

Lemma param_get_modify (f : AudioParam -> AudioParam) (r : AudioParamRef)
    (ctx : AudioContext) :
  param_get (param_modify f r ctx) r = f <$> param_get ctx r.
Proof.
  destruct r as [g|i]; simpl; rewrite list_lookup_alter_eq.
  - destruct (gain_nodes ctx !! g); reflexivity.
  - destruct (filter_nodes ctx !! i); reflexivity.
Qed.

Lemma param_get_modify_ne (f : AudioParam -> AudioParam) (r q : AudioParamRef)
    (ctx : AudioContext) :
  r <> q -> param_get (param_modify f r ctx) q = param_get ctx q.
Proof.
  intros Hne. destruct r as [g|i], q as [g'|i']; simpl; try reflexivity.
  - rewrite list_lookup_alter_ne; [reflexivity | congruence].
  - rewrite list_lookup_alter_ne; [reflexivity | congruence].
Qed.

Lemma currentTime_modify (f : AudioParam -> AudioParam) (r : AudioParamRef)
    (ctx : AudioContext) :
  currentTime (param_modify f r ctx) = currentTime ctx.
Proof. destruct r; reflexivity. Qed.

Lemma oscillator_nodes_modify (f : AudioParam -> AudioParam) (r : AudioParamRef)
    (ctx : AudioContext) :
  oscillator_nodes (param_modify f r ctx) = oscillator_nodes ctx.
Proof. destruct r; reflexivity. Qed.

Lemma schedule_all_get (cs : list AutomationCall) (p : AudioParamRef)
    (ctx : AudioContext) (a : AudioParam) :
  param_get ctx p = Some a ->
  param_get (schedule_all cs p ctx) p =
    Some {| value := value a; automation := automation a ++ cs |}.
Proof.
  revert ctx a. induction cs as [|c cs IH]; intros ctx a Ha; simpl.
  - rewrite app_nil_r. destruct a; exact Ha.
  - rewrite (IH _ (schedule c a)).
    + unfold schedule; simpl. rewrite <- app_assoc. reflexivity.
    + rewrite param_get_modify, Ha. reflexivity.
Qed.

Lemma schedule_all_get_ne (cs : list AutomationCall) (p q : AudioParamRef)
    (ctx : AudioContext) :
  p <> q -> param_get (schedule_all cs p ctx) q = param_get ctx q.
Proof.
  intros Hne. revert ctx. induction cs as [|c cs IH]; intros ctx; simpl; [reflexivity|].
  rewrite IH. apply param_get_modify_ne. exact Hne.
Qed.

Lemma schedule_all_currentTime (cs : list AutomationCall) (p : AudioParamRef)
    (ctx : AudioContext) :
  currentTime (schedule_all cs p ctx) = currentTime ctx.
Proof.
  revert ctx. induction cs as [|c cs IH]; intros ctx; simpl; [reflexivity|].
  rewrite IH. apply currentTime_modify.
Qed.

Lemma schedule_all_oscillator_nodes (cs : list AutomationCall) (p : AudioParamRef)
    (ctx : AudioContext) :
  oscillator_nodes (schedule_all cs p ctx) = oscillator_nodes ctx.
Proof.
  revert ctx. induction cs as [|c cs IH]; intros ctx; simpl; [reflexivity|].
  rewrite IH. apply oscillator_nodes_modify.
Qed.

(** ** C9: the range table *)

(** C9.  For every base frequency, [rangeToFrequency] gives four times the
    frequency for range 2, twice for range 4, the frequency itself for
    range 8, a half for range 16 and a quarter for range 32. *)
Theorem rangeToFrequency_table (f : R) :
  Synth.rangeToFrequency f 2 = f * 4 /\
  Synth.rangeToFrequency f 4 = f * 2 /\
  Synth.rangeToFrequency f 8 = f * 1 /\
  Synth.rangeToFrequency f 16 = f / 2 /\
  Synth.rangeToFrequency f 32 = f / 4.
Proof.
  repeat split; try reflexivity.
  simpl. symmetry. apply Rmult_1_r.
Qed.

(** ** C5: the clamping setters *)

Lemma clamp_clamped (lo hi v : R) :
  lo <= hi -> clamped_into lo hi v (Math_max lo (Math_min hi v)).
Proof.
  intros Hle. unfold clamped_into, Math_max, Math_min, Rmax, Rmin.
  destruct (Rle_dec hi v), (Rle_dec lo _); repeat split; intros; lra.
Qed.

(** C5 as stated fails: [setNoiseFilterFrequency(50)] leaves the noise
    filter at 50 Hz, below the 100 Hz of the stated domain. *)
Lemma setNoiseFilterFrequency_50_outside_100_8000 :
  value (frequency (Synth.noiseFilter
           (Synth.setNoiseFilterFrequency 50 (Synth.new None 0)))) = 50 /\
  ~ (100 <= value (frequency (Synth.noiseFilter
           (Synth.setNoiseFilterFrequency 50 (Synth.new None 0)))) <= 8000).
Proof.
  assert (H : value (frequency (Synth.noiseFilter
             (Synth.setNoiseFilterFrequency 50 (Synth.new None 0)))) = 50).
  { simpl. unfold Math_max, Math_min, Rmax, Rmin.
    destruct (Rle_dec 20000 50); [lra|]. destruct (Rle_dec 20 50); lra. }
  split; [exact H | rewrite H; lra].
Qed.

(** C5 (amended).  Every setter accepts every real and stores it clamped:
    [setVolume] and [setNoiseLevel] into [[0,1]], [setNoiseFilterFrequency]
    into [[20,20000]], [setNoiseFilterQ] into [[0.1,20]]. *)
Theorem setters_clamp (v : R) (s : Synth.t) :
  clamped_into 0 1 v (value (gain (Synth.masterVolume (Synth.setVolume v s)))) /\
  clamped_into 0 1 v (value (gain (Synth.noiseLevel (Synth.setNoiseLevel v s)))) /\
  clamped_into 20 20000 v
    (value (frequency (Synth.noiseFilter (Synth.setNoiseFilterFrequency v s)))) /\
  clamped_into 0.1 20 v
    (value (Q (Synth.noiseFilter (Synth.setNoiseFilterQ v s)))).
Proof.
  repeat split_and.
  - simpl. apply clamp_clamped. lra.
  - unfold Synth.setNoiseLevel. destruct (Rlt_dec 0 v); simpl; apply clamp_clamped; lra.
  - simpl. apply clamp_clamped. lra.
  - simpl. apply clamp_clamped. lra.
Qed.

(** ** C7: what [trigger] schedules *)

Lemma trigger_unfold (startTime : option R) (e : Envelope.t) (ctx : AudioContext)
    (p : AudioParamRef) :
  Envelope.param e = Some p ->
  Envelope.trigger startTime e ctx =
    schedule_all
      (Envelope.trigger_calls
         (Math_max (default (currentTime ctx) startTime) (currentTime ctx)) e)
      p ctx.
Proof. intros Hp. unfold Envelope.trigger. rewrite Hp. reflexivity. Qed.

(** C7.  A connected envelope triggered at a time that is not in the past
    records on its target, after what was there: a cancellation from
    [startTime], the value max(startLevel, 1e-4) set at [startTime], an
    exponential ramp to max(maxLevel, 1e-4) ending max(attack, 1 ms) later,
    and an exponential ramp to max(sustain, 1e-4) ending max(decay, 1 ms)
    after that.  No other parameter is touched. *)
Theorem trigger_schedules_attack_decay (e : Envelope.t) (ctx : AudioContext)
    (p : AudioParamRef) (a : AudioParam) (startTime : R) :
  Envelope.param e = Some p ->
  param_get ctx p = Some a ->
  currentTime ctx <= startTime ->
  param_get (Envelope.trigger (Some startTime) e ctx) p =
    Some {| value := value a;
            automation := automation a ++
              [ cancelScheduledValues startTime;
                setValueAtTime (Rmax (Envelope.startLevel e) 0.0001) startTime;
                exponentialRampToValueAtTime
                  (Rmax (Envelope.maxLevel e) 0.0001)
                  (startTime + Rmax (Envelope.attack e) 0.001);
                exponentialRampToValueAtTime
                  (Rmax (Envelope.sustain e) 0.0001)
                  (startTime + Rmax (Envelope.attack e) 0.001
                             + Rmax (Envelope.decay e) 0.001) ] |} /\
  (forall q, q <> p ->
     param_get (Envelope.trigger (Some startTime) e ctx) q = param_get ctx q).
Proof.
  intros Hp Ha Hnow.
  rewrite (trigger_unfold _ _ _ _ Hp). simpl default.
  assert (Hmax : Math_max startTime (currentTime ctx) = startTime).
  { unfold Math_max. apply Rmax_left. exact Hnow. }
  rewrite Hmax. split.
  - rewrite (schedule_all_get _ _ _ _ Ha). reflexivity.
  - intros q Hq. apply schedule_all_get_ne. congruence.
Qed.

Lemma trigger_schedules_attack_decay_witness :
  let e := Envelope.connect (gain_of 0)
             (Envelope.new (EnvelopeOptions.mk 0 0 0 0 None None)) in
  let ctx := snd (AudioEngine.createGain 0 (mkAudioContext 1 [] [] [])) in
  param_get (Envelope.trigger (Some 2) e ctx) (gain_of 0) =
    Some {| value := 0;
            automation :=
              [ cancelScheduledValues 2;
                setValueAtTime (Rmax 0 0.0001) 2;
                exponentialRampToValueAtTime (Rmax 1 0.0001) (2 + Rmax 0 0.001);
                exponentialRampToValueAtTime (Rmax 0 0.0001)
                  (2 + Rmax 0 0.001 + Rmax 0 0.001) ] |}.
Proof.
  intros e ctx.
  refine (proj1 (trigger_schedules_attack_decay e ctx (gain_of 0)
                   (mkAudioParam 0 []) 2 _ _ _)).
  - reflexivity.
  - reflexivity.
  - simpl. lra.
Defined.

(** ** C2: exponential ramps never end below the floor *)

Lemma floored_param_modify (f : AudioParam -> AudioParam) (r : AudioParamRef)
    (ctx : AudioContext) :
  (forall p, exp_ramps_floored p -> exp_ramps_floored (f p)) ->
  ctx_exp_ramps_floored ctx ->
  ctx_exp_ramps_floored (param_modify f r ctx).
Proof.
  intros Hf Hctx q p' Hget.
  destruct (decide (r = q)) as [->|Hne].
  - rewrite param_get_modify in Hget.
    destruct (param_get ctx q) as [p0|] eqn:E; simpl in Hget; [|discriminate].
    injection Hget as <-. apply Hf. exact (Hctx q p0 E).
  - rewrite param_get_modify_ne in Hget by exact Hne. exact (Hctx q p' Hget).
Qed.

Lemma floored_schedule (c : AutomationCall) (p : AudioParam) :
  floored_call c -> exp_ramps_floored p -> exp_ramps_floored (schedule c p).
Proof.
  intros Hc Hp v t Hin. unfold schedule in Hin; simpl in Hin.
  apply elem_of_app in Hin as [Hin|Hin].
  - exact (Hp v t Hin).
  - apply list_elem_of_singleton in Hin. subst c. exact Hc.
Qed.

Lemma floored_schedule_all (cs : list AutomationCall) (r : AudioParamRef)
    (ctx : AudioContext) :
  Forall floored_call cs ->
  ctx_exp_ramps_floored ctx ->
  ctx_exp_ramps_floored (schedule_all cs r ctx).
Proof.
  intros Hcs. revert ctx. induction Hcs as [|c cs Hc _ IH]; intros ctx Hctx; simpl.
  - exact Hctx.
  - apply IH. apply floored_param_modify; [|exact Hctx].
    intros p. apply floored_schedule. exact Hc.
Qed.

Lemma floor_le_max (x : R) : 0.0001 <= Math_max x 0.0001.
Proof. unfold Math_max. apply Rmax_r. Qed.

Lemma trigger_calls_floored (now : R) (e : Envelope.t) :
  Forall floored_call (Envelope.trigger_calls now e).
Proof.
  unfold Envelope.trigger_calls.
  repeat (apply Forall_cons_2; [simpl; first [exact I | apply floor_le_max] |]).
  apply Forall_nil_2.
Qed.

Lemma release_calls_floored (now read : R) (e : Envelope.t) :
  Forall floored_call (Envelope.release_calls now read e).
Proof.
  unfold Envelope.release_calls.
  repeat (apply Forall_cons_2; [simpl; first [exact I | apply floor_le_max] |]).
  apply Forall_nil_2.
Qed.

Lemma trigger_floored (t : option R) (e : Envelope.t) (ctx : AudioContext) :
  ctx_exp_ramps_floored ctx -> ctx_exp_ramps_floored (Envelope.trigger t e ctx).
Proof.
  intros Hctx. unfold Envelope.trigger.
  destruct (Envelope.param e); [|exact Hctx].
  apply floored_schedule_all; [apply trigger_calls_floored | exact Hctx].
Qed.

Lemma triggerRelease_floored (t : option R) (e : Envelope.t) (ctx : AudioContext) :
  ctx_exp_ramps_floored ctx ->
  ctx_exp_ramps_floored (snd (Envelope.triggerRelease t e ctx)).
Proof.
  intros Hctx. unfold Envelope.triggerRelease.
  destruct (Envelope.param e); [|exact Hctx]. cbn [snd].
  apply floored_schedule_all; [apply release_calls_floored | exact Hctx].
Qed.

Lemma assign_value_floored (v : R) (r : AudioParamRef) (ctx : AudioContext) :
  ctx_exp_ramps_floored ctx ->
  ctx_exp_ramps_floored (param_modify (assign_value v) r ctx).
Proof. apply floored_param_modify. intros p Hp w t Hin. exact (Hp w t Hin). Qed.

Lemma env_step_floored (c : EnvelopeCall) (st : Envelope.t * AudioContext) :
  ctx_exp_ramps_floored (snd st) -> ctx_exp_ramps_floored (snd (env_step st c)).
Proof.
  destruct st as [e ctx]. intros Hctx. simpl in Hctx.
  destruct c; cbn [env_step snd]; try exact Hctx.
  - exact (trigger_floored _ _ _ Hctx).
  - exact (triggerRelease_floored _ _ _ Hctx).
  - exact (assign_value_floored _ _ _ Hctx).
Qed.

Lemma env_run_floored (calls : list EnvelopeCall) (st : Envelope.t * AudioContext) :
  ctx_exp_ramps_floored (snd st) -> ctx_exp_ramps_floored (snd (env_run calls st)).
Proof.
  revert st. induction calls as [|c calls IH]; intros st Hst; simpl; [exact Hst|].
  apply IH. exact (env_step_floored _ _ Hst).
Qed.

(** C2.  Take an envelope with any settings and a context whose recorded
    exponential ramps all end at 1e-4 or above (a fresh context has none).
    After any sequence of [connect], [trigger], [triggerRelease] and [update]
    calls, interleaved with the substrate's own moves, every exponential
    ramp recorded on any parameter ends at 1e-4 or above, hence not at 0. *)
Theorem envelope_exp_ramp_endpoints_floored
    (calls : list EnvelopeCall) (e : Envelope.t) (ctx : AudioContext)
    (r : AudioParamRef) (p : AudioParam) (v t : R) :
  ctx_exp_ramps_floored ctx ->
  param_get (snd (env_run calls (e, ctx))) r = Some p ->
  exponentialRampToValueAtTime v t ∈ automation p ->
  0.0001 <= v /\ v <> 0.
Proof.
  intros Hctx Hget Hin.
  assert (Hv : 0.0001 <= v).
  { exact (env_run_floored calls (e, ctx) Hctx r p Hget v t Hin). }
  split; [exact Hv | lra].
Qed.

Lemma fresh_gain_floored :
  ctx_exp_ramps_floored (snd (AudioEngine.createGain 0 (mkAudioContext 0 [] [] []))).
Proof.
  intros [[|g]|i] p Hget; simpl in Hget; try discriminate.
  injection Hget as <-. intros v t Hin. simpl in Hin. inversion Hin.
Qed.

Lemma envelope_exp_ramp_endpoints_floored_witness :
  0.0001 <= Rmax 0 0.0001 /\ Rmax 0 0.0001 <> 0.
Proof.
  refine (envelope_exp_ramp_endpoints_floored
            [ env_call_connect (gain_of 0);
              env_call_trigger None;
              env_call_triggerRelease None ]
            (Envelope.new (EnvelopeOptions.mk 0 0 0 0 (Some 0) (Some 0)))
            (snd (AudioEngine.createGain 0 (mkAudioContext 0 [] [] [])))
            (gain_of 0) _ (Rmax 0 0.0001) _ fresh_gain_floored eq_refl _).
  simpl. apply list_elem_of_further, list_elem_of_further, list_elem_of_here.
Defined.

(** ** C8: note names the lookup does not recognise *)

Lemma is_accidental_true (a : ascii) :
  is_accidental a = true -> a = "#"%char \/ a = "b"%char.
Proof.
  unfold is_accidental. intros H. apply orb_true_iff in H as [H|H].
  - left. apply Ascii.eqb_eq. exact H.
  - right. apply Ascii.eqb_eq. exact H.
Qed.

Lemma match_digits_Some (s d : string) :
  AudioEngine.match_digits s = Some d ->
  d = s /\ s <> ""%string /\ all_digits s = true.
Proof.
  unfold AudioEngine.match_digits. destruct s as [|c s]; [discriminate|].
  destruct (all_digits (String c s)) eqn:E; [|discriminate].
  intros [= <-]. split; [reflexivity | split; [discriminate | reflexivity]].
Qed.

Lemma note_form_plain (c : ascii) (rest d : string) :
  is_note_letter c = true ->
  AudioEngine.match_digits rest = Some d ->
  note_form is_note_letter (String c rest).
Proof.
  intros Hc Hd. apply match_digits_Some in Hd as (_ & Hne & Hall).
  exists c, ""%string, rest. simpl. auto.
Qed.

(** Whatever the matcher accepts has the grammar's shape, with a letter of
    either case. *)
Lemma note_match_sound (s m1 m2 : string) :
  AudioEngine.note_match s = Some (m1, m2) -> note_form is_note_letter s.
Proof.
  unfold AudioEngine.note_match.
  destruct s as [|c rest]; [discriminate|].
  destruct (is_note_letter c) eqn:Hc; [|discriminate].
  destruct rest as [|a rest'].
  - simpl. discriminate.
  - destruct (is_accidental a) eqn:Ha.
    + destruct (AudioEngine.match_digits rest') as [d|] eqn:Hd.
      * intros _. apply match_digits_Some in Hd as (_ & Hne & Hall).
        apply is_accidental_true in Ha.
        exists c, (String a ""), rest'. simpl.
        repeat split; auto. destruct Ha as [->| ->]; auto.
      * destruct (AudioEngine.match_digits (String a rest')) as [d|] eqn:Hd';
          [|discriminate].
        intros _. exact (note_form_plain c _ d Hc Hd').
    + destruct (AudioEngine.match_digits (String a rest')) as [d|] eqn:Hd';
        [|discriminate].
      intros _. exact (note_form_plain c _ d Hc Hd').
Qed.

(** C8 as stated fails: ["a5"] is not a note name of the form
    [[A-G](#|b)?[0-9]+], yet the lookup returns 880 Hz and warns of nothing. *)
Lemma noteToFrequency_lowercase_a5 :
  ~ spec_note_form "a5" /\
  fst (AudioEngine.noteToFrequency "a5") = 880 /\
  fst (AudioEngine.noteToFrequency "a5") <> 440 /\
  snd (AudioEngine.noteToFrequency "a5") = [].
Proof.
  assert (Hf : fst (AudioEngine.noteToFrequency "a5") = 880).
  { lazy -[Math_pow2 Rmult Rdiv IZR].
    replace (IZR 12 / 12) with 1 by lra.
    unfold Math_pow2. rewrite Rpower_1 by lra. lra. }
  split; [|split; [exact Hf | split; [rewrite Hf; lra | reflexivity]]].
  intros (l & acc & ds & Hs & Hl & _).
  injection Hs as <- _. discriminate Hl.
Qed.

(** C8 (amended).  For every string that is not one letter among [A-G] or
    [a-g], an optional [#] or [b], and one or more decimal digits,
    [noteToFrequency] returns 440 and writes one warning; being a total
    function, it returns for every string. *)
Theorem noteToFrequency_malformed (s : string) :
  ~ note_form is_note_letter s ->
  AudioEngine.noteToFrequency s = (440, [("Invalid note format: " ++ s)%string]).
Proof.
  intros Hform. unfold AudioEngine.noteToFrequency.
  destruct (AudioEngine.note_match s) as [[m1 m2]|] eqn:Hm; [|reflexivity].
  exfalso. apply Hform. exact (note_match_sound s m1 m2 Hm).
Qed.

Lemma noteToFrequency_malformed_witness :
  AudioEngine.noteToFrequency "H2" = (440, ["Invalid note format: H2"%string]).
Proof.
  apply (noteToFrequency_malformed "H2").
  intros (l & acc & ds & Hs & Hl & _).
  injection Hs as <- _. discriminate Hl.
Defined.

(** ** C10: MIDI numbers, note names and frequencies *)

Lemma noteToFrequency_semitones (note : string) (k : Z) :
  semitonesFromA4_of note = Some k ->
  AudioEngine.noteToFrequency note = (440 * Math_pow2 (IZR k / 12), []).
Proof.
  unfold semitonesFromA4_of, AudioEngine.noteToFrequency.
  destruct (AudioEngine.note_match note) as [[m1 m2]|]; [|discriminate].
  destruct (AudioEngine.notes_get (AudioEngine.capitalise m1)); [|discriminate].
  intros [= <-]. reflexivity.
Qed.

Lemma midi_names_agree_12_127 :
  forallb midi_name_agrees (map Z.of_nat (seq 12 116)) = true.
Proof. vm_compute. reflexivity. Qed.

Lemma midiToNote_semitones (m : Z) :
  (12 <= m <= 127)%Z ->
  semitonesFromA4_of (AudioEngine.midiToNote m) = Some (m - 69)%Z.
Proof.
  intros Hm.
  assert (Hin : In m (map Z.of_nat (seq 12 116))).
  { apply in_map_iff. exists (Z.to_nat m). split; [lia|]. apply in_seq. lia. }
  pose proof (proj1 (forallb_forall _ _) midi_names_agree_12_127 m Hin) as H.
  unfold midi_name_agrees in H.
  destruct (semitonesFromA4_of (AudioEngine.midiToNote m)) as [k|]; [|discriminate].
  apply Z.eqb_eq in H. congruence.
Qed.

(** C10.  For every integer MIDI note from 12 to 127, naming the note and
    looking the name up gives the frequency computed from the number, which
    is 440 × 2^((m − 69)/12); the lookup warns of nothing. *)
Theorem midi_note_name_frequency (m : Z) :
  (12 <= m <= 127)%Z ->
  AudioEngine.noteToFrequency (AudioEngine.midiToNote m) =
    (AudioEngine.midiToFrequency (IZR m), []) /\
  AudioEngine.midiToFrequency (IZR m) = 440 * Rpower 2 (IZR (m - 69) / 12).
Proof.
  intros Hm.
  assert (Hf : AudioEngine.midiToFrequency (IZR m) = 440 * Rpower 2 (IZR (m - 69) / 12)).
  { unfold AudioEngine.midiToFrequency, Math_pow2. rewrite minus_IZR. reflexivity. }
  split; [|exact Hf].
  rewrite (noteToFrequency_semitones _ _ (midiToNote_semitones m Hm)).
  rewrite Hf. reflexivity.
Qed.

Lemma midi_note_name_frequency_witness :
  AudioEngine.noteToFrequency (AudioEngine.midiToNote 60) =
    (AudioEngine.midiToFrequency (IZR 60), []) /\
  AudioEngine.midiToFrequency (IZR 60) = 440 * Rpower 2 (IZR (60 - 69) / 12).
Proof. apply (midi_note_name_frequency 60). lia. Defined.

(** ** Lists grown at the end *)

Section ListAt.
Context {A : Type}.
Implicit Types (l e : list A).

Lemma lookup_at l e k : (l ++ e) !! (length l + k)%nat = e !! k.
Proof. rewrite lookup_app_r by lia. f_equal. lia. Qed.

Lemma alter_at (f : A -> A) l e k :
  alter f (length l + k)%nat (l ++ e) = l ++ alter f k e.
Proof. apply alter_app_r. Qed.

End ListAt.

(** ** Several calls on one parameter *)

Lemma param_modify_ext (f g : AudioParam -> AudioParam) (r : AudioParamRef)
    (ctx : AudioContext) :
  (forall p, f p = g p) -> param_modify f r ctx = param_modify g r ctx.
Proof.
  intros H. destruct r; simpl; f_equal;
    (apply list_alter_ext; [|reflexivity]);
    intros x _; unfold with_gain, with_frequency; rewrite H; reflexivity.
Qed.

Lemma param_modify_id (f : AudioParam -> AudioParam) (r : AudioParamRef)
    (ctx : AudioContext) :
  (forall p, f p = p) -> param_modify f r ctx = ctx.
Proof.
  intros H. destruct ctx, r; simpl; f_equal; apply list_alter_id;
    intros []; unfold with_gain, with_frequency; simpl; rewrite H; reflexivity.
Qed.

Lemma param_modify_compose (f g : AudioParam -> AudioParam) (r : AudioParamRef)
    (ctx : AudioContext) :
  param_modify f r (param_modify g r ctx) = param_modify (fun p => f (g p)) r ctx.
Proof.
  destruct r; simpl; f_equal; rewrite list_alter_alter_eq;
    (apply list_alter_ext; [|reflexivity]); intros x _; reflexivity.
Qed.

Lemma schedule_all_modify (cs : list AutomationCall) (r : AudioParamRef)
    (ctx : AudioContext) :
  schedule_all cs r ctx = param_modify (append_calls cs) r ctx.
Proof.
  revert ctx. induction cs as [|c cs IH]; intros ctx.
  - simpl. symmetry. apply param_modify_id. intros [v a].
    unfold append_calls; simpl. rewrite app_nil_r. reflexivity.
  - change (schedule_all (c :: cs) r ctx)
      with (schedule_all cs r (param_modify (schedule c) r ctx)).
    rewrite IH, param_modify_compose. apply param_modify_ext.
    intros [v a]. unfold append_calls, schedule; simpl.
    rewrite <- app_assoc. reflexivity.
Qed.

(** ** The store that [playNote] builds *)

Section GrownStore.
Variable b : Store.
Implicit Types (G : list GainNode) (F : list BiquadFilterNode)
               (O : list OscillatorNode) (E : list Envelope.t).

Lemma ext_nil : b = ext b [] [] [] [].
Proof.
  destruct b as [[t g f o] e]. unfold ext; simpl.
  rewrite !app_nil_r. reflexivity.
Qed.

Lemma createOscillator_ext fr ty G F O E :
  AudioEngine.createOscillator fr ty (context (ext b G F O E)) =
    ((n_oscillators b + length O)%nat,
     context (ext b G F
                (O ++ [mkOscillatorNode ty (mkAudioParam fr []) (mkAudioParam 0 [])
                                        None None])
                E)).
Proof.
  unfold AudioEngine.createOscillator, ext, n_oscillators; simpl.
  rewrite length_app, <- app_assoc. reflexivity.
Qed.

Lemma osc_set_detune_ext k v G F O E :
  osc_set_detune (n_oscillators b + k) v (context (ext b G F O E)) =
    context (ext b G F (alter (set_detune v) k O) E).
Proof.
  unfold osc_set_detune, ext, n_oscillators; simpl. rewrite alter_at. reflexivity.
Qed.

Lemma on_context_const_ext G F O E G' F' O' E' :
  on_context (fun _ => context (ext b G' F' O' E')) (ext b G F O E) = ext b G' F' O' E.
Proof. reflexivity. Qed.

Lemma createGain_ext v G F O E :
  AudioEngine.createGain v (context (ext b G F O E)) =
    ((n_gains b + length G)%nat,
     context (ext b (G ++ [mkGainNode (mkAudioParam v [])]) F O E)).
Proof.
  unfold AudioEngine.createGain, ext, n_gains; simpl.
  rewrite length_app, <- app_assoc. reflexivity.
Qed.

Lemma createFilter_ext ty fr q G F O E :
  AudioEngine.createFilter ty fr q (context (ext b G F O E)) =
    ((n_filters b + length F)%nat,
     context (ext b G
                (F ++ [mkBiquadFilterNode ty (mkAudioParam fr []) (mkAudioParam q [])])
                O E)).
Proof.
  unfold AudioEngine.createFilter, ext, n_filters; simpl.
  rewrite length_app, <- app_assoc. reflexivity.
Qed.

Lemma new_Envelope_ext o G F O E :
  new_Envelope o (ext b G F O E) =
    ((n_envelopes b + length E)%nat, ext b G F O (E ++ [Envelope.new o])).
Proof.
  unfold new_Envelope, ext, n_envelopes; simpl.
  rewrite length_app, <- app_assoc. reflexivity.
Qed.

Lemma env_connect_ext k p G F O E :
  env_connect (n_envelopes b + k) p (ext b G F O E) =
    ext b G F O (alter (Envelope.connect p) k E).
Proof. unfold env_connect, ext, n_envelopes; simpl. rewrite alter_at. reflexivity. Qed.

Lemma osc_start_ext k st G F O E :
  on_context (osc_start (n_oscillators b + k) st) (ext b G F O E) =
    ext b G F (alter (set_start st) k O) E.
Proof.
  unfold on_context, osc_start, ext, n_oscillators; simpl.
  rewrite alter_at. reflexivity.
Qed.

Lemma env_trigger_ext_gain k j st env G F O E :
  E !! k = Some env ->
  Envelope.param env = Some (gain_of (n_gains b + j)) ->
  env_trigger (n_envelopes b + k) (Some st) (ext b G F O E) =
    ext b
      (alter (with_gain (append_calls
                (Envelope.trigger_calls (Math_max st (currentTime (context b))) env)))
             j G)
      F O E.
Proof.
  intros HE Hp. unfold env_trigger, n_envelopes. simpl envelopes.
  rewrite lookup_at, HE.
  unfold on_context, Envelope.trigger. rewrite Hp, schedule_all_modify.
  unfold ext, n_gains; simpl. rewrite alter_at. reflexivity.
Qed.

Lemma env_trigger_ext_frequency k j st env G F O E :
  E !! k = Some env ->
  Envelope.param env = Some (frequency_of (n_filters b + j)) ->
  env_trigger (n_envelopes b + k) (Some st) (ext b G F O E) =
    ext b G
      (alter (with_frequency (append_calls
                (Envelope.trigger_calls (Math_max st (currentTime (context b))) env)))
             j F)
      O E.
Proof.
  intros HE Hp. unfold env_trigger, n_envelopes. simpl envelopes.
  rewrite lookup_at, HE.
  unfold on_context, Envelope.trigger. rewrite Hp, schedule_all_modify.
  unfold ext, n_filters; simpl. rewrite alter_at. reflexivity.
Qed.
End GrownStore.

Ltac ext_step :=
  first
    [ rewrite createOscillator_ext
    | rewrite osc_set_detune_ext
    | rewrite on_context_const_ext
    | rewrite createGain_ext
    | rewrite createFilter_ext
    | rewrite new_Envelope_ext
    | rewrite env_connect_ext
    | rewrite osc_start_ext
    | erewrite env_trigger_ext_gain by reflexivity
    | erewrite env_trigger_ext_frequency by reflexivity ].

Ltac ext_steps := repeat (ext_step; cbn).

Ltac loop_body_step :=
  match goal with
  | |- context [Synth.connect_oscillator ?s ?st ?a ?c (ext ?b ?G ?F ?O ?E, ?gl, ?fl) (?i, ?o)] =>
      let H := fresh "H" in
      eassert (H : Synth.connect_oscillator s st a c (ext b G F O E, gl, fl) (i, o) = _);
      [ unfold Synth.connect_oscillator; cbn; ext_steps; reflexivity
      | rewrite H; clear H ]
  | |- context [Synth.create_oscillator ?f (?l, ext ?b ?G ?F ?O ?E) ?o] =>
      let H := fresh "H" in
      eassert (H : Synth.create_oscillator f (l, ext b G F O E) o = _);
      [ unfold Synth.create_oscillator; cbn; ext_steps; reflexivity
      | rewrite H; clear H ]
  end.

Section StartVoice.
#[local] Arguments ext : simpl never.
#[local] Arguments n_gains : simpl never.
#[local] Arguments n_filters : simpl never.
#[local] Arguments n_oscillators : simpl never.
#[local] Arguments n_envelopes : simpl never.
#[local] Arguments Synth.connect_oscillator : simpl never.
#[local] Arguments Synth.create_oscillator : simpl never.
#[local] Arguments AudioEngine.createOscillator : simpl never.
#[local] Arguments AudioEngine.createGain : simpl never.
#[local] Arguments AudioEngine.createFilter : simpl never.
#[local] Arguments osc_set_detune : simpl never.
#[local] Arguments osc_start : simpl never.
#[local] Arguments new_Envelope : simpl never.
#[local] Arguments env_connect : simpl never.
#[local] Arguments env_trigger : simpl never.
#[local] Arguments on_context : simpl never.
#[local] Arguments Envelope.connect : simpl never.
#[local] Arguments Envelope.new : simpl never.
#[local] Arguments Envelope.trigger_calls : simpl never.
#[local] Arguments Synth.filter_envelope_options : simpl never.
#[local] Arguments Synth.rangeToFrequency : simpl never.
#[local] Arguments append_calls : simpl never.
#[local] Arguments set_start : simpl never.
#[local] Arguments set_detune : simpl never.
#[local] Arguments with_gain : simpl never.
#[local] Arguments with_frequency : simpl never.
#[local] Arguments Math_max : simpl never.

(** [start_voice] in one equation: the table gets the new voice under the
    note, the store grows by the voice's nodes and envelopes, the noise
    filter follows the note and the noise gate opens. *)
Lemma start_voice_eq (n : string) (st : R) (s : Synth.t) :
  Synth.start_voice n st s =
    let f := fst (AudioEngine.noteToFrequency n) in
    let w := snd (AudioEngine.noteToFrequency n) in
    Synth.with_activeVoices
      (JSMap.set n (new_voice s n) (Synth.activeVoices s))
      (Synth.with_noiseGate (with_gain (assign_value 1) (Synth.noiseGate s))
         (Synth.with_noiseFilter
            (with_frequency (assign_value f) (Synth.noiseFilter s))
            (Synth.with_store (voice_store s f st)
               (Synth.with_console (Synth.console s ++ w) s)))).
Proof.
  unfold Synth.start_voice.
  destruct (AudioEngine.noteToFrequency n) as [f w].
  unfold Synth.createOscillators.
  cbn [Synth.store Synth.with_console Synth.osc1 Synth.osc2 Synth.osc3
       Synth.volumeEnvelopeSettings Synth.filterEnvelopeSettings].
  rewrite (ext_nil (Synth.store s)) at 1.
  cbn [foldl].
  do 3 loop_body_step.
  ext_steps.
  do 3 loop_body_step.
  ext_steps.
  reflexivity.
Qed.
End StartVoice.

(** ** The table as a map *)

Section JSMapFacts.
Context {V : Type}.
Implicit Types (m : JSMap.t V) (k : string) (v : V).

Lemma get_set_eq k v m : JSMap.get k (JSMap.set k v m) = Some v.
Proof.
  induction m as [|[k' v'] m IH]; simpl.
  - rewrite String.eqb_refl. reflexivity.
  - destruct (String.eqb k' k) eqn:E; simpl; rewrite E; [reflexivity | exact IH].
Qed.

Lemma get_set_ne k k' v m : k <> k' -> JSMap.get k' (JSMap.set k v m) = JSMap.get k' m.
Proof.
  intros Hne. induction m as [|[k0 v0] m IH]; simpl.
  - destruct (String.eqb_spec k k'); [contradiction | reflexivity].
  - destruct (String.eqb_spec k0 k) as [->|Hk]; simpl.
    + destruct (String.eqb_spec k k'); [contradiction | reflexivity].
    + rewrite IH. reflexivity.
Qed.

Lemma get_delete_ne k k' m : k <> k' -> JSMap.get k' (JSMap.delete k m) = JSMap.get k' m.
Proof.
  intros Hne. induction m as [|[k0 v0] m IH]; simpl; [reflexivity|].
  destruct (String.eqb_spec k0 k) as [->|Hk]; simpl.
  - destruct (String.eqb_spec k k'); [contradiction | reflexivity].
  - rewrite IH. reflexivity.
Qed.

Lemma get_None_keys k m : JSMap.get k m = None -> k ∉ JSMap.keys m.
Proof.
  induction m as [|[k0 v0] m IH]; simpl.
  - intros _ Hin. inversion Hin.
  - destruct (String.eqb_spec k0 k) as [->|Hk]; [discriminate|].
    intros Hg Hin. apply elem_of_cons in Hin as [->|Hin]; [congruence|].
    exact (IH Hg Hin).
Qed.

Lemma get_Some_elem k v m : JSMap.get k m = Some v -> (k, v) ∈ m.
Proof.
  induction m as [|[k0 v0] m IH]; simpl; [discriminate|].
  destruct (String.eqb_spec k0 k) as [->|Hk].
  - intros [= ->]. apply list_elem_of_here.
  - intros Hg. apply list_elem_of_further, IH, Hg.
Qed.

Lemma delete_absent k m : JSMap.get k m = None -> JSMap.delete k m = m.
Proof.
  induction m as [|[k0 v0] m IH]; simpl; [reflexivity|].
  destruct (String.eqb k0 k); [discriminate|].
  intros Hg. rewrite IH by exact Hg. reflexivity.
Qed.

Lemma set_not_nil k v m : JSMap.set k v m <> [].
Proof. destruct m as [|[k0 v0] m]; simpl; [|destruct (String.eqb k0 k)]; discriminate. Qed.

Lemma elem_of_set k v m x : x ∈ JSMap.set k v m -> x = (k, v) \/ x ∈ m.
Proof.
  induction m as [|[k0 v0] m IH]; simpl.
  - intros Hin. apply list_elem_of_singleton in Hin. left. exact Hin.
  - destruct (String.eqb_spec k0 k) as [->|Hk]; intros Hin;
      apply elem_of_cons in Hin as [->|Hin].
    + left. reflexivity.
    + right. apply list_elem_of_further, Hin.
    + right. apply list_elem_of_here.
    + destruct (IH Hin) as [->|Hm]; [left; reflexivity|].
      right. apply list_elem_of_further, Hm.
Qed.

Lemma elem_of_delete k m x : x ∈ JSMap.delete k m -> x ∈ m.
Proof.
  induction m as [|[k0 v0] m IH]; simpl; [trivial|].
  destruct (String.eqb k0 k); intros Hin.
  - apply list_elem_of_further, Hin.
  - apply elem_of_cons in Hin as [->|Hin];
      [apply list_elem_of_here | apply list_elem_of_further, IH, Hin].
Qed.

Lemma keys_delete_subseteq k m x : x ∈ JSMap.keys (JSMap.delete k m) -> x ∈ JSMap.keys m.
Proof.
  unfold JSMap.keys. intros Hin.
  apply list_elem_of_fmap in Hin as ([k0 v0] & -> & Hin).
  apply list_elem_of_fmap. exists (k0, v0). split; [reflexivity|].
  exact (elem_of_delete _ _ _ Hin).
Qed.

Lemma NoDup_keys_delete k m :
  NoDup (JSMap.keys m) -> NoDup (JSMap.keys (JSMap.delete k m)).
Proof.
  induction m as [|[k0 v0] m IH]; simpl; [trivial|].
  intros Hnd. apply NoDup_cons in Hnd as [Hk0 Hnd].
  destruct (String.eqb k0 k); [exact Hnd|].
  simpl. apply NoDup_cons. split; [|exact (IH Hnd)].
  intros Hin. apply Hk0. exact (keys_delete_subseteq _ _ _ Hin).
Qed.

Lemma keys_set k v m :
  JSMap.keys (JSMap.set k v m) =
    if JSMap.has k m then JSMap.keys m else JSMap.keys m ++ [k].
Proof.
  unfold JSMap.has. induction m as [|[k0 v0] m IH]; simpl; [reflexivity|].
  destruct (String.eqb_spec k0 k) as [->|Hk]; simpl; [reflexivity|].
  rewrite IH. destruct (JSMap.get k m); reflexivity.
Qed.

Lemma NoDup_keys_set k v m :
  NoDup (JSMap.keys m) -> NoDup (JSMap.keys (JSMap.set k v m)).
Proof.
  intros Hnd. rewrite keys_set. unfold JSMap.has.
  destruct (JSMap.get k m) eqn:Hg; [exact Hnd|].
  apply NoDup_app. split; [exact Hnd|]. split.
  - intros x Hx Hin. apply list_elem_of_singleton in Hin. subst x.
    exact (get_None_keys _ _ Hg Hx).
  - apply NoDup_singleton.
Qed.

End JSMapFacts.

(** ** What the operations do to the table and to the noise gate *)

Lemma stopNote_activeVoices (n : string) (t : option R) (s : Synth.t) :
  Synth.activeVoices (Synth.stopNote n t s) = JSMap.delete n (Synth.activeVoices s).
Proof.
  unfold Synth.stopNote.
  destruct (JSMap.get n (Synth.activeVoices s)) as [v|] eqn:Hg.
  - cbn [Synth.activeVoices Synth.with_activeVoices Synth.with_store].
    destruct (JSMap.size _ =? 0)%nat; reflexivity.
  - symmetry. apply delete_absent, Hg.
Qed.

Lemma stopNote_noiseGate (n : string) (t : option R) (s : Synth.t) :
  Synth.noiseGate (Synth.stopNote n t s) =
    match JSMap.get n (Synth.activeVoices s) with
    | Some _ =>
        if (JSMap.size (JSMap.delete n (Synth.activeVoices s)) =? 0)%nat
        then with_gain (assign_value 0) (Synth.noiseGate s)
        else Synth.noiseGate s
    | None => Synth.noiseGate s
    end.
Proof.
  unfold Synth.stopNote.
  destruct (JSMap.get n (Synth.activeVoices s)) as [v|] eqn:Hg; [|reflexivity].
  cbn [Synth.activeVoices Synth.with_activeVoices Synth.with_store].
  destruct (JSMap.size _ =? 0)%nat; reflexivity.
Qed.

Lemma playNote_eq (n : string) (t : option R) (s : Synth.t) :
  Synth.playNote n t s =
    Synth.start_voice n (default (currentTime (context (Synth.store s))) t)
      (if JSMap.has n (Synth.activeVoices s) then Synth.stopNote n None s else s).
Proof. reflexivity. Qed.

Lemma playNote_activeVoices (n : string) (t : option R) (s : Synth.t) :
  exists v,
    ActiveVoice.note v = n /\
    Synth.activeVoices (Synth.playNote n t s) =
      JSMap.set n v (JSMap.delete n (Synth.activeVoices s)).
Proof.
  rewrite playNote_eq, start_voice_eq. cbn [Synth.activeVoices Synth.with_activeVoices].
  eexists. split; [|f_equal].
  - reflexivity.
  - unfold JSMap.has.
    destruct (JSMap.get n (Synth.activeVoices s)) eqn:Hg.
    + apply stopNote_activeVoices.
    + symmetry. apply delete_absent, Hg.
Qed.

Lemma playNote_noiseGate (n : string) (t : option R) (s : Synth.t) :
  value (gain (Synth.noiseGate (Synth.playNote n t s))) = 1.
Proof. rewrite playNote_eq, start_voice_eq. reflexivity. Qed.

Lemma parameter_op_frame (o : Op) (s : Synth.t) :
  parameter_op o ->
  Synth.activeVoices (step s o) = Synth.activeVoices s /\
  Synth.noiseGate (step s o) = Synth.noiseGate s.
Proof.
  destruct o; simpl; try contradiction; intros _; try (split; reflexivity).
  - unfold Synth.setNoiseLevel. destruct (Rlt_dec 0 v); split; reflexivity.
  - unfold Synth.updateOscillator.
    destruct (Synth.oscillators_get oscKey s); [|split; reflexivity].
    unfold Synth.oscillators_put.
    destruct p; repeat (destruct (String.eqb oscKey _)); split; reflexivity.
Qed.

(** ** The table and the gate stay in order *)

Lemma table_ok_stopNote (n : string) (t : option R) (s : Synth.t) :
  table_ok s -> table_ok (Synth.stopNote n t s).
Proof.
  intros [Hnd Hnote]. unfold table_ok. rewrite stopNote_activeVoices. split.
  - apply NoDup_keys_delete, Hnd.
  - intros k v Hin. apply Hnote. exact (elem_of_delete _ _ _ Hin).
Qed.

Lemma gate_ok_stopNote (n : string) (t : option R) (s : Synth.t) :
  gate_ok s -> gate_ok (Synth.stopNote n t s).
Proof.
  intros [Hempty Hsome]. unfold gate_ok.
  rewrite stopNote_activeVoices, stopNote_noiseGate.
  destruct (JSMap.get n (Synth.activeVoices s)) as [v|] eqn:Hg.
  - assert (Hne : Synth.activeVoices s <> []).
    { intros Heq. rewrite Heq in Hg. discriminate. }
    unfold JSMap.size.
    destruct (JSMap.delete n (Synth.activeVoices s)) as [|x m] eqn:Hd; simpl.
    + split; [reflexivity | congruence].
    + split; [discriminate | intros _; exact (Hsome Hne)].
  - rewrite (delete_absent _ _ Hg). split; assumption.
Qed.

Lemma table_ok_playNote (n : string) (t : option R) (s : Synth.t) :
  table_ok s -> table_ok (Synth.playNote n t s).
Proof.
  intros [Hnd Hnote]. unfold table_ok.
  destruct (playNote_activeVoices n t s) as (v & Hv & ->). split.
  - apply NoDup_keys_set, NoDup_keys_delete, Hnd.
  - intros k v' Hin. apply elem_of_set in Hin as [[= -> ->]|Hin]; [exact Hv|].
    apply Hnote. exact (elem_of_delete _ _ _ Hin).
Qed.

Lemma gate_ok_playNote (n : string) (t : option R) (s : Synth.t) :
  gate_ok (Synth.playNote n t s).
Proof.
  unfold gate_ok. rewrite playNote_noiseGate.
  destruct (playNote_activeVoices n t s) as (v & _ & ->).
  split; [|reflexivity]. intros Hnil. exfalso. exact (set_not_nil _ _ _ Hnil).
Qed.

Lemma stopAll_fold_ok (l : list string) (s : Synth.t) :
  table_ok s /\ gate_ok s ->
  table_ok (foldl (fun s n => Synth.stopNote n None s) s l) /\
  gate_ok (foldl (fun s n => Synth.stopNote n None s) s l).
Proof.
  revert s. induction l as [|n l IH]; intros s [Ht Hg]; simpl; [split; assumption|].
  apply IH. split; [apply table_ok_stopNote, Ht | apply gate_ok_stopNote, Hg].
Qed.

Lemma step_ok (o : Op) (s : Synth.t) :
  table_ok s /\ gate_ok s -> table_ok (step s o) /\ gate_ok (step s o).
Proof.
  intros [Ht Hg].
  destruct o;
    try (match goal with
         | |- context [step s ?o] =>
             destruct (parameter_op_frame o s I) as [Hv Hn]
         end;
         unfold table_ok, gate_ok; rewrite Hv, Hn; split; assumption).
  - split; [apply table_ok_playNote, Ht | apply gate_ok_playNote].
  - split; [apply table_ok_stopNote, Ht | apply gate_ok_stopNote, Hg].
  - apply stopAll_fold_ok. split; assumption.
Qed.

Lemma run_ok (ops : list Op) (s : Synth.t) :
  table_ok s /\ gate_ok s -> table_ok (run ops s) /\ gate_ok (run ops s).
Proof.
  revert s. induction ops as [|o ops IH]; intros s H; simpl; [exact H|].
  apply IH, step_ok, H.
Qed.

Lemma new_ok (volume : option R) (now : R) :
  table_ok (Synth.new volume now) /\ gate_ok (Synth.new volume now).
Proof.
  split; split; simpl.
  - apply NoDup_nil_2.
  - intros k v Hin. inversion Hin.
  - reflexivity.
  - congruence.
Qed.

Lemma reachable_ok (s : Synth.t) : reachable s -> table_ok s /\ gate_ok s.
Proof. intros (volume & now & ops & ->). apply run_ok, new_ok. Qed.

Lemma stopAll_fold_empties (m : JSMap.t ActiveVoice.t) (s : Synth.t) :
  NoDup (JSMap.keys m) -> Synth.activeVoices s = m ->
  Synth.activeVoices (foldl (fun s n => Synth.stopNote n None s) s (JSMap.keys m)) = [].
Proof.
  revert s. induction m as [|[k v] m IH]; intros s Hnd Hm; simpl; [exact Hm|].
  apply NoDup_cons in Hnd as [_ Hnd]. apply IH; [exact Hnd|].
  rewrite stopNote_activeVoices, Hm. simpl. rewrite String.eqb_refl. reflexivity.
Qed.

(** ** C6: the noise gate follows the table *)

(** C6.  After any sequence of operations on a new engine, the gain of the
    noise gate is 1 exactly when the table holds at least one voice, and it
    is 0 when the table is empty.  This is so because of what the operations
    do: a new engine has no voice and its gate is at 0; [playNote] records a
    voice for the note and sets the gate to 1, whatever the state; [stopNote]
    takes the voice of the note out of the table, sets the gate to 0 when the
    table is empty afterwards and leaves the gate as it was, at 1, when a
    voice remains; [stopAll] empties the table and leaves the gate at 0. *)
Theorem noise_gate_open_iff_voices (volume : option R) (now : R) (ops : list Op) :
  let gate (s : Synth.t) := value (gain (Synth.noiseGate s)) in
  let voices (s : Synth.t) := JSMap.size (Synth.activeVoices s) in
  let s := run ops (Synth.new volume now) in
  ((gate s = 1 <-> (1 <= voices s)%nat) /\
   (voices s = 0%nat -> gate s = 0)) /\
  (gate (Synth.new volume now) = 0 /\ voices (Synth.new volume now) = 0%nat) /\
  (forall n t,
     gate (Synth.playNote n t s) = 1 /\
     is_Some (JSMap.get n (Synth.activeVoices (Synth.playNote n t s)))) /\
  (forall n t,
     let s' := Synth.stopNote n t s in
     Synth.activeVoices s' = JSMap.delete n (Synth.activeVoices s) /\
     (voices s' = 0%nat -> gate s' = 0) /\
     ((1 <= voices s')%nat -> gate s' = 1 /\ Synth.noiseGate s' = Synth.noiseGate s)) /\
  (gate (Synth.stopAll s) = 0 /\ voices (Synth.stopAll s) = 0%nat).
Proof.
  intros gate voices s.
  assert (Hinv : forall x, gate_ok x ->
            (gate x = 1 <-> (1 <= voices x)%nat) /\ (voices x = 0%nat -> gate x = 0)).
  { intros x [Hempty Hsome]. subst gate voices. cbv beta. unfold JSMap.size.
    destruct (Synth.activeVoices x) as [|e m] eqn:Hv; simpl.
    - rewrite (Hempty eq_refl). split; [|reflexivity].
      split; [intros H; lra | lia].
    - split; [|discriminate].
      split; [lia | intros _; apply Hsome; discriminate]. }
  destruct (run_ok ops _ (new_ok volume now)) as [Ht Hg]. fold s in Ht, Hg.
  split; [exact (Hinv s Hg)|].
  split; [split; reflexivity|].
  split; [|split].
  - intros n t. split; [apply playNote_noiseGate|].
    destruct (playNote_activeVoices n t s) as (v & _ & ->).
    exists v. apply get_set_eq.
  - intros n t s'.
    pose proof (gate_ok_stopNote n t s Hg) as Hg'. fold s' in Hg'.
    split; [apply stopNote_activeVoices|].
    split; [exact (proj2 (Hinv s' Hg'))|].
    intros Hsome. split; [exact (proj2 (proj1 (Hinv s' Hg')) Hsome)|].
    subst s'. rewrite stopNote_noiseGate.
    revert Hsome. subst voices. cbv beta. rewrite stopNote_activeVoices.
    destruct (JSMap.get n (Synth.activeVoices s)); [|reflexivity].
    destruct (JSMap.size (JSMap.delete n (Synth.activeVoices s))) eqn:Hsz; [lia|].
    reflexivity.
  - assert (Hempty : Synth.activeVoices (Synth.stopAll s) = []).
    { apply stopAll_fold_empties; [exact (proj1 Ht) | reflexivity]. }
    assert (Hg' : gate_ok (Synth.stopAll s)).
    { exact (proj2 (stopAll_fold_ok _ s (conj Ht Hg))). }
    split.
    + apply (proj2 (Hinv _ Hg')). subst voices. cbv beta. rewrite Hempty. reflexivity.
    + subst voices. cbv beta. rewrite Hempty. reflexivity.
Qed.

(** ** Releasing a voice: what happens to its oscillators *)

Lemma stopNote_store (n : string) (t : option R) (s : Synth.t) (v : ActiveVoice.t) :
  JSMap.get n (Synth.activeVoices s) = Some v ->
  Synth.store (Synth.stopNote n t s) =
    Synth.release_voice v (default (currentTime (context (Synth.store s))) t)
      (Synth.store s).
Proof.
  intros Hg. unfold Synth.stopNote. rewrite Hg.
  cbn [Synth.activeVoices Synth.with_activeVoices Synth.with_store].
  destruct (JSMap.size _ =? 0)%nat; reflexivity.
Qed.

Lemma env_triggerRelease_oscillators (e : nat) (t : option R) (h : Store) :
  oscillator_nodes (context (env_triggerRelease e t h)) = oscillator_nodes (context h).
Proof.
  unfold env_triggerRelease. destruct (envelopes h !! e) as [env|]; [|reflexivity].
  unfold Envelope.triggerRelease. destruct (Envelope.param env); [|reflexivity].
  cbn [context]. apply schedule_all_oscillator_nodes.
Qed.

Lemma fade_gain_oscillators (st r : R) (h : Store) (g : nat) :
  oscillator_nodes (context (Synth.fade_gain st r h g)) = oscillator_nodes (context h).
Proof. reflexivity. Qed.

Lemma fold_fade_gain_oscillators (st r : R) (l : list nat) (h : Store) :
  oscillator_nodes (context (foldl (Synth.fade_gain st r) h l)) =
    oscillator_nodes (context h).
Proof.
  revert h. induction l as [|g l IH]; intros h; simpl; [reflexivity|].
  rewrite IH. apply fade_gain_oscillators.
Qed.

Lemma try_stop_started (e : R) (h : Store) (o o' : nat) :
  osc_started h o' -> osc_started (Synth.try_stop e h o) o'.
Proof.
  intros (node & t & Hl & Hs). unfold Synth.try_stop, on_context, osc_stop, osc_started.
  cbn [context].
  destruct (oscillator_nodes (context h) !! o) as [n0|] eqn:Ho; [|exists node, t; auto].
  destruct (start_time n0) as [t0|] eqn:Hs0; [|exists node, t; auto].
  simpl.
  destruct (decide (o = o')) as [->|Hne].
  - exists (set_stop e n0), t0. split; [|exact Hs0].
    apply list_lookup_insert_eq. apply lookup_lt_Some in Ho. exact Ho.
  - exists node, t. split; [|exact Hs].
    rewrite list_lookup_insert_ne by exact Hne. exact Hl.
Qed.

Lemma try_stop_stopped_other (e : R) (h : Store) (o o' : nat) :
  osc_stopped_at h o' e -> osc_stopped_at (Synth.try_stop e h o) o' e.
Proof.
  intros (node & Hl & Hs). unfold Synth.try_stop, on_context, osc_stop, osc_stopped_at.
  cbn [context].
  destruct (oscillator_nodes (context h) !! o) as [n0|] eqn:Ho; [|exists node; auto].
  destruct (start_time n0) as [t0|] eqn:Hs0; [|exists node; auto].
  simpl.
  destruct (decide (o = o')) as [->|Hne].
  - exists (set_stop e n0). split; [|reflexivity].
    apply list_lookup_insert_eq. apply lookup_lt_Some in Ho. exact Ho.
  - exists node. split; [|exact Hs].
    rewrite list_lookup_insert_ne by exact Hne. exact Hl.
Qed.

Lemma try_stop_stops (e : R) (h : Store) (o : nat) :
  osc_started h o -> osc_stopped_at (Synth.try_stop e h o) o e.
Proof.
  intros (node & t & Hl & Hs). unfold Synth.try_stop, on_context, osc_stop, osc_stopped_at.
  cbn [context]. rewrite Hl, Hs. simpl.
  exists (set_stop e node). split; [|reflexivity].
  apply list_lookup_insert_eq. apply lookup_lt_Some in Hl. exact Hl.
Qed.

Lemma fold_try_stop_stopped_other (e : R) (l : list nat) (h : Store) (o : nat) :
  osc_stopped_at h o e -> osc_stopped_at (foldl (Synth.try_stop e) h l) o e.
Proof.
  revert h. induction l as [|o' l IH]; intros h H; simpl; [exact H|].
  apply IH, try_stop_stopped_other, H.
Qed.

Lemma fold_try_stop_stops (e : R) (l : list nat) (h : Store) :
  (forall o, o ∈ l -> osc_started h o) ->
  forall o, o ∈ l -> osc_stopped_at (foldl (Synth.try_stop e) h l) o e.
Proof.
  revert h. induction l as [|o' l IH]; intros h Hst o Hin; [inversion Hin|].
  simpl. apply elem_of_cons in Hin as [->|Hin].
  - apply fold_try_stop_stopped_other, try_stop_stops, Hst, list_elem_of_here.
  - apply IH; [|exact Hin].
    intros o1 H1. apply try_stop_started, Hst, list_elem_of_further, H1.
Qed.

(** Releasing a voice whose oscillators were started schedules a stop for
    each of them, the release time and a tenth of a second after [stopTime]. *)
Lemma release_voice_stops (v : ActiveVoice.t) (stopTime : R) (h : Store) :
  (forall o, o ∈ ActiveVoice.oscillators v -> osc_started h o) ->
  forall o, o ∈ ActiveVoice.oscillators v ->
    osc_stopped_at (Synth.release_voice v stopTime h) o
      (stopTime + ActiveVoice.releaseTime v + 0.1).
Proof.
  intros Hst. unfold Synth.release_voice. apply fold_try_stop_stops.
  intros o Hin. destruct (Hst o Hin) as (node & t & Hl & Hs).
  exists node, t. split; [|exact Hs].
  rewrite fold_fade_gain_oscillators, !env_triggerRelease_oscillators. exact Hl.
Qed.

(** ** The voice that [start_voice] records *)

Lemma start_voice_get (n : string) (st : R) (s : Synth.t) :
  JSMap.get n (Synth.activeVoices (Synth.start_voice n st s)) = Some (new_voice s n).
Proof. rewrite start_voice_eq. apply get_set_eq. Qed.

Lemma start_voice_store (n : string) (st : R) (s : Synth.t) :
  Synth.store (Synth.start_voice n st s) =
    voice_store s (fst (AudioEngine.noteToFrequency n)) st.
Proof. rewrite start_voice_eq. reflexivity. Qed.

Lemma new_voice_sounding (n : string) (st : R) (s : Synth.t) (o : nat) :
  o ∈ ActiveVoice.oscillators (new_voice s n) ->
  osc_sounding (Synth.store (Synth.start_voice n st s)) o /\
  (n_oscillators (Synth.store s) <= o)%nat.
Proof.
  rewrite start_voice_store. intros Hin. cbn [new_voice ActiveVoice.oscillators] in Hin.
  unfold osc_sounding, voice_store, ext. cbn [context oscillator_nodes].
  unfold n_oscillators in *.
  repeat (apply elem_of_cons in Hin as [->|Hin]);
    [ | | | inversion Hin ];
    (split; [|lia]); rewrite lookup_at; eexists _, st;
    (split; [reflexivity|]); split; reflexivity.
Qed.


(** ** C1: one voice per note *)


(** ** Later stores keep what earlier ones had *)

Lemma same_settings_refl (e : Envelope.t) : same_settings e e.
Proof. repeat split. Qed.

Lemma same_settings_trans (e1 e2 e3 : Envelope.t) :
  same_settings e1 e2 -> same_settings e2 e3 -> same_settings e1 e3.
Proof.
  unfold same_settings. intros (?&?&?&?&?&?&?) (?&?&?&?&?&?&?).
  repeat split; congruence.
Qed.

Lemma store_kept_refl (h : Store) : store_kept h h.
Proof.
  repeat split; try lia; auto.
  intros i e He. exists e. split; [exact He | apply same_settings_refl].
Qed.

Lemma store_kept_trans (h1 h2 h3 : Store) :
  store_kept h1 h2 -> store_kept h2 h3 -> store_kept h1 h3.
Proof.
  intros (He1 & Hg1 & Hf1 & Ho1) (He2 & Hg2 & Hf2 & Ho2).
  repeat split; try lia; auto.
  intros i e H. destruct (He1 i e H) as (e' & H' & Hs').
  destruct (He2 i e' H') as (e'' & H'' & Hs'').
  exists e''. split; [exact H'' | exact (same_settings_trans _ _ _ Hs' Hs'')].
Qed.

Lemma param_modify_n_gains (f : AudioParam -> AudioParam) (r : AudioParamRef)
    (ctx : AudioContext) :
  length (gain_nodes (param_modify f r ctx)) = length (gain_nodes ctx).
Proof. destruct r; simpl; [apply length_alter | reflexivity]. Qed.

Lemma param_modify_n_filters (f : AudioParam -> AudioParam) (r : AudioParamRef)
    (ctx : AudioContext) :
  length (filter_nodes (param_modify f r ctx)) = length (filter_nodes ctx).
Proof. destruct r; simpl; [reflexivity | apply length_alter]. Qed.

(** A change of the context that keeps the node counts and the oscillators. *)
Lemma store_kept_on_context (f : AudioContext -> AudioContext) (h : Store) :
  length (gain_nodes (f (context h))) = length (gain_nodes (context h)) ->
  length (filter_nodes (f (context h))) = length (filter_nodes (context h)) ->
  oscillator_nodes (f (context h)) = oscillator_nodes (context h) ->
  store_kept h (on_context f h).
Proof.
  intros Hg Hf Ho. unfold store_kept, n_gains, n_filters, osc_started, on_context.
  cbn [context envelopes]. rewrite Hg, Hf, Ho.
  repeat split; try lia; auto.
  intros i e He. exists e. split; [exact He | apply same_settings_refl].
Qed.

Lemma store_kept_param_modify (f : AudioParam -> AudioParam) (r : AudioParamRef)
    (h : Store) :
  store_kept h (on_context (param_modify f r) h).
Proof.
  apply store_kept_on_context.
  - apply param_modify_n_gains.
  - apply param_modify_n_filters.
  - apply oscillator_nodes_modify.
Qed.

Lemma store_kept_env_triggerRelease (e : nat) (t : option R) (h : Store) :
  store_kept h (env_triggerRelease e t h).
Proof.
  unfold env_triggerRelease.
  destruct (envelopes h !! e) as [env|] eqn:He; [|apply store_kept_refl].
  unfold Envelope.triggerRelease.
  destruct (Envelope.param env) as [p|] eqn:Hp.
  - rewrite schedule_all_modify.
    unfold store_kept, n_gains, n_filters, osc_started. cbn [context envelopes].
    rewrite param_modify_n_gains, param_modify_n_filters, oscillator_nodes_modify.
    repeat split; try lia; auto.
    intros i e0 Hi. destruct (decide (e = i)) as [->|Hne].
    + rewrite list_lookup_insert_eq by (apply lookup_lt_Some in Hi; exact Hi).
      eexists. split; [reflexivity|].
      assert (e0 = env) as -> by congruence.
      repeat split. simpl. congruence.
    + rewrite list_lookup_insert_ne by exact Hne.
      exists e0. split; [exact Hi | apply same_settings_refl].
  - replace {| context := context h; envelopes := <[e:=env]> (envelopes h) |} with h.
    + apply store_kept_refl.
    + destruct h as [c es]. cbn [context envelopes] in *. f_equal.
      symmetry. apply list_insert_id, He.
Qed.

Lemma store_kept_fade_gain (st r : R) (h : Store) (g : nat) :
  store_kept h (Synth.fade_gain st r h g).
Proof.
  unfold Synth.fade_gain.
  apply store_kept_on_context.
  - rewrite !param_modify_n_gains. reflexivity.
  - rewrite !param_modify_n_filters. reflexivity.
  - rewrite !oscillator_nodes_modify. reflexivity.
Qed.

Lemma store_kept_try_stop (e : R) (h : Store) (o : nat) :
  store_kept h (Synth.try_stop e h o).
Proof.
  split; [|split; [|split]].
  - intros i env Hi. exists env. split; [exact Hi | apply same_settings_refl].
  - unfold Synth.try_stop, on_context, osc_stop, n_gains. cbn [context].
    destruct (oscillator_nodes (context h) !! o) as [n0|]; [|simpl; lia].
    destruct (start_time n0); simpl; lia.
  - unfold Synth.try_stop, on_context, osc_stop, n_filters. cbn [context].
    destruct (oscillator_nodes (context h) !! o) as [n0|]; [|simpl; lia].
    destruct (start_time n0); simpl; lia.
  - intros o'. apply try_stop_started.
Qed.

Lemma store_kept_foldl {A : Type} (f : Store -> A -> Store) (l : list A) (h : Store) :
  (forall h a, store_kept h (f h a)) -> store_kept h (foldl f h l).
Proof.
  intros Hf. revert h. induction l as [|a l IH]; intros h; simpl.
  - apply store_kept_refl.
  - exact (store_kept_trans _ _ _ (Hf h a) (IH (f h a))).
Qed.

Lemma store_kept_release_voice (v : ActiveVoice.t) (stopTime : R) (h : Store) :
  store_kept h (Synth.release_voice v stopTime h).
Proof.
  unfold Synth.release_voice.
  set (h1 := env_triggerRelease (ActiveVoice.volumeEnvelope v) (Some stopTime) h).
  set (h2 := env_triggerRelease (ActiveVoice.filterEnvelope v) (Some stopTime) h1).
  set (h3 := foldl (Synth.fade_gain stopTime (ActiveVoice.releaseTime v)) h2
               (ActiveVoice.gainNodes v)).
  apply (store_kept_trans _ h1); [apply store_kept_env_triggerRelease|].
  apply (store_kept_trans _ h2); [apply store_kept_env_triggerRelease|].
  apply (store_kept_trans _ h3).
  - apply store_kept_foldl. intros; apply store_kept_fade_gain.
  - apply store_kept_foldl. intros; apply store_kept_try_stop.
Qed.

Lemma store_kept_stopNote (n : string) (t : option R) (s : Synth.t) :
  store_kept (Synth.store s) (Synth.store (Synth.stopNote n t s)).
Proof.
  destruct (JSMap.get n (Synth.activeVoices s)) as [v|] eqn:Hg.
  - rewrite (stopNote_store n t s v Hg). apply store_kept_release_voice.
  - unfold Synth.stopNote. rewrite Hg. apply store_kept_refl.
Qed.

Lemma store_kept_ext (b : Store) (G : list GainNode) (F : list BiquadFilterNode)
    (O : list OscillatorNode) (E : list Envelope.t) :
  store_kept b (ext b G F O E).
Proof.
  unfold store_kept, ext, n_gains, n_filters, osc_started. cbn [context envelopes
    gain_nodes filter_nodes oscillator_nodes].
  rewrite !length_app. repeat split; try lia.
  - intros i e He. exists e. split; [apply lookup_app_l_Some, He | apply same_settings_refl].
  - intros o (node & t & Hl & Hs). exists node, t.
    split; [apply lookup_app_l_Some, Hl | exact Hs].
Qed.

Lemma store_kept_start_voice (n : string) (st : R) (s : Synth.t) :
  store_kept (Synth.store s) (Synth.store (Synth.start_voice n st s)).
Proof. rewrite start_voice_store. apply store_kept_ext. Qed.

Lemma store_kept_playNote (n : string) (t : option R) (s : Synth.t) :
  store_kept (Synth.store s) (Synth.store (Synth.playNote n t s)).
Proof.
  rewrite playNote_eq.
  eapply store_kept_trans; [|apply store_kept_start_voice].
  destruct (JSMap.has n (Synth.activeVoices s));
    [apply store_kept_stopNote | apply store_kept_refl].
Qed.

Lemma store_kept_stopAll_fold (l : list string) (s : Synth.t) :
  store_kept (Synth.store s)
    (Synth.store (foldl (fun s n => Synth.stopNote n None s) s l)).
Proof.
  revert s. induction l as [|n l IH]; intros s; simpl; [apply store_kept_refl|].
  exact (store_kept_trans _ _ _ (store_kept_stopNote n None s) (IH _)).
Qed.

Lemma store_kept_osc_set_detune (o : nat) (v : R) (h : Store) :
  store_kept h (on_context (osc_set_detune o v) h).
Proof.
  split; [|split; [|split]].
  - intros i env Hi. exists env. split; [exact Hi | apply same_settings_refl].
  - unfold n_gains. simpl. lia.
  - unfold n_filters. simpl. lia.
  - intros o' (node & t & Hl & Hs). unfold osc_started. cbn [on_context context
      osc_set_detune oscillator_nodes].
    destruct (decide (o = o')) as [->|Hne].
    + exists (set_detune v node), t. rewrite list_lookup_alter_eq, Hl.
      split; [reflexivity | exact Hs].
    + exists node, t. rewrite list_lookup_alter_ne by exact Hne. split; assumption.
Qed.

Lemma store_kept_updateOscillator (k : string) (p : Synth.OscillatorParam) (s : Synth.t) :
  store_kept (Synth.store s) (Synth.store (Synth.updateOscillator k p s)).
Proof.
  unfold Synth.updateOscillator.
  destruct (Synth.oscillators_get k s); [|apply store_kept_refl].
  assert (Hput : forall o, Synth.store (Synth.oscillators_put k o s) = Synth.store s).
  { intros o. unfold Synth.oscillators_put.
    repeat (destruct (String.eqb k _)); reflexivity. }
  destruct p; rewrite ?Hput; try apply store_kept_refl.
  cbn [Synth.store Synth.with_store].
  apply store_kept_foldl. intros h voice.
  destruct (ActiveVoice.oscillators voice !! _);
    [apply store_kept_osc_set_detune | apply store_kept_refl].
Qed.

Lemma store_kept_step (o : Op) (s : Synth.t) :
  store_kept (Synth.store s) (Synth.store (step s o)).
Proof.
  destruct o; cbn [step].
  - apply store_kept_playNote.
  - apply store_kept_stopNote.
  - apply store_kept_stopAll_fold.
  - apply store_kept_refl.
  - unfold Synth.setNoiseLevel. destruct (Rlt_dec 0 v); apply store_kept_refl.
  - apply store_kept_refl.
  - apply store_kept_refl.
  - apply store_kept_refl.
  - apply store_kept_updateOscillator.
  - destruct f; apply store_kept_refl.
  - destruct f; apply store_kept_refl.
  - apply store_kept_on_context; reflexivity.
  - apply store_kept_param_modify.
Qed.

Lemma store_kept_run (ops : list Op) (s : Synth.t) :
  store_kept (Synth.store s) (Synth.store (run ops s)).
Proof.
  revert s. induction ops as [|o ops IH]; intros s; simpl; [apply store_kept_refl|].
  exact (store_kept_trans _ _ _ (store_kept_step o s) (IH _)).
Qed.

(** ** The settings are touched by the panels only *)

Lemma stopNote_settings (n : string) (t : option R) (s : Synth.t) :
  Synth.volumeEnvelopeSettings (Synth.stopNote n t s) = Synth.volumeEnvelopeSettings s /\
  Synth.filterEnvelopeSettings (Synth.stopNote n t s) = Synth.filterEnvelopeSettings s.
Proof.
  unfold Synth.stopNote.
  destruct (JSMap.get n (Synth.activeVoices s)); [|split; reflexivity].
  cbn [Synth.activeVoices Synth.with_activeVoices Synth.with_store].
  destruct (JSMap.size _ =? 0)%nat; split; reflexivity.
Qed.

Lemma stopped_first_settings (n : string) (s : Synth.t) :
  let s0 := if JSMap.has n (Synth.activeVoices s) then Synth.stopNote n None s else s in
  Synth.volumeEnvelopeSettings s0 = Synth.volumeEnvelopeSettings s /\
  Synth.filterEnvelopeSettings s0 = Synth.filterEnvelopeSettings s.
Proof.
  simpl. destruct (JSMap.has n (Synth.activeVoices s));
    [apply stopNote_settings | split; reflexivity].
Qed.

Lemma playNote_settings (n : string) (t : option R) (s : Synth.t) :
  Synth.volumeEnvelopeSettings (Synth.playNote n t s) = Synth.volumeEnvelopeSettings s /\
  Synth.filterEnvelopeSettings (Synth.playNote n t s) = Synth.filterEnvelopeSettings s.
Proof.
  rewrite playNote_eq, start_voice_eq.
  cbn [Synth.volumeEnvelopeSettings Synth.filterEnvelopeSettings Synth.with_activeVoices
       Synth.with_noiseGate Synth.with_noiseFilter Synth.with_store Synth.with_console].
  apply stopped_first_settings.
Qed.

Lemma stopAll_fold_settings (l : list string) (s : Synth.t) :
  Synth.volumeEnvelopeSettings (foldl (fun s n => Synth.stopNote n None s) s l) =
    Synth.volumeEnvelopeSettings s /\
  Synth.filterEnvelopeSettings (foldl (fun s n => Synth.stopNote n None s) s l) =
    Synth.filterEnvelopeSettings s.
Proof.
  revert s. induction l as [|n l IH]; intros s; simpl; [split; reflexivity|].
  destruct (IH (Synth.stopNote n None s)) as [-> ->]. apply stopNote_settings.
Qed.

Lemma filter_settings_ok_step (o : Op) (s : Synth.t) :
  filter_settings_ok s -> filter_settings_ok (step s o).
Proof.
  unfold filter_settings_ok. intros [Hm Hs].
  destruct o; cbn [step].
  - rewrite (proj2 (playNote_settings _ _ _)). auto.
  - rewrite (proj2 (stopNote_settings _ _ _)). auto.
  - unfold Synth.stopAll. rewrite (proj2 (stopAll_fold_settings _ _)). auto.
  - auto.
  - unfold Synth.setNoiseLevel. destruct (Rlt_dec 0 v); auto.
  - auto.
  - auto.
  - simpl. auto.
  - unfold Synth.updateOscillator.
    destruct (Synth.oscillators_get oscKey s); [|auto].
    unfold Synth.oscillators_put.
    destruct p; repeat (destruct (String.eqb oscKey _)); auto.
  - destruct f; auto.
  - destruct f; simpl; auto.
  - auto.
  - auto.
Qed.

Lemma filter_settings_ok_run (ops : list Op) (s : Synth.t) :
  filter_settings_ok s -> filter_settings_ok (run ops s).
Proof.
  revert s. induction ops as [|o ops IH]; intros s H; simpl; [exact H|].
  apply IH, filter_settings_ok_step, H.
Qed.

Lemma filter_settings_ok_new (volume : option R) (now : R) :
  filter_settings_ok (Synth.new volume now).
Proof. split; simpl; eauto. Qed.

(** Stopping a note creates no envelope. *)
Lemma env_triggerRelease_n_envelopes (e : nat) (t : option R) (h : Store) :
  n_envelopes (env_triggerRelease e t h) = n_envelopes h.
Proof.
  unfold env_triggerRelease, n_envelopes.
  destruct (envelopes h !! e) as [env|]; [|reflexivity].
  destruct (Envelope.triggerRelease t env (context h)) as [env' ctx].
  cbn [envelopes]. apply length_insert.
Qed.

Lemma release_voice_n_envelopes (v : ActiveVoice.t) (stopTime : R) (h : Store) :
  n_envelopes (Synth.release_voice v stopTime h) = n_envelopes h.
Proof.
  unfold Synth.release_voice.
  assert (Hfold : forall {A} (f : Store -> A -> Store) (l : list A) h0,
            (forall h a, n_envelopes (f h a) = n_envelopes h) ->
            n_envelopes (foldl f h0 l) = n_envelopes h0).
  { intros A f l. induction l as [|a l IH]; intros h0 Hf; simpl; [reflexivity|].
    rewrite IH by exact Hf. apply Hf. }
  rewrite Hfold by reflexivity. rewrite Hfold by reflexivity.
  rewrite !env_triggerRelease_n_envelopes. reflexivity.
Qed.

Lemma stopped_first_n_envelopes (n : string) (s : Synth.t) :
  n_envelopes
    (Synth.store
       (if JSMap.has n (Synth.activeVoices s) then Synth.stopNote n None s else s)) =
  n_envelopes (Synth.store s).
Proof.
  unfold JSMap.has.
  destruct (JSMap.get n (Synth.activeVoices s)) as [v|] eqn:Hg; [|reflexivity].
  rewrite (stopNote_store n None s v Hg). apply release_voice_n_envelopes.
Qed.

(** ** C4: the filter envelopes of a new voice *)

(** C4.  In every state reached from a new engine, [playNote] creates, for
    each of the three filters of the new voice, one envelope connected to
    that filter's frequency whose max level is
    startLevel + (cutoffFrequency − startLevel) × contour, computed from the
    filter settings at that moment; no other envelope created by the call
    is connected to a filter.  Whatever is done afterwards, a change of
    cutoffFrequency included, these envelopes keep their max level and
    their target. *)
Theorem filter_envelopes_prescaled (volume : option R) (now : R) (ops : list Op)
    (n : string) (t : option R) (later : list Op) :
  let s := run ops (Synth.new volume now) in
  let fs := Synth.filterEnvelopeSettings s in
  let s1 := Synth.playNote n t s in
  let ne := n_envelopes (Synth.store s) in
  exists startLevel v,
    FilterEnvelopeSettings.startLevel fs = Some startLevel /\
    JSMap.get n (Synth.activeVoices s1) = Some v /\
    length (ActiveVoice.filters v) = 3%nat /\
    ActiveVoice.filterEnvelope v = (ne + 1)%nat /\
    let scaledMax :=
      startLevel + (FilterEnvelopeSettings.cutoffFrequency fs - startLevel)
                   * FilterEnvelopeSettings.contour fs in
    (forall k f, ActiveVoice.filters v !! k = Some f ->
       exists e,
         envelopes (Synth.store s1) !! (ne + (2 * k + 1))%nat = Some e /\
         Envelope.param e = Some (frequency_of f) /\
         Envelope.maxLevel e = scaledMax) /\
    (forall i e f,
       envelopes (Synth.store s1) !! i = Some e -> (ne <= i)%nat ->
       Envelope.param e = Some (frequency_of f) ->
       Envelope.maxLevel e = scaledMax /\ f ∈ ActiveVoice.filters v) /\
    (forall i e,
       envelopes (Synth.store s1) !! i = Some e ->
       exists e',
         envelopes (Synth.store (run later s1)) !! i = Some e' /\
         Envelope.maxLevel e' = Envelope.maxLevel e /\
         Envelope.param e' = Envelope.param e).
Proof.
  intros s fs s1 ne.
  destruct (filter_settings_ok_run ops _ (filter_settings_ok_new volume now))
    as [Hmax [sl Hsl]].
  fold s in Hmax, Hsl. fold fs in Hmax, Hsl.
  set (s0 := if JSMap.has n (Synth.activeVoices s) then Synth.stopNote n None s else s).
  set (st := default (currentTime (context (Synth.store s))) t).
  assert (Hs1 : s1 = Synth.start_voice n st s0) by reflexivity.
  assert (Hfs0 : Synth.filterEnvelopeSettings s0 = fs)
    by exact (proj2 (stopped_first_settings n s)).
  assert (Hne : n_envelopes (Synth.store s0) = ne)
    by exact (stopped_first_n_envelopes n s).
  assert (Hscaled : forall k,
            Envelope.maxLevel (voice_filter_envelope s0 k) =
              sl + (FilterEnvelopeSettings.cutoffFrequency fs - sl)
                   * FilterEnvelopeSettings.contour fs).
  { intros k. unfold voice_filter_envelope, Synth.filter_envelope_options.
    rewrite Hfs0, Hmax, Hsl. reflexivity. }
  assert (Henv : envelopes (Synth.store s1) =
            envelopes (Synth.store s0) ++
              [voice_volume_envelope s0 0; voice_filter_envelope s0 0;
               voice_volume_envelope s0 1; voice_filter_envelope s0 1;
               voice_volume_envelope s0 2; voice_filter_envelope s0 2]).
  { rewrite Hs1, start_voice_store. reflexivity. }
  exists sl, (new_voice s0 n).
  split; [exact Hsl|].
  split; [rewrite Hs1; apply start_voice_get|].
  split; [reflexivity|].
  split; [cbn [new_voice ActiveVoice.filterEnvelope]; rewrite Hne; reflexivity|].
  cbn zeta. split; [|split].
  - intros k f Hk. cbn [new_voice ActiveVoice.filters] in Hk.
    rewrite Henv. rewrite <- Hne. unfold n_envelopes. rewrite lookup_at.
    destruct k as [|[|[|k]]]; cbn in Hk; try discriminate;
      injection Hk as <-; eexists; (split; [reflexivity|]);
      (split; [reflexivity | apply Hscaled]).
  - intros i e f Hi Hge Hp. rewrite Henv in Hi.
    rewrite <- Hne in Hge. unfold n_envelopes in Hge.
    rewrite lookup_app_r in Hi by exact Hge.
    destruct (i - length (envelopes (Synth.store s0)))%nat as [|[|[|[|[|[|j]]]]]];
      cbn in Hi; try discriminate; injection Hi as <-;
      cbn in Hp; try discriminate; injection Hp as <-;
      (split; [apply Hscaled|]); cbn [new_voice ActiveVoice.filters].
    + apply list_elem_of_here.
    + apply list_elem_of_further, list_elem_of_here.
    + apply list_elem_of_further, list_elem_of_further, list_elem_of_here.
  - intros i e Hi.
    destruct (store_kept_run later s1) as [Hkept _].
    destruct (Hkept i e Hi) as (e' & Hi' & Hsame).
    exists e'. split; [exact Hi'|].
    destruct Hsame as (_ & _ & _ & _ & _ & Hm & Hp). split; assumption.
Qed.

(** ** Releasing a voice: what happens to its parameters *)

Lemma param_get_lt (ctx : AudioContext) (r : AudioParamRef) :
  match r with
  | gain_of g => (g < length (gain_nodes ctx))%nat
  | frequency_of f => (f < length (filter_nodes ctx))%nat
  end ->
  exists p, param_get ctx r = Some p.
Proof.
  destruct r as [g|f]; simpl; intros Hlt;
    apply lookup_lt_is_Some_2 in Hlt as [x Hx]; rewrite Hx; eauto.
Qed.

Lemma env_triggerRelease_param (e : nat) (t : R) (h : Store) (env : Envelope.t)
    (r : AudioParamRef) (p : AudioParam) :
  envelopes h !! e = Some env ->
  Envelope.param env = Some r ->
  param_get (context h) r = Some p ->
  let now := Rmax t (currentTime (context h)) in
  param_get (context (env_triggerRelease e (Some t) h)) r =
    Some (append_calls
            (envelope_release now (value p) (Envelope.startLevel env) (Envelope.release env))
            p) /\
  (forall q, q <> r ->
     param_get (context (env_triggerRelease e (Some t) h)) q = param_get (context h) q) /\
  currentTime (context (env_triggerRelease e (Some t) h)) = currentTime (context h) /\
  (forall i, i <> e ->
     envelopes (env_triggerRelease e (Some t) h) !! i = envelopes h !! i).
Proof.
  intros He Hp Hget now. unfold env_triggerRelease. rewrite He.
  unfold Envelope.triggerRelease. rewrite Hp. cbn [context envelopes].
  rewrite Hget. cbn [fmap option_fmap option_map default].
  split; [|split; [|split]].
  - rewrite (schedule_all_get _ _ _ _ Hget). reflexivity.
  - intros q Hq. apply schedule_all_get_ne. congruence.
  - apply schedule_all_currentTime.
  - intros i Hi. apply list_lookup_insert_ne. congruence.
Qed.

Lemma fade_gain_param (st r : R) (h : Store) (g : nat) (p : AudioParam) :
  param_get (context h) (gain_of g) = Some p ->
  param_get (context (Synth.fade_gain st r h g)) (gain_of g) =
    Some (append_calls (gain_fade st (value p) r) p) /\
  (forall q, q <> gain_of g ->
     param_get (context (Synth.fade_gain st r h g)) q = param_get (context h) q).
Proof.
  intros Hget. unfold Synth.fade_gain. rewrite Hget.
  cbn [fmap option_fmap option_map default on_context context].
  split.
  - rewrite !param_get_modify, Hget. simpl.
    unfold schedule, append_calls, gain_fade; simpl.
    rewrite <- !app_assoc. reflexivity.
  - intros q Hq. rewrite !param_get_modify_ne by congruence. reflexivity.
Qed.

Lemma try_stop_param (e : R) (h : Store) (o : nat) (q : AudioParamRef) :
  param_get (context (Synth.try_stop e h o)) q = param_get (context h) q.
Proof.
  unfold Synth.try_stop, on_context, osc_stop. cbn [context].
  destruct (oscillator_nodes (context h) !! o) as [n0|]; [|reflexivity].
  destruct (start_time n0); destruct q; reflexivity.
Qed.

Lemma fold_try_stop_param (e : R) (l : list nat) (h : Store) (q : AudioParamRef) :
  param_get (context (foldl (Synth.try_stop e) h l)) q = param_get (context h) q.
Proof.
  revert h. induction l as [|o l IH]; intros h; simpl; [reflexivity|].
  rewrite IH. apply try_stop_param.
Qed.

(** The whole release of a voice, parameter by parameter. *)
Lemma release_voice_params (v : ActiveVoice.t) (ev0 ef0 : Envelope.t)
    (g0 g1 g2 f0 : nat) (stopTime : R) (h : Store) :
  voice_refs_ok v ev0 ef0 g0 g1 g2 f0 h ->
  let now := Rmax stopTime (currentTime (context h)) in
  let r := ActiveVoice.releaseTime v in
  let h' := Synth.release_voice v stopTime h in
  exists p0 p1 p2 q0,
    param_get (context h) (gain_of g0) = Some p0 /\
    param_get (context h) (gain_of g1) = Some p1 /\
    param_get (context h) (gain_of g2) = Some p2 /\
    param_get (context h) (frequency_of f0) = Some q0 /\
    param_get (context h') (gain_of g0) =
      Some (append_calls
              (envelope_release now (value p0) (Envelope.startLevel ev0)
                 (Envelope.release ev0)
               ++ gain_fade stopTime (value p0) r) p0) /\
    param_get (context h') (gain_of g1) =
      Some (append_calls (gain_fade stopTime (value p1) r) p1) /\
    param_get (context h') (gain_of g2) =
      Some (append_calls (gain_fade stopTime (value p2) r) p2) /\
    param_get (context h') (frequency_of f0) =
      Some (append_calls
              (envelope_release now (value q0) (Envelope.startLevel ef0)
                 (Envelope.release ef0)) q0).
Proof.
  intros (Hgl & H01 & H02 & H12 & Hl0 & Hl1 & Hl2 & Hlf & Hvf & Hpv & Hpf
          & (ev & Hev & Hsv) & (ef & Hef & Hsf) & _) now r h'.
  destruct (param_get_lt (context h) (gain_of g0) Hl0) as [p0 Hp0].
  destruct (param_get_lt (context h) (gain_of g1) Hl1) as [p1 Hp1].
  destruct (param_get_lt (context h) (gain_of g2) Hl2) as [p2 Hp2].
  destruct (param_get_lt (context h) (frequency_of f0) Hlf) as [q0 Hq0].
  exists p0, p1, p2, q0. repeat (split; [assumption|]).
  destruct Hsv as (_ & _ & _ & Hrv & Hslv & _ & Hparv).
  destruct Hsf as (_ & _ & _ & Hrf & Hslf & _ & Hparf).
  rewrite Hpv in Hparv. rewrite Hpf in Hparf.
  (* the volume envelope *)
  set (hA := env_triggerRelease (ActiveVoice.volumeEnvelope v) (Some stopTime) h).
  destruct (env_triggerRelease_param _ stopTime h ev _ p0 Hev Hparv Hp0)
    as (HA0 & HAq & HAt & HAe).
  fold hA in HA0, HAq, HAt, HAe. rewrite Hrv, Hslv in HA0. fold now in HA0.
  (* the filter envelope *)
  set (hB := env_triggerRelease (ActiveVoice.filterEnvelope v) (Some stopTime) hA).
  assert (HefA : envelopes hA !! ActiveVoice.filterEnvelope v = Some ef).
  { rewrite HAe by congruence. exact Hef. }
  assert (Hq0A : param_get (context hA) (frequency_of f0) = Some q0).
  { rewrite HAq by discriminate. exact Hq0. }
  destruct (env_triggerRelease_param _ stopTime hA ef _ q0 HefA Hparf Hq0A)
    as (HB0 & HBq & _ & _).
  fold hB in HB0, HBq. rewrite Hrf, Hslf, HAt in HB0. fold now in HB0.
  (* the fades *)
  set (h0 := Synth.fade_gain stopTime r hB g0).
  set (h1 := Synth.fade_gain stopTime r h0 g1).
  set (h2 := Synth.fade_gain stopTime r h1 g2).
  assert (Hh' : forall q, param_get (context h') q = param_get (context h2) q).
  { intros q. unfold h', Synth.release_voice. rewrite fold_try_stop_param.
    rewrite Hgl. reflexivity. }
  assert (HB_g0 : param_get (context hB) (gain_of g0) =
            Some (append_calls
                    (envelope_release now (value p0) (Envelope.startLevel ev0)
                       (Envelope.release ev0)) p0)).
  { rewrite HBq by discriminate. exact HA0. }
  assert (HB_g1 : param_get (context hB) (gain_of g1) = Some p1).
  { rewrite HBq by discriminate. rewrite HAq by congruence. exact Hp1. }
  assert (HB_g2 : param_get (context hB) (gain_of g2) = Some p2).
  { rewrite HBq by discriminate. rewrite HAq by congruence. exact Hp2. }
  destruct (fade_gain_param stopTime r hB g0 _ HB_g0) as [H0 H0q]. fold h0 in H0, H0q.
  assert (H0_g1 : param_get (context h0) (gain_of g1) = Some p1).
  { rewrite H0q by congruence. exact HB_g1. }
  destruct (fade_gain_param stopTime r h0 g1 _ H0_g1) as [H1 H1q]. fold h1 in H1, H1q.
  assert (H1_g2 : param_get (context h1) (gain_of g2) = Some p2).
  { rewrite H1q by congruence. rewrite H0q by congruence. exact HB_g2. }
  destruct (fade_gain_param stopTime r h1 g2 _ H1_g2) as [H2 H2q]. fold h2 in H2, H2q.
  rewrite !Hh'. split; [|split; [|split]].
  - rewrite H2q by congruence. rewrite H1q by congruence. rewrite H0.
    unfold append_calls; simpl. rewrite <- app_assoc. reflexivity.
  - rewrite H2q by congruence. exact H1.
  - exact H2.
  - rewrite H2q, H1q, H0q by discriminate. exact HB0.
Qed.

(** ** A sounding voice keeps what its release needs *)

Lemma voice_refs_ok_kept (v : ActiveVoice.t) (ev0 ef0 : Envelope.t)
    (g0 g1 g2 f0 : nat) (h h' : Store) :
  store_kept h h' ->
  voice_refs_ok v ev0 ef0 g0 g1 g2 f0 h ->
  voice_refs_ok v ev0 ef0 g0 g1 g2 f0 h'.
Proof.
  intros (Hke & Hkg & Hkf & Hko)
         (Hgl & H01 & H02 & H12 & Hl0 & Hl1 & Hl2 & Hlf & Hvf & Hpv & Hpf
          & (ev & Hev & Hsv) & (ef & Hef & Hsf) & Hosc).
  unfold voice_refs_ok.
  repeat (split; [first [assumption | lia]|]).
  split; [|split].
  - destruct (Hke _ _ Hev) as (ev' & Hev' & Hs').
    exists ev'. split; [exact Hev' | exact (same_settings_trans _ _ _ Hsv Hs')].
  - destruct (Hke _ _ Hef) as (ef' & Hef' & Hs').
    exists ef'. split; [exact Hef' | exact (same_settings_trans _ _ _ Hsf Hs')].
  - intros o Ho. apply Hko, Hosc, Ho.
Qed.

Lemma new_voice_refs_ok (n : string) (st : R) (s : Synth.t) :
  voice_refs_ok (new_voice s n)
    (voice_volume_envelope s 0) (voice_filter_envelope s 0)
    (n_gains (Synth.store s) + 0) (n_gains (Synth.store s) + 1)
    (n_gains (Synth.store s) + 2) (n_filters (Synth.store s) + 0)
    (Synth.store (Synth.start_voice n st s)).
Proof.
  unfold voice_refs_ok.
  split; [reflexivity|].
  repeat (split; [lia|]).
  rewrite start_voice_store.
  unfold voice_store, ext, n_gains, n_filters. cbn [context gain_nodes filter_nodes envelopes].
  rewrite !length_app. cbn [length].
  repeat (split; [lia|]).
  split; [cbn [new_voice ActiveVoice.volumeEnvelope ActiveVoice.filterEnvelope]; lia|].
  split; [reflexivity|]. split; [reflexivity|].
  cbn [new_voice ActiveVoice.volumeEnvelope ActiveVoice.filterEnvelope ActiveVoice.oscillators].
  unfold n_envelopes. rewrite !lookup_at.
  split; [|split].
  - eexists. split; [reflexivity | apply same_settings_refl].
  - eexists. split; [reflexivity | apply same_settings_refl].
  - intros o Ho.
    destruct (new_voice_sounding n st s o Ho) as [(node & t & Hl & Hs & _) _].
    rewrite start_voice_store in Hl. exists node, t. split; assumption.
Qed.

Lemma step_leaves_get (n : string) (o : Op) (s : Synth.t) :
  op_leaves_note n o ->
  JSMap.get n (Synth.activeVoices (step s o)) = JSMap.get n (Synth.activeVoices s).
Proof.
  destruct o; cbn [op_leaves_note]; intros Hleave; try contradiction;
    try (match goal with
         | |- context [step s ?o] =>
             rewrite (proj1 (parameter_op_frame o s I)); reflexivity
         end); cbn [step].
  - destruct (playNote_activeVoices note startTime s) as (v & _ & ->).
    rewrite get_set_ne by exact Hleave. apply get_delete_ne, Hleave.
  - rewrite stopNote_activeVoices. apply get_delete_ne, Hleave.
Qed.

Lemma run_leaves_get (n : string) (ops : list Op) (s : Synth.t) :
  Forall (op_leaves_note n) ops ->
  JSMap.get n (Synth.activeVoices (run ops s)) = JSMap.get n (Synth.activeVoices s).
Proof.
  intros H. revert s. induction H as [|o ops Ho _ IH]; intros s; simpl; [reflexivity|].
  rewrite IH. apply step_leaves_get, Ho.
Qed.

(** ** C3: the release of a sounding voice *)

Ltac evaluate :=
  lazy -[Math_max Math_min Math_pow2 Rplus Rminus Rmult Rdiv Ropp Rinv IZR Rmax Rmin].

Ltac solve_max :=
  unfold Math_max, Rmax; repeat (destruct (Rle_dec _ _)); lra.

(** C3 as stated fails: with the volume release set to 0 when the note is
    played (the filter release being 1), [stopNote] at time 0 makes the
    volume envelope ramp down until 0.001, a release of 1 ms and not of 0 s,
    and the filter envelope until 1; only the linear fade of the gain node
    ends at 0, as the volume release says. *)
Lemma stopNote_zero_release_lasts_1ms :
  let s := run [set_volumeEnvelope volume_release 0] (Synth.new None 0) in
  let s1 := Synth.playNote "A4" None s in
  let s3 := Synth.stopNote "A4" None s1 in
  EnvelopeOptions.release (Synth.volumeEnvelopeSettings s) = 0 /\
  FilterEnvelopeSettings.release (Synth.filterEnvelopeSettings s) = 1 /\
  (exists p1 p3,
     param_get (context (Synth.store s1)) (gain_of 0) = Some p1 /\
     param_get (context (Synth.store s3)) (gain_of 0) = Some p3 /\
     automation p3 =
       automation p1 ++
       [ cancelScheduledValues 0; setValueAtTime 0.0001 0;
         exponentialRampToValueAtTime 0.0001 0.001;
         cancelScheduledValues 0; setValueAtTime 0 0;
         linearRampToValueAtTime 0 0 ]) /\
  (exists q1 q3,
     param_get (context (Synth.store s1)) (frequency_of 0) = Some q1 /\
     param_get (context (Synth.store s3)) (frequency_of 0) = Some q3 /\
     automation q3 =
       automation q1 ++
       [ cancelScheduledValues 0; setValueAtTime 10000 0;
         exponentialRampToValueAtTime 200 1 ]) /\
  0.001 - 0 <> 0.
Proof.
  intros s s1 s3. split; [reflexivity|]. split; [reflexivity|].
  split; [|split; [|lra]].
  - eexists _, _.
    split; [evaluate; reflexivity|].
    split; [evaluate; reflexivity|].
    evaluate. repeat f_equal; solve_max.
  - eexists _, _.
    split; [evaluate; reflexivity|].
    split; [evaluate; reflexivity|].
    evaluate. repeat f_equal; solve_max.
Qed.

(** C3 (amended).  Play the note [n] in any state reached from a new
    engine, let anything happen that neither plays nor stops [n] (changes
    of the release settings included), then stop [n].  With [rv] and [rf]
    the volume and filter release settings at the time of [playNote]:
    the voice in the table is still the one recorded then, with release
    time [rv]; on its first gain node the volume envelope ramps down until
    max(rv, 1 ms) after the release start, and the fade ends [rv] after
    [stopTime]; the two other gain nodes get the fade only; on its first
    filter the filter envelope ramps down until max(rf, 1 ms) after the
    release start; every oscillator stops at stopTime + rv + 0.1. *)
Theorem stopNote_release_durations (volume : option R) (now : R) (ops : list Op)
    (n : string) (startTime : option R) (between : list Op) (stopTime : option R) :
  let s := run ops (Synth.new volume now) in
  let rv := EnvelopeOptions.release (Synth.volumeEnvelopeSettings s) in
  let rf := FilterEnvelopeSettings.release (Synth.filterEnvelopeSettings s) in
  let slv := default 0 (EnvelopeOptions.startLevel (Synth.volumeEnvelopeSettings s)) in
  let slf := default 200 (FilterEnvelopeSettings.startLevel (Synth.filterEnvelopeSettings s)) in
  let s1 := Synth.playNote n startTime s in
  Forall (op_leaves_note n) between ->
  let s2 := run between s1 in
  let s3 := Synth.stopNote n stopTime s2 in
  let st := default (currentTime (context (Synth.store s2))) stopTime in
  let release_start := Rmax st (currentTime (context (Synth.store s2))) in
  exists v g0 g1 g2 f0 p0 p1 p2 q0,
    JSMap.get n (Synth.activeVoices s1) = Some v /\
    JSMap.get n (Synth.activeVoices s2) = Some v /\
    ActiveVoice.releaseTime v = rv /\
    ActiveVoice.gainNodes v = [g0; g1; g2] /\
    ActiveVoice.filters v !! 0%nat = Some f0 /\
    param_get (context (Synth.store s2)) (gain_of g0) = Some p0 /\
    param_get (context (Synth.store s2)) (gain_of g1) = Some p1 /\
    param_get (context (Synth.store s2)) (gain_of g2) = Some p2 /\
    param_get (context (Synth.store s2)) (frequency_of f0) = Some q0 /\
    param_get (context (Synth.store s3)) (gain_of g0) =
      Some (append_calls
              (envelope_release release_start (value p0) slv rv
               ++ gain_fade st (value p0) rv) p0) /\
    param_get (context (Synth.store s3)) (gain_of g1) =
      Some (append_calls (gain_fade st (value p1) rv) p1) /\
    param_get (context (Synth.store s3)) (gain_of g2) =
      Some (append_calls (gain_fade st (value p2) rv) p2) /\
    param_get (context (Synth.store s3)) (frequency_of f0) =
      Some (append_calls (envelope_release release_start (value q0) slf rf) q0) /\
    (forall o, o ∈ ActiveVoice.oscillators v ->
       osc_stopped_at (Synth.store s3) o (st + rv + 0.1)).
Proof.
  intros s rv rf slv slf s1 Hbetween s2 s3 st release_start.
  set (s0 := if JSMap.has n (Synth.activeVoices s) then Synth.stopNote n None s else s).
  set (st1 := default (currentTime (context (Synth.store s))) startTime).
  assert (Hs1 : s1 = Synth.start_voice n st1 s0) by reflexivity.
  destruct (stopped_first_settings n s) as [Hvs Hfs]. fold s0 in Hvs, Hfs.
  set (v := new_voice s0 n).
  assert (Hg1 : JSMap.get n (Synth.activeVoices s1) = Some v).
  { rewrite Hs1. apply start_voice_get. }
  assert (Hg2 : JSMap.get n (Synth.activeVoices s2) = Some v).
  { unfold s2. rewrite (run_leaves_get n between s1 Hbetween). exact Hg1. }
  assert (Hok : voice_refs_ok v (voice_volume_envelope s0 0) (voice_filter_envelope s0 0)
                  (n_gains (Synth.store s0) + 0) (n_gains (Synth.store s0) + 1)
                  (n_gains (Synth.store s0) + 2) (n_filters (Synth.store s0) + 0)
                  (Synth.store s2)).
  { apply (voice_refs_ok_kept _ _ _ _ _ _ _ (Synth.store s1)).
    - apply store_kept_run.
    - rewrite Hs1. apply new_voice_refs_ok. }
  assert (Hrv : ActiveVoice.releaseTime v = rv).
  { unfold v, rv. cbn [new_voice ActiveVoice.releaseTime]. rewrite Hvs. reflexivity. }
  destruct (release_voice_params _ _ _ _ _ _ _ st (Synth.store s2) Hok)
    as (p0 & p1 & p2 & q0 & Hp0 & Hp1 & Hp2 & Hq0 & H0 & H1 & H2 & HF).
  assert (Hstore3 : Synth.store s3 = Synth.release_voice v st (Synth.store s2)).
  { exact (stopNote_store n stopTime s2 v Hg2). }
  rewrite <- Hstore3 in H0, H1, H2, HF. rewrite Hrv in H0, H1, H2.
  assert (Hev : Envelope.release (voice_volume_envelope s0 0) = rv /\
                Envelope.startLevel (voice_volume_envelope s0 0) = slv).
  { unfold voice_volume_envelope, rv, slv. simpl. rewrite Hvs. split; reflexivity. }
  assert (Hef : Envelope.release (voice_filter_envelope s0 0) = rf /\
                Envelope.startLevel (voice_filter_envelope s0 0) = slf).
  { unfold voice_filter_envelope, rf, slf. simpl. rewrite Hfs. split; reflexivity. }
  destruct Hev as [Hev1 Hev2]. destruct Hef as [Hef1 Hef2].
  rewrite Hev1, Hev2 in H0. rewrite Hef1, Hef2 in HF.
  exists v, (n_gains (Synth.store s0) + 0)%nat, (n_gains (Synth.store s0) + 1)%nat,
         (n_gains (Synth.store s0) + 2)%nat, (n_filters (Synth.store s0) + 0)%nat,
         p0, p1, p2, q0.
  repeat (split; [first [assumption | reflexivity]|]).
  intros o Ho. rewrite Hstore3, <- Hrv.
  apply release_voice_stops; [|exact Ho].
  destruct Hok as (_ & _ & _ & _ & _ & _ & _ & _ & _ & _ & _ & _ & _ & Hosc). exact Hosc.
Qed.

Lemma stopNote_release_durations_witness :
  let s1 := Synth.playNote "A4" None (Synth.new None 0) in
  let s2 := run [set_volumeEnvelope volume_release 2] s1 in
  let s3 := Synth.stopNote "A4" (Some 1) s2 in
  EnvelopeOptions.release (Synth.volumeEnvelopeSettings s2) = 2 /\
  exists v,
    JSMap.get "A4" (Synth.activeVoices s2) = Some v /\
    forall o, o ∈ ActiveVoice.oscillators v ->
      osc_stopped_at (Synth.store s3) o (1 + 0.3 + 0.1).
Proof.
  intros s1 s2 s3. split; [reflexivity|].
  assert (Hbetween : Forall (op_leaves_note "A4")
                       [set_volumeEnvelope volume_release 2]).
  { apply Forall_cons_2; [exact I | apply Forall_nil_2]. }
  destruct (stopNote_release_durations None 0 [] "A4" None
              [set_volumeEnvelope volume_release 2] (Some 1) Hbetween)
    as (v & g0 & g1 & g2 & f0 & p0 & p1 & p2 & q0 & _ & Hg & _ & _ & _ & _ & _ & _ & _
        & _ & _ & _ & _ & Hosc).
  exists v. split; [exact Hg | exact Hosc].
Defined.

(** ** More facts about the table *)

Section JSMapMore.
Context {V : Type}.
Implicit Types (m : JSMap.t V) (k : string) (v : V).

Lemma elem_get k v m : NoDup (JSMap.keys m) -> (k, v) ∈ m -> JSMap.get k m = Some v.
Proof.
  induction m as [|[k0 v0] m IH]; simpl; [intros _ Hin; inversion Hin|].
  intros Hnd Hin. apply NoDup_cons in Hnd as [Hk0 Hnd].
  apply elem_of_cons in Hin as [[= -> ->]|Hin].
  - rewrite String.eqb_refl. reflexivity.
  - destruct (String.eqb_spec k0 k) as [->|Hk]; [|exact (IH Hnd Hin)].
    exfalso. apply Hk0. apply list_elem_of_fmap. exists (k, v). split; [reflexivity|exact Hin].
Qed.

Lemma get_delete_eq k m : NoDup (JSMap.keys m) -> JSMap.get k (JSMap.delete k m) = None.
Proof.
  induction m as [|[k0 v0] m IH]; simpl; [reflexivity|].
  intros Hnd. apply NoDup_cons in Hnd as [Hk0 Hnd].
  destruct (String.eqb_spec k0 k) as [->|Hk]; simpl.
  - destruct (JSMap.get k m) eqn:Hg; [|reflexivity].
    exfalso. apply Hk0. apply get_Some_elem in Hg.
    apply list_elem_of_fmap. exists (k, v). split; [reflexivity|exact Hg].
  - destruct (String.eqb_spec k0 k); [contradiction|]. exact (IH Hnd).
Qed.

Lemma elem_of_delete_ne k k' v' m : (k', v') ∈ m -> k' <> k -> (k', v') ∈ JSMap.delete k m.
Proof.
  intros Hin Hne. induction m as [|[k0 v0] m IH]; simpl; [inversion Hin|].
  apply elem_of_cons in Hin as [[= <- <-]|Hin].
  - destruct (String.eqb_spec k' k); [contradiction|]. apply list_elem_of_here.
  - destruct (String.eqb k0 k); [exact Hin|]. apply list_elem_of_further, IH, Hin.
Qed.

Lemma elem_of_delete_key k k' v' m :
  NoDup (JSMap.keys m) -> (k', v') ∈ JSMap.delete k m -> k' <> k.
Proof.
  intros Hnd Hin ->.
  pose proof (elem_get _ _ _ (NoDup_keys_delete k m Hnd) Hin) as Hg.
  rewrite get_delete_eq in Hg by exact Hnd. discriminate.
Qed.

Lemma elem_of_set_ne k v k' v' m : (k', v') ∈ m -> k' <> k -> (k', v') ∈ JSMap.set k v m.
Proof.
  intros Hin Hne. induction m as [|[k0 v0] m IH]; simpl; [inversion Hin|].
  apply elem_of_cons in Hin as [[= <- <-]|Hin].
  - destruct (String.eqb_spec k' k); [contradiction|]. apply list_elem_of_here.
  - destruct (String.eqb k0 k); apply list_elem_of_further; [exact Hin | exact (IH Hin)].
Qed.

Lemma elem_of_set_eq k v m : (k, v) ∈ JSMap.set k v m.
Proof. apply get_Some_elem, get_set_eq. Qed.

Lemma get_elem_key k m v : JSMap.get k m = None -> (k, v) ∉ m.
Proof.
  intros Hg Hin. apply (get_None_keys _ _ Hg).
  apply list_elem_of_fmap. exists (k, v). split; [reflexivity|exact Hin].
Qed.
End JSMapMore.

(** ** Which oscillators sound after a step of the store *)

Lemma sounding_same_nodes (h h' : Store) (o : nat) :
  oscillator_nodes (context h') = oscillator_nodes (context h) ->
  osc_sounding h' o <-> osc_sounding h o.
Proof. intros H. unfold osc_sounding. rewrite H. reflexivity. Qed.

Lemma sounding_started (h : Store) (o : nat) : osc_sounding h o -> osc_started h o.
Proof. intros (node & t & Hl & Hs & _). exists node, t. auto. Qed.

Lemma stopped_not_sounding (h : Store) (o : nat) (when : R) :
  osc_stopped_at h o when -> ~ osc_sounding h o.
Proof. intros (node & Hl & Hs) (node' & t & Hl' & _ & Hn). congruence. Qed.

Lemma try_stop_sounding_back (e : R) (h : Store) (o o' : nat) :
  osc_sounding (Synth.try_stop e h o) o' -> osc_sounding h o'.
Proof.
  unfold Synth.try_stop, on_context, osc_stop, osc_sounding. cbn [context].
  destruct (oscillator_nodes (context h) !! o) as [n0|] eqn:Ho; [|trivial].
  destruct (start_time n0) as [t0|] eqn:Hs0; [|trivial].
  simpl. intros (node & t & Hl & Hs & Hn).
  destruct (decide (o = o')) as [->|Hne].
  - rewrite list_lookup_insert_eq in Hl by (apply lookup_lt_Some in Ho; exact Ho).
    injection Hl as <-. discriminate Hn.
  - rewrite list_lookup_insert_ne in Hl by exact Hne. exists node, t. auto.
Qed.

Lemma try_stop_sounding_other (e : R) (h : Store) (o o' : nat) :
  o <> o' -> osc_sounding h o' -> osc_sounding (Synth.try_stop e h o) o'.
Proof.
  intros Hne. unfold Synth.try_stop, on_context, osc_stop, osc_sounding. cbn [context].
  destruct (oscillator_nodes (context h) !! o) as [n0|] eqn:Ho; [|trivial].
  destruct (start_time n0) as [t0|] eqn:Hs0; [|trivial].
  simpl. intros (node & t & Hl & Hs & Hn). exists node, t.
  rewrite list_lookup_insert_ne by exact Hne. auto.
Qed.

Lemma fold_try_stop_sounding_back (e : R) (l : list nat) (h : Store) (o : nat) :
  osc_sounding (foldl (Synth.try_stop e) h l) o -> osc_sounding h o.
Proof.
  revert h. induction l as [|o' l IH]; intros h; simpl; [trivial|].
  intros H. exact (try_stop_sounding_back _ _ _ _ (IH _ H)).
Qed.

Lemma fold_try_stop_sounding_other (e : R) (l : list nat) (h : Store) (o : nat) :
  o ∉ l -> osc_sounding h o -> osc_sounding (foldl (Synth.try_stop e) h l) o.
Proof.
  revert h. induction l as [|o' l IH]; intros h Hnin H; simpl; [exact H|].
  apply IH.
  - intros Hin. apply Hnin, list_elem_of_further, Hin.
  - apply try_stop_sounding_other; [|exact H].
    intros ->. apply Hnin, list_elem_of_here.
Qed.

Lemma release_voice_nodes_before (v : ActiveVoice.t) (stopTime : R) (h : Store) :
  exists h0,
    oscillator_nodes (context h0) = oscillator_nodes (context h) /\
    Synth.release_voice v stopTime h =
      foldl (Synth.try_stop (stopTime + ActiveVoice.releaseTime v + 0.1)) h0
        (ActiveVoice.oscillators v).
Proof.
  eexists. split; [|reflexivity].
  rewrite fold_fade_gain_oscillators, !env_triggerRelease_oscillators. reflexivity.
Qed.

Lemma release_voice_sounding_back (v : ActiveVoice.t) (stopTime : R) (h : Store) (o : nat) :
  osc_sounding (Synth.release_voice v stopTime h) o -> osc_sounding h o.
Proof.
  destruct (release_voice_nodes_before v stopTime h) as (h0 & Hn & ->).
  intros H. apply (sounding_same_nodes h h0 o Hn).
  exact (fold_try_stop_sounding_back _ _ _ _ H).
Qed.

Lemma release_voice_sounding_other (v : ActiveVoice.t) (stopTime : R) (h : Store) (o : nat) :
  o ∉ ActiveVoice.oscillators v ->
  osc_sounding h o -> osc_sounding (Synth.release_voice v stopTime h) o.
Proof.
  destruct (release_voice_nodes_before v stopTime h) as (h0 & Hn & ->).
  intros Hnin H. apply fold_try_stop_sounding_other; [exact Hnin|].
  apply (sounding_same_nodes h h0 o Hn). exact H.
Qed.

Lemma release_voice_silences (v : ActiveVoice.t) (stopTime : R) (h : Store) (o : nat) :
  (forall o, o ∈ ActiveVoice.oscillators v -> osc_started h o) ->
  o ∈ ActiveVoice.oscillators v ->
  ~ osc_sounding (Synth.release_voice v stopTime h) o.
Proof.
  intros Hst Hin. eapply stopped_not_sounding.
  exact (release_voice_stops v stopTime h Hst o Hin).
Qed.

(** ** The voices own the sounding oscillators *)

Lemma voices_ok_stopNote (n : string) (t : option R) (s : Synth.t) :
  voices_ok s -> voices_ok (Synth.stopNote n t s).
Proof.
  intros (Ht & Hs & Ho & Hd).
  destruct (JSMap.get n (Synth.activeVoices s)) as [v|] eqn:Hg.
  2:{ unfold Synth.stopNote. rewrite Hg. exact (conj Ht (conj Hs (conj Ho Hd))). }
  pose proof (get_Some_elem _ _ _ Hg) as Hin.
  assert (Hstarted : forall o, o ∈ ActiveVoice.oscillators v -> osc_started (Synth.store s) o).
  { intros o Hov. apply sounding_started. exact (Hs _ _ _ Hin Hov). }
  split; [apply table_ok_stopNote, Ht|].
  unfold voices_sounding, sounding_owned, voices_disjoint.
  rewrite stopNote_activeVoices, (stopNote_store _ _ _ _ Hg).
  destruct Ht as [Hnd _]. repeat split.
  - intros k' v' o Hin' Hov'.
    pose proof (elem_of_delete_key _ _ _ _ Hnd Hin') as Hne.
    apply elem_of_delete in Hin'.
    apply release_voice_sounding_other; [|exact (Hs _ _ _ Hin' Hov')].
    intros Hov. apply Hne. exact (Hd _ _ _ _ _ Hin' Hin Hov' Hov).
  - intros o Hso.
    destruct (Ho o (release_voice_sounding_back _ _ _ _ Hso)) as (k' & v' & Hin' & Hov').
    exists k', v'. split; [|exact Hov'].
    apply elem_of_delete_ne; [exact Hin'|]. intros ->.
    pose proof (elem_get _ _ _ Hnd Hin') as Hg'. rewrite Hg in Hg'. injection Hg' as <-.
    exact (release_voice_silences _ _ _ _ Hstarted Hov' Hso).
  - intros k1 v1 k2 v2 o H1 H2. apply Hd; eapply elem_of_delete; eassumption.
Qed.

Lemma voice_store_sounding_old (s : Synth.t) (f st : R) (o : nat) :
  (o < n_oscillators (Synth.store s))%nat ->
  osc_sounding (voice_store s f st) o <-> osc_sounding (Synth.store s) o.
Proof.
  intros Hlt. unfold osc_sounding, voice_store, ext. cbn [context oscillator_nodes].
  rewrite lookup_app_l by exact Hlt. reflexivity.
Qed.

Lemma voice_store_sounding_new (s : Synth.t) (n : string) (f st : R) (o : nat) :
  (n_oscillators (Synth.store s) <= o)%nat ->
  osc_sounding (voice_store s f st) o ->
  o ∈ ActiveVoice.oscillators (new_voice s n).
Proof.
  intros Hge (node & t & Hl & _). apply lookup_lt_Some in Hl.
  unfold voice_store, ext in Hl. cbn [context oscillator_nodes] in Hl.
  rewrite length_app in Hl. cbn [length] in Hl.
  cbn [new_voice ActiveVoice.oscillators]. unfold n_oscillators in *.
  assert (Hcases : o = (length (oscillator_nodes (context (Synth.store s))) + 0)%nat \/
                   o = (length (oscillator_nodes (context (Synth.store s))) + 1)%nat \/
                   o = (length (oscillator_nodes (context (Synth.store s))) + 2)%nat) by lia.
  destruct Hcases as [-> | [-> | ->]];
    repeat (first [apply list_elem_of_here | apply list_elem_of_further]).
Qed.

Lemma sounding_lt (h : Store) (o : nat) : osc_sounding h o -> (o < n_oscillators h)%nat.
Proof. intros (node & t & Hl & _). exact (lookup_lt_Some _ _ _ Hl). Qed.

Lemma voices_ok_start_voice (n : string) (st : R) (s : Synth.t) :
  JSMap.get n (Synth.activeVoices s) = None ->
  voices_ok s -> voices_ok (Synth.start_voice n st s).
Proof.
  intros Hg (Ht & Hs & Ho & Hd).
  assert (Hnew : forall o, o ∈ ActiveVoice.oscillators (new_voice s n) ->
            osc_sounding (Synth.store (Synth.start_voice n st s)) o /\
            (n_oscillators (Synth.store s) <= o)%nat).
  { intros o. apply new_voice_sounding. }
  assert (Hacts : Synth.activeVoices (Synth.start_voice n st s) =
                  JSMap.set n (new_voice s n) (Synth.activeVoices s)).
  { rewrite start_voice_eq. reflexivity. }
  split.
  { destruct Ht as [Hnd Hnote]. unfold table_ok. rewrite Hacts. split.
    - apply NoDup_keys_set, Hnd.
    - intros k v Hin. apply elem_of_set in Hin as [[= -> ->]|Hin]; [reflexivity|].
      exact (Hnote _ _ Hin). }
  unfold voices_sounding, sounding_owned, voices_disjoint. rewrite Hacts.
  repeat split.
  - intros k v o Hin Hov. apply elem_of_set in Hin as [[= -> ->]|Hin].
    + exact (proj1 (Hnew o Hov)).
    + pose proof (Hs _ _ _ Hin Hov) as Hso. rewrite start_voice_store.
      apply voice_store_sounding_old; [exact (sounding_lt _ _ Hso) | exact Hso].
  - intros o Hso. rewrite start_voice_store in Hso.
    destruct (Nat.lt_ge_cases o (n_oscillators (Synth.store s))) as [Hlt|Hge].
    + apply voice_store_sounding_old in Hso; [|exact Hlt].
      destruct (Ho o Hso) as (k & v & Hin & Hov). exists k, v. split; [|exact Hov].
      apply elem_of_set_ne; [exact Hin|]. intros ->. exact (get_elem_key _ _ _ Hg Hin).
    + exists n, (new_voice s n). split; [apply elem_of_set_eq|].
      exact (voice_store_sounding_new s n _ _ o Hge Hso).
  - intros k1 v1 k2 v2 o H1 H2 Ho1 Ho2.
    apply elem_of_set in H1 as [[= -> ->]|H1]; apply elem_of_set in H2 as [[= -> ->]|H2].
    + reflexivity.
    + pose proof (sounding_lt _ _ (Hs _ _ _ H2 Ho2)). pose proof (proj2 (Hnew o Ho1)). lia.
    + pose proof (sounding_lt _ _ (Hs _ _ _ H1 Ho1)). pose proof (proj2 (Hnew o Ho2)). lia.
    + exact (Hd _ _ _ _ _ H1 H2 Ho1 Ho2).
Qed.

Lemma voices_ok_playNote (n : string) (t : option R) (s : Synth.t) :
  voices_ok s -> voices_ok (Synth.playNote n t s).
Proof.
  intros Hok. rewrite playNote_eq. unfold JSMap.has.
  destruct (JSMap.get n (Synth.activeVoices s)) eqn:Hg.
  - apply voices_ok_start_voice; [|apply voices_ok_stopNote, Hok].
    rewrite stopNote_activeVoices. apply get_delete_eq. exact (proj1 (proj1 Hok)).
  - apply voices_ok_start_voice; assumption.
Qed.

Lemma voices_ok_stopAll_fold (l : list string) (s : Synth.t) :
  voices_ok s -> voices_ok (foldl (fun s n => Synth.stopNote n None s) s l).
Proof.
  revert s. induction l as [|n l IH]; intros s H; simpl; [exact H|].
  apply IH, voices_ok_stopNote, H.
Qed.

Lemma set_detune_sounding (o : nat) (v : R) (h : Store) (o' : nat) :
  osc_sounding (on_context (osc_set_detune o v) h) o' <-> osc_sounding h o'.
Proof.
  unfold osc_sounding, on_context, osc_set_detune. cbn [context oscillator_nodes].
  rewrite list_lookup_alter. destruct (decide (o = o')) as [->|Hne]; [|reflexivity].
  destruct (oscillator_nodes (context h) !! o') as [n0|]; simpl.
  - split.
    + intros (node & t & [= <-] & Hs & Hn). exists n0, t. auto.
    + intros (node & t & [= <-] & Hs & Hn). exists (set_detune v n0), t. auto.
  - split; intros (node & t & Hl & _); discriminate.
Qed.

Lemma parameter_op_sounding (o : Op) (s : Synth.t) (x : nat) :
  parameter_op o ->
  osc_sounding (Synth.store (step s o)) x <-> osc_sounding (Synth.store s) x.
Proof.
  destruct o; simpl; try contradiction; intros _; try reflexivity.
  - unfold Synth.setNoiseLevel. destruct (Rlt_dec 0 v); reflexivity.
  - unfold Synth.updateOscillator.
    destruct (Synth.oscillators_get oscKey s); [|reflexivity].
    assert (Hput : forall o', Synth.store (Synth.oscillators_put oscKey o' s) = Synth.store s /\
              Synth.activeVoices (Synth.oscillators_put oscKey o' s) = Synth.activeVoices s).
    { intros o'. unfold Synth.oscillators_put.
      repeat (destruct (String.eqb oscKey _)); split; reflexivity. }
    destruct p; try (rewrite (proj1 (Hput _)); reflexivity).
    cbn [Synth.store Synth.with_store]. rewrite (proj1 (Hput _)), (proj2 (Hput _)).
    generalize (JSMap.values (Synth.activeVoices s)). generalize (Synth.store s).
    intros h l. revert h. induction l as [|voice l IH]; intros h; simpl; [reflexivity|].
    rewrite IH. destruct (ActiveVoice.oscillators voice !! _); [|reflexivity].
    apply set_detune_sounding.
  - apply sounding_same_nodes. cbn [on_context context]. apply oscillator_nodes_modify.
Qed.

Lemma voices_ok_step (o : Op) (s : Synth.t) : voices_ok s -> voices_ok (step s o).
Proof.
  intros Hok.
  destruct o;
    try (match goal with
         | |- context [step s ?o] =>
             pose proof (parameter_op_frame o s I) as [Hv _];
             pose proof (fun x => parameter_op_sounding o s x I) as Hx
         end;
         destruct Hok as ((Hnd & Hnote) & Hs & Ho & Hd);
         unfold voices_ok, table_ok, voices_sounding, sounding_owned, voices_disjoint;
         rewrite Hv; repeat split;
         [ exact Hnd | exact Hnote
         | intros k v' x Hin Hov; apply Hx; exact (Hs _ _ _ Hin Hov)
         | intros x Hso; apply Hx in Hso; exact (Ho x Hso)
         | exact Hd ]).
  - apply voices_ok_playNote, Hok.
  - apply voices_ok_stopNote, Hok.
  - apply voices_ok_stopAll_fold, Hok.
Qed.

Lemma voices_ok_run (ops : list Op) (s : Synth.t) : voices_ok s -> voices_ok (run ops s).
Proof.
  revert s. induction ops as [|o ops IH]; intros s H; simpl; [exact H|].
  apply IH, voices_ok_step, H.
Qed.

Lemma voices_ok_new (volume : option R) (now : R) : voices_ok (Synth.new volume now).
Proof.
  split; [apply new_ok|]. repeat split.
  - intros k v o Hin. inversion Hin.
  - intros o (node & t & Hl & _). discriminate Hl.
  - intros k v k' v' o Hin. inversion Hin.
Qed.

(** X1.  In every state reached from a new engine, the oscillators that
    are sounding (started, and no stop scheduled) are exactly the oscillators
    of the voices in the table, and the voices of two different notes have no
    oscillator in common: no oscillator is left running without a voice, and
    no voice has lost one of its own. *)
Theorem sounding_oscillators_are_the_voices (volume : option R) (now : R) (ops : list Op) :
  let s := run ops (Synth.new volume now) in
  (forall o,
     osc_sounding (Synth.store s) o <->
     exists k v, JSMap.get k (Synth.activeVoices s) = Some v /\
                 o ∈ ActiveVoice.oscillators v) /\
  (forall k v k' v' o,
     JSMap.get k (Synth.activeVoices s) = Some v ->
     JSMap.get k' (Synth.activeVoices s) = Some v' ->
     o ∈ ActiveVoice.oscillators v -> o ∈ ActiveVoice.oscillators v' -> k = k').
Proof.
  intros s. destruct (voices_ok_run ops _ (voices_ok_new volume now)) as ((Hnd & _) & Hs & Ho & Hd).
  fold s in Hnd, Hs, Ho, Hd. split.
  - intros o. split.
    + intros Hso. destruct (Ho o Hso) as (k & v & Hin & Hov).
      exists k, v. split; [exact (elem_get _ _ _ Hnd Hin) | exact Hov].
    + intros (k & v & Hg & Hov). exact (Hs _ _ _ (get_Some_elem _ _ _ Hg) Hov).
  - intros k v k' v' o Hg Hg'. apply Hd; apply get_Some_elem; assumption.
Qed.

(** X2.  In every state reached from a new engine, [stopAll] leaves the
    table empty, the noise gate at 0 and no oscillator sounding: each one has
    its stop scheduled. *)
Theorem stopAll_silences (volume : option R) (now : R) (ops : list Op) :
  let s := Synth.stopAll (run ops (Synth.new volume now)) in
  Synth.activeVoices s = [] /\
  value (gain (Synth.noiseGate s)) = 0 /\
  (forall o, ~ osc_sounding (Synth.store s) o).
Proof.
  intros s.
  assert (Hrun : s = run (ops ++ [stopAll]) (Synth.new volume now)).
  { unfold run. rewrite foldl_app. reflexivity. }
  assert (Hempty : Synth.activeVoices s = []).
  { apply stopAll_fold_empties; [|reflexivity].
    exact (proj1 (proj1 (run_ok ops _ (new_ok volume now)))). }
  split; [exact Hempty|]. split.
  - rewrite Hrun. apply (proj2 (run_ok _ _ (new_ok volume now))). rewrite <- Hrun. exact Hempty.
  - intros o Hso.
    destruct (voices_ok_run (ops ++ [stopAll]) _ (voices_ok_new volume now))
      as (_ & _ & Ho & _).
    rewrite <- Hrun in Ho. destruct (Ho o Hso) as (k & v & Hin & _).
    rewrite Hempty in Hin. inversion Hin.
Qed.

(** X3.  In every state reached from a new engine, [stopNote] on a note
    that is not in the table changes nothing, so a second [stopNote] on the
    same note changes nothing after the first. *)
Theorem stopNote_absent_or_repeated (volume : option R) (now : R) (ops : list Op)
    (n : string) (t t' : option R) :
  let s := run ops (Synth.new volume now) in
  (JSMap.get n (Synth.activeVoices s) = None -> Synth.stopNote n t s = s) /\
  Synth.stopNote n t' (Synth.stopNote n t s) = Synth.stopNote n t s.
Proof.
  intros s.
  assert (Habsent : forall t0 s0, JSMap.get n (Synth.activeVoices s0) = None ->
            Synth.stopNote n t0 s0 = s0).
  { intros t0 s0 Hg. unfold Synth.stopNote. rewrite Hg. reflexivity. }
  split; [apply Habsent|]. apply Habsent.
  rewrite stopNote_activeVoices. apply get_delete_eq.
  exact (proj1 (proj1 (run_ok ops _ (new_ok volume now)))).
Qed.

(** ** Decimal digits: printing an integer and reading it back *)

Lemma parseInt_from_uint (d : Decimal.uint) (acc : positive) :
  parseInt_from (Z.pos acc) (NilEmpty.string_of_uint d) = Z.pos (Pos.of_uint_acc d acc).
Proof.
  revert acc. induction d; intros acc; cbn [NilEmpty.string_of_uint parseInt_from Pos.of_uint_acc];
    [reflexivity | rewrite <- IHd; f_equal; cbv [nat_of_ascii N_of_ascii N_of_digits]; cbn [N.to_nat Pos.to_nat Pos.iter_op Nat.add N.add N.mul Pos.add Pos.mul]; lia ..].
Qed.

Lemma parseInt_uint (d : Decimal.uint) :
  parseInt_from 0 (NilEmpty.string_of_uint d) = Z.of_N (Pos.of_uint d).
Proof.
  induction d; cbn [NilEmpty.string_of_uint parseInt_from Pos.of_uint];
    [reflexivity | exact IHd | apply (parseInt_from_uint d) ..].
Qed.

Lemma all_digits_uint (d : Decimal.uint) :
  all_digits (NilEmpty.string_of_uint d) = true.
Proof. induction d; cbn; auto. Qed.

Lemma Z_to_string_digits (n : Z) :
  (0 <= n)%Z -> all_digits (Z_to_string n) = true /\ Z_to_string n <> ""%string.
Proof.
  intros Hn. unfold Z_to_string. destruct n as [|p|p]; [split; [reflexivity | discriminate] | | lia].
  cbn [Z.to_int NilZero.string_of_int]. unfold NilZero.string_of_uint.
  pose proof (Unsigned.to_uint_nonnil p) as Hnil.
  destruct (Pos.to_uint p) eqn:E; [congruence | (split; [apply (all_digits_uint (_ u)) | discriminate]) ..].
Qed.

Lemma parseInt_Z_to_string (n : Z) : (0 <= n)%Z -> parseInt (Z_to_string n) = n.
Proof.
  intros Hn. unfold Z_to_string, parseInt. destruct n as [|p|p]; [reflexivity | | lia].
  cbn [Z.to_int NilZero.string_of_int]. unfold NilZero.string_of_uint.
  pose proof (Unsigned.to_uint_nonnil p) as Hnil.
  pose proof (Unsigned.of_to p) as Hp.
  destruct (Pos.to_uint p) eqn:E; [congruence | rewrite parseInt_uint, Hp; reflexivity ..].
Qed.

(** ** Note names that match the pattern *)

Lemma match_digits_digits (d : string) :
  d <> ""%string -> all_digits d = true -> AudioEngine.match_digits d = Some d.
Proof.
  intros Hne Hd. destruct d as [|c d]; [congruence|].
  unfold AudioEngine.match_digits. rewrite Hd. reflexivity.
Qed.

Lemma digit_not_accidental (c : ascii) : is_digit c = true -> is_accidental c = false.
Proof.
  destruct c as [[] [] [] [] [] [] [] []]; vm_compute; congruence.
Qed.

Lemma note_match_complete (l : ascii) (accidental digits : string) :
  is_note_letter l = true ->
  accidental = ""%string \/ accidental = "#"%string \/ accidental = "b"%string ->
  digits <> ""%string -> all_digits digits = true ->
  AudioEngine.note_match (String l (accidental ++ digits)) =
    Some (String l accidental, digits).
Proof.
  intros Hl Hacc Hne Hd. unfold AudioEngine.note_match. rewrite Hl.
  pose proof (match_digits_digits _ Hne Hd) as Hm.
  destruct Hacc as [-> | [-> | ->]].
  - change ("" +:+ digits) with digits.
    rewrite Hm. destruct digits as [|c d]; [congruence|].
    cbn [all_digits] in Hd. apply andb_prop in Hd as [Hc _].
    rewrite (digit_not_accidental _ Hc). reflexivity.
  - change ("#" +:+ digits) with (String "#" digits).
    lazy beta iota. change (is_accidental "#") with true. lazy beta iota.
    rewrite Hm. reflexivity.
  - change ("b" +:+ digits) with (String "b" digits).
    lazy beta iota. change (is_accidental "b") with true. lazy beta iota.
    rewrite Hm. reflexivity.
Qed.

Lemma note_letter_cases (l : ascii) :
  is_note_letter l = true ->
  l ∈ ["A"; "B"; "C"; "D"; "E"; "F"; "G"; "a"; "b"; "c"; "d"; "e"; "f"; "g"]%char.
Proof.
  destruct l as [[] [] [] [] [] [] [] []]; intros H;
    first [ vm_compute in H; discriminate H | clear H; repeat (first [apply list_elem_of_here | apply list_elem_of_further]) ].
Qed.

(** X4.  On every name that matches the pattern (a letter a-g or A-G, an
    optional [#] or [b], one or more digits) [noteToFrequency] looks up the
    capitalised name: when the table has it, the result is 440 Hz times 2 to
    the power (semitone - 9 + 12 (octave - 4)) / 12, without a warning;
    otherwise 440 Hz with the warning [Unknown note].  The names the table
    does not have are exactly B#, Cb, E# and Fb. *)
Theorem noteToFrequency_well_formed (l : ascii) (accidental digits : string) :
  is_note_letter l = true ->
  accidental = ""%string \/ accidental = "#"%string \/ accidental = "b"%string ->
  digits <> ""%string -> all_digits digits = true ->
  let name := String (toUpperCase l) accidental in
  AudioEngine.noteToFrequency (String l (accidental ++ digits)) =
    match AudioEngine.notes_get name with
    | Some semitone =>
        (440 * Rpower 2 (IZR (semitone - 9 + (parseInt digits - 4) * 12) / 12), [])
    | None => (440, [("Unknown note: " ++ name)%string])
    end /\
  (AudioEngine.notes_get name = None <->
   name ∈ ["B#"; "Cb"; "E#"; "Fb"]%string).
Proof.
  intros Hl Hacc Hne Hd name. split.
  - unfold AudioEngine.noteToFrequency.
    rewrite (note_match_complete _ _ _ Hl Hacc Hne Hd).
    cbn [AudioEngine.capitalise]. fold name.
    destruct (AudioEngine.notes_get name); reflexivity.
  - subst name. apply note_letter_cases in Hl.
    repeat (apply elem_of_cons in Hl as [-> | Hl]); try (by apply elem_of_nil in Hl);
      destruct Hacc as [-> | [-> | ->]]; vm_compute; split; intros H;
      first [ discriminate H
            | reflexivity
            | solve [repeat (first [apply list_elem_of_here | apply list_elem_of_further])]
            | exfalso;
              repeat (apply elem_of_cons in H as [H | H]; [discriminate H|]);
              by apply elem_of_nil in H ].
Qed.

Lemma noteToFrequency_well_formed_witness :
  AudioEngine.noteToFrequency "bb3" =
    (440 * Rpower 2 (IZR (10 - 9 + (3 - 4) * 12) / 12), []) /\
  AudioEngine.noteToFrequency "E#4" = (440, ["Unknown note: E#"%string]).
Proof.
  split.
  - exact (proj1 (noteToFrequency_well_formed "b" "b" "3" eq_refl
                    (or_intror (or_intror eq_refl)) ltac:(discriminate) eq_refl)).
  - exact (proj1 (noteToFrequency_well_formed "E" "#" "4" eq_refl
                    (or_intror (or_introl eq_refl)) ltac:(discriminate) eq_refl)).
Defined.

Lemma semitonesFromA4_well_formed (l : ascii) (accidental digits : string) :
  is_note_letter l = true ->
  accidental = ""%string \/ accidental = "#"%string \/ accidental = "b"%string ->
  digits <> ""%string -> all_digits digits = true ->
  semitonesFromA4_of (String l (accidental +:+ digits)) =
    (fun semitone => semitone - 9 + (parseInt digits - 4) * 12)%Z <$>
      AudioEngine.notes_get (String (toUpperCase l) accidental).
Proof.
  intros Hl Hacc Hne Hd. unfold semitonesFromA4_of.
  rewrite (note_match_complete _ _ _ Hl Hacc Hne Hd).
  cbn [AudioEngine.capitalise].
  destruct (AudioEngine.notes_get _); reflexivity.
Qed.

Lemma semitonesFromA4_octave (l : ascii) (accidental : string) (o : Z) :
  is_note_letter l = true ->
  accidental = ""%string \/ accidental = "#"%string \/ accidental = "b"%string ->
  (0 <= o)%Z ->
  semitonesFromA4_of (String l (accidental +:+ Z_to_string o)) =
    (fun semitone => semitone - 9 + (o - 4) * 12)%Z <$>
      AudioEngine.notes_get (String (toUpperCase l) accidental).
Proof.
  intros Hl Hacc Ho. destruct (Z_to_string_digits o Ho) as [Hd Hne].
  rewrite (semitonesFromA4_well_formed _ _ _ Hl Hacc Hne Hd).
  rewrite (parseInt_Z_to_string o Ho). reflexivity.
Qed.

(** ** MIDI numbers *)

Lemma midiToNote_eq (m : Z) :
  (0 <= m)%Z ->
  exists k : nat,
    (k < 12)%nat /\ (m = 12 * (m / 12) + Z.of_nat k)%Z /\
    AudioEngine.midiToNote m =
      (default "undefined"%string (AudioEngine.noteNames !! k) +:+ Z_to_string (m / 12 - 1))%string.
Proof.
  intros Hm. exists (Z.to_nat (Z.rem m 12)).
  pose proof (Z.rem_bound_pos m 12 Hm ltac:(lia)) as Hr.
  pose proof (Z.rem_mod_nonneg m 12 Hm ltac:(lia)) as Hmod.
  pose proof (Z.div_mod m 12 ltac:(lia)) as Hdm.
  split; [lia|]. split; [lia|].
  unfold AudioEngine.midiToNote.
  destruct (Z.ltb_spec (Z.rem m 12) 0); [lia | reflexivity].
Qed.

Lemma noteNames_semitone (k : nat) (o : Z) :
  (k < 12)%nat -> (0 <= o)%Z ->
  semitonesFromA4_of
    (default "undefined"%string (AudioEngine.noteNames !! k) +:+ Z_to_string o) =
    Some (Z.of_nat k - 9 + (o - 4) * 12)%Z.
Proof.
  intros Hk Ho.
  do 12 (destruct k as [|k];
         [ cbn [AudioEngine.noteNames lookup list_lookup default Datatypes.id];
           match goal with
           | |- semitonesFromA4_of (String ?l ?a +:+ ?d) = _ =>
               change (String l a +:+ d) with (String l (a +:+ d));
               rewrite semitonesFromA4_octave by (first [reflexivity | tauto | assumption]);
               reflexivity
           end
         | ]).
  lia.
Qed.

(** X5.  For every MIDI number from 12 up to 2^53 - 1, the largest integer
    up to which a JavaScript number holds every integer exactly, the name
    [midiToNote] gives is one [noteToFrequency] accepts without a warning,
    and its frequency is the one [midiToFrequency] gives for the number: the
    octave is printed in plain digits, it is read back as it was, and the
    semitones counted from A4 are the number less 69.  (Far above that
    bound JavaScript prints the octave with an exponent, and the name is
    not accepted.) *)
Theorem midi_round_trip (m : Z) :
  (12 <= m <= 9007199254740991)%Z ->
  AudioEngine.noteToFrequency (AudioEngine.midiToNote m) =
    (AudioEngine.midiToFrequency (IZR m), []).
Proof.
  intros [Hm _]. destruct (midiToNote_eq m ltac:(lia)) as (k & Hk & Hkm & ->).
  assert (Ho : (0 <= m / 12 - 1)%Z).
  { lia. }
  rewrite (noteToFrequency_semitones _ _ (noteNames_semitone k _ Hk Ho)).
  unfold AudioEngine.midiToFrequency.
  replace (Z.of_nat k - 9 + (m / 12 - 1 - 4) * 12)%Z with (m - 69)%Z by lia.
  rewrite minus_IZR. reflexivity.
Qed.

Lemma midi_round_trip_witness :
  AudioEngine.noteToFrequency (AudioEngine.midiToNote 130) =
    (AudioEngine.midiToFrequency (IZR 130), []).
Proof. apply (midi_round_trip 130). lia. Defined.

Lemma negative_octave_unmatched (k : nat) (o : Z) :
  (o < 0)%Z ->
  AudioEngine.note_match
    (default "undefined"%string (AudioEngine.noteNames !! k) +:+ Z_to_string o) = None.
Proof.
  intros Ho. destruct o as [|p|p]; [lia | lia |].
  unfold Z_to_string. cbn [Z.to_int NilZero.string_of_int].
  do 12 (destruct k as [|k]; [reflexivity|]). reflexivity.
Qed.

Lemma midiToNote_shape (m : Z) :
  exists k : nat,
    AudioEngine.midiToNote m =
      (default "undefined"%string (AudioEngine.noteNames !! k) +:+ Z_to_string (m / 12 - 1))%string.
Proof.
  unfold AudioEngine.midiToNote. destruct (Z.rem m 12 <? 0)%Z.
  - exists 12%nat. reflexivity.
  - eexists. reflexivity.
Qed.

(** X6.  Below 12 the octave [midiToNote] prints is negative, and
    [noteToFrequency] does not accept the name: it warns [Invalid note format]
    and answers 440 Hz, which is above the frequency [midiToFrequency] gives
    for the number. *)
Theorem midi_below_12_falls_back (m : Z) :
  (m < 12)%Z ->
  AudioEngine.noteToFrequency (AudioEngine.midiToNote m) =
    (440, [("Invalid note format: " +:+ AudioEngine.midiToNote m)%string]) /\
  AudioEngine.midiToFrequency (IZR m) < 440.
Proof.
  intros Hm. split.
  - unfold AudioEngine.noteToFrequency.
    destruct (midiToNote_shape m) as (k & ->).
    rewrite negative_octave_unmatched; [reflexivity|].
    assert (m / 12 < 1)%Z by (apply Z.div_lt_upper_bound; lia). lia.
  - unfold AudioEngine.midiToFrequency, Math_pow2.
    assert (Rpower 2 ((IZR m - 69) / 12) < Rpower 2 0).
    { apply Rpower_lt; [lra|]. assert (IZR m < 12) by (apply IZR_lt; lia). lra. }
    rewrite Rpower_O in H by lra. lra.
Qed.

Lemma midi_below_12_falls_back_witness :
  AudioEngine.noteToFrequency (AudioEngine.midiToNote 0) =
    (440, ["Invalid note format: C-1"%string]) /\
  AudioEngine.midiToFrequency (IZR 0) < 440.
Proof. apply (midi_below_12_falls_back 0). lia. Defined.

(** ** Spellings of one pitch *)

Lemma accidental_not_digit (a : ascii) : is_accidental a = true -> is_digit a = false.
Proof.
  intros H. destruct (is_accidental_true a H) as [-> | ->]; reflexivity.
Qed.

Lemma note_match_accidental (c a : ascii) (d : string) :
  is_note_letter c = true -> is_accidental a = true ->
  AudioEngine.note_match (String c (String a d)) =
    (fun d => (String c (String a ""), d)) <$> AudioEngine.match_digits d.
Proof.
  intros Hc Ha. unfold AudioEngine.note_match. rewrite Hc, Ha.
  destruct (AudioEngine.match_digits d); [reflexivity|].
  unfold AudioEngine.match_digits. cbn [all_digits].
  rewrite (accidental_not_digit a Ha). reflexivity.
Qed.

Lemma enharmonic_pair (c c' a a' : ascii) (d : string) :
  is_note_letter c = true -> is_accidental a = true ->
  is_note_letter c' = true -> is_accidental a' = true ->
  AudioEngine.notes_get (String (toUpperCase c) (String a "")) =
    AudioEngine.notes_get (String (toUpperCase c') (String a' "")) ->
  fst (AudioEngine.noteToFrequency (String c (String a d))) =
    fst (AudioEngine.noteToFrequency (String c' (String a' d))).
Proof.
  intros Hc Ha Hc' Ha' Hget. unfold AudioEngine.noteToFrequency.
  rewrite !note_match_accidental by assumption.
  destruct (AudioEngine.match_digits d); [|reflexivity].
  cbn [fmap option_fmap option_map AudioEngine.capitalise]. rewrite Hget. clear Hget.
  destruct (AudioEngine.notes_get _); reflexivity.
Qed.

(** X8.  The sharp and the flat spelling of one pitch give one frequency,
    whatever follows the name: C#/Db, D#/Eb, F#/Gb, G#/Ab and A#/Bb. *)
Theorem noteToFrequency_enharmonic (digits : string) :
  fst (AudioEngine.noteToFrequency ("C#" +:+ digits)) =
    fst (AudioEngine.noteToFrequency ("Db" +:+ digits)) /\
  fst (AudioEngine.noteToFrequency ("D#" +:+ digits)) =
    fst (AudioEngine.noteToFrequency ("Eb" +:+ digits)) /\
  fst (AudioEngine.noteToFrequency ("F#" +:+ digits)) =
    fst (AudioEngine.noteToFrequency ("Gb" +:+ digits)) /\
  fst (AudioEngine.noteToFrequency ("G#" +:+ digits)) =
    fst (AudioEngine.noteToFrequency ("Ab" +:+ digits)) /\
  fst (AudioEngine.noteToFrequency ("A#" +:+ digits)) =
    fst (AudioEngine.noteToFrequency ("Bb" +:+ digits)).
Proof.
  repeat split; apply enharmonic_pair; reflexivity.
Qed.

Lemma toUpperCase_note_letter (c : ascii) :
  is_note_letter (toUpperCase c) = is_note_letter c /\
  toUpperCase (toUpperCase c) = toUpperCase c.
Proof.
  destruct c as [[] [] [] [] [] [] [] []]; split; reflexivity.
Qed.

(** X9.  The case of the first letter does not matter: the frequency is the
    same for the upper-case letter, and a warning is written for the one
    exactly when it is written for the other. *)
Theorem noteToFrequency_letter_case (c : ascii) (rest : string) :
  fst (AudioEngine.noteToFrequency (String c rest)) =
    fst (AudioEngine.noteToFrequency (String (toUpperCase c) rest)) /\
  (snd (AudioEngine.noteToFrequency (String c rest)) = [] <->
   snd (AudioEngine.noteToFrequency (String (toUpperCase c) rest)) = []).
Proof.
  destruct (toUpperCase_note_letter c) as [Hl Hu].
  unfold AudioEngine.noteToFrequency, AudioEngine.note_match. rewrite Hl.
  destruct (is_note_letter c); [|split; [reflexivity | split; discriminate]].
  assert (Hcase : forall (acc : string) (o : option string),
    let r u := match (fun d => (String u acc, d)) <$> o with
               | None => (440, [("Invalid note format: " +:+ String u rest)%string])
               | Some (m1, m2) =>
                   match AudioEngine.notes_get (AudioEngine.capitalise m1) with
                   | None => (440, [("Unknown note: " +:+ AudioEngine.capitalise m1)%string])
                   | Some semitone =>
                       (440 * Math_pow2 (IZR (semitone - 9 + (parseInt m2 - 4) * 12) / 12), [])
                   end
               end in
    fst (r c) = fst (r (toUpperCase c)) /\ (snd (r c) = [] <-> snd (r (toUpperCase c)) = [])).
  { intros acc [d|]; cbn [fmap option_fmap option_map AudioEngine.capitalise]; rewrite ?Hu.
    - destruct (AudioEngine.notes_get _); split; reflexivity || tauto.
    - split; [reflexivity | split; discriminate]. }
  destruct rest as [|a rest'].
  - exact (Hcase ""%string (AudioEngine.match_digits ""%string)).
  - destruct (is_accidental a).
    + destruct (AudioEngine.match_digits rest') as [d|].
      * exact (Hcase (String a "") (Some d)).
      * exact (Hcase ""%string (AudioEngine.match_digits (String a rest'))).
    + exact (Hcase ""%string (AudioEngine.match_digits (String a rest'))).
Qed.

Lemma frequencies_positive (s : string) (m : R) :
  0 < fst (AudioEngine.noteToFrequency s) /\ 0 < AudioEngine.midiToFrequency m.
Proof.
  assert (Hp : forall x, 0 < 440 * Math_pow2 x).
  { intros x. unfold Math_pow2, Rpower. pose proof (exp_pos (x * ln 2)). lra. }
  split; [|apply Hp].
  unfold AudioEngine.noteToFrequency.
  destruct (AudioEngine.note_match s) as [[m1 m2]|]; [|simpl; lra].
  destruct (AudioEngine.notes_get _); [apply Hp | simpl; lra].
Qed.

(** ** The exponential ramps of the whole engine *)

Lemma floored_same_params (ctx ctx' : AudioContext) :
  (forall r, param_get ctx' r = param_get ctx r) ->
  ctx_exp_ramps_floored ctx -> ctx_exp_ramps_floored ctx'.
Proof. intros Heq Hctx r p Hget. rewrite Heq in Hget. exact (Hctx r p Hget). Qed.

Lemma env_triggerRelease_floored (e : nat) (t : option R) (h : Store) :
  ctx_exp_ramps_floored (context h) ->
  ctx_exp_ramps_floored (context (env_triggerRelease e t h)).
Proof.
  intros Hctx. unfold env_triggerRelease.
  destruct (envelopes h !! e) as [env|]; [|exact Hctx].
  pose proof (triggerRelease_floored t env (context h) Hctx) as H.
  destruct (Envelope.triggerRelease t env (context h)) as [env' ctx']. exact H.
Qed.

Lemma fade_gain_floored (st r : R) (h : Store) (g : nat) :
  ctx_exp_ramps_floored (context h) ->
  ctx_exp_ramps_floored (context (Synth.fade_gain st r h g)).
Proof.
  intros Hctx. unfold Synth.fade_gain, on_context. cbn [context].
  repeat (apply floored_param_modify; [intros p; apply floored_schedule; exact I|]).
  exact Hctx.
Qed.

Lemma release_voice_floored (v : ActiveVoice.t) (stopTime : R) (h : Store) :
  ctx_exp_ramps_floored (context h) ->
  ctx_exp_ramps_floored (context (Synth.release_voice v stopTime h)).
Proof.
  intros Hctx. unfold Synth.release_voice.
  eapply floored_same_params; [intros r; apply fold_try_stop_param|].
  generalize (ActiveVoice.gainNodes v). intros l.
  assert (H0 : ctx_exp_ramps_floored
            (context (env_triggerRelease (ActiveVoice.filterEnvelope v) (Some stopTime)
               (env_triggerRelease (ActiveVoice.volumeEnvelope v) (Some stopTime) h)))).
  { apply env_triggerRelease_floored, env_triggerRelease_floored, Hctx. }
  revert H0. generalize (env_triggerRelease (ActiveVoice.filterEnvelope v) (Some stopTime)
               (env_triggerRelease (ActiveVoice.volumeEnvelope v) (Some stopTime) h)).
  induction l as [|g l IH]; intros h0 H0; simpl; [exact H0|].
  apply IH, fade_gain_floored, H0.
Qed.

Lemma stopNote_floored (n : string) (t : option R) (s : Synth.t) :
  ctx_exp_ramps_floored (context (Synth.store s)) ->
  ctx_exp_ramps_floored (context (Synth.store (Synth.stopNote n t s))).
Proof.
  intros Hctx. destruct (JSMap.get n (Synth.activeVoices s)) as [v|] eqn:Hg.
  - rewrite (stopNote_store _ _ _ _ Hg). apply release_voice_floored, Hctx.
  - unfold Synth.stopNote. rewrite Hg. exact Hctx.
Qed.

Lemma floored_ext (b : Store) (G : list GainNode) (F : list BiquadFilterNode)
    (O : list OscillatorNode) (E : list Envelope.t) :
  ctx_exp_ramps_floored (context b) ->
  Forall (fun g => exp_ramps_floored (gain g)) G ->
  Forall (fun f => exp_ramps_floored (frequency f)) F ->
  ctx_exp_ramps_floored (context (ext b G F O E)).
Proof.
  intros Hb HG HF r p Hget. unfold ext in Hget. cbn [context] in Hget.
  destruct r as [g|f]; cbn [param_get gain_nodes filter_nodes] in Hget.
  - destruct ((gain_nodes (context b) ++ G) !! g) as [node|] eqn:Hl; [|discriminate].
    injection Hget as <-. apply lookup_app_Some in Hl as [Hl | [_ Hl]].
    + apply (Hb (gain_of g)). cbn [param_get]. rewrite Hl. reflexivity.
    + exact (proj1 (Forall_lookup _ _) HG _ _ Hl).
  - destruct ((filter_nodes (context b) ++ F) !! f) as [node|] eqn:Hl; [|discriminate].
    injection Hget as <-. apply lookup_app_Some in Hl as [Hl | [_ Hl]].
    + apply (Hb (frequency_of f)). cbn [param_get]. rewrite Hl. reflexivity.
    + exact (proj1 (Forall_lookup _ _) HF _ _ Hl).
Qed.

Lemma triggered_param_floored (now : R) (e : Envelope.t) (v : R) :
  exp_ramps_floored (append_calls (Envelope.trigger_calls now e) (mkAudioParam v [])).
Proof.
  intros w t Hin. cbn [append_calls automation app] in Hin.
  pose proof (trigger_calls_floored now e) as Hf.
  exact (proj1 (Forall_forall _ _) Hf _ Hin).
Qed.

Lemma start_voice_floored (n : string) (st : R) (s : Synth.t) :
  ctx_exp_ramps_floored (context (Synth.store s)) ->
  ctx_exp_ramps_floored (context (Synth.store (Synth.start_voice n st s))).
Proof.
  intros Hctx. rewrite start_voice_store. unfold voice_store.
  apply floored_ext; [exact Hctx | |];
    repeat (apply Forall_cons_2; [apply triggered_param_floored|]); apply Forall_nil_2.
Qed.

Lemma playNote_floored (n : string) (t : option R) (s : Synth.t) :
  ctx_exp_ramps_floored (context (Synth.store s)) ->
  ctx_exp_ramps_floored (context (Synth.store (Synth.playNote n t s))).
Proof.
  intros Hctx. rewrite playNote_eq. apply start_voice_floored.
  destruct (JSMap.has n (Synth.activeVoices s)); [apply stopNote_floored|]; exact Hctx.
Qed.

Lemma set_detune_param (o : nat) (v : R) (ctx : AudioContext) (r : AudioParamRef) :
  param_get (osc_set_detune o v ctx) r = param_get ctx r.
Proof. destruct r; reflexivity. Qed.

Lemma updateOscillator_params (k : string) (p : Synth.OscillatorParam) (s : Synth.t)
    (r : AudioParamRef) :
  param_get (context (Synth.store (Synth.updateOscillator k p s))) r =
    param_get (context (Synth.store s)) r.
Proof.
  unfold Synth.updateOscillator.
  destruct (Synth.oscillators_get k s); [|reflexivity].
  assert (Hput : forall o', Synth.store (Synth.oscillators_put k o' s) = Synth.store s).
  { intros o'. unfold Synth.oscillators_put.
    repeat (destruct (String.eqb k _)); reflexivity. }
  destruct p; try (rewrite Hput; reflexivity).
  cbn [Synth.store Synth.with_store]. rewrite Hput.
  generalize (JSMap.values (Synth.activeVoices (Synth.oscillators_put k
     (OscillatorSettings.mk (OscillatorSettings.range t) (OscillatorSettings.waveform t) v) s))).
  generalize (Synth.store s).
  intros h l. revert h. induction l as [|voice l IH]; intros h; simpl; [reflexivity|].
  rewrite IH. destruct (ActiveVoice.oscillators voice !! _); [|reflexivity].
  apply set_detune_param.
Qed.

Lemma step_floored (o : Op) (s : Synth.t) :
  ctx_exp_ramps_floored (context (Synth.store s)) ->
  ctx_exp_ramps_floored (context (Synth.store (step s o))).
Proof.
  intros Hctx. destruct o; simpl; try exact Hctx.
  - apply playNote_floored, Hctx.
  - apply stopNote_floored, Hctx.
  - unfold Synth.stopAll. generalize (JSMap.keys (Synth.activeVoices s)). intros l.
    revert s Hctx. induction l as [|n l IH]; intros s Hctx; simpl; [exact Hctx|].
    apply IH, stopNote_floored, Hctx.
  - unfold Synth.setNoiseLevel. destruct (Rlt_dec 0 v); exact Hctx.
  - eapply floored_same_params; [apply updateOscillator_params | exact Hctx].
  - apply assign_value_floored, Hctx.
Qed.

(** X10.  In every state reached from a new engine, every exponential ramp
    recorded on the gain of a voice's gain node or on the frequency of a
    voice's filter ends at 1e-4 or above, so none ends at 0: the attack, the
    decay and the release of the envelopes are floored, and the fade to 0
    that [stopNote] adds is a linear ramp. *)
Theorem engine_exp_ramps_floored (volume : option R) (now : R) (ops : list Op) :
  ctx_exp_ramps_floored (context (Synth.store (run ops (Synth.new volume now)))).
Proof.
  assert (H : forall s, ctx_exp_ramps_floored (context (Synth.store s)) ->
            ctx_exp_ramps_floored (context (Synth.store (run ops s)))).
  { induction ops as [|o ops IH]; intros s Hs; simpl; [exact Hs|].
    apply IH, step_floored, Hs. }
  apply H. intros r p Hget. destruct r; discriminate Hget.
Qed.

(** ** What [playNote] builds *)

Lemma env_triggerRelease_currentTime (e : nat) (t : option R) (h : Store) :
  currentTime (context (env_triggerRelease e t h)) = currentTime (context h).
Proof.
  unfold env_triggerRelease. destruct (envelopes h !! e) as [env|]; [|reflexivity].
  unfold Envelope.triggerRelease. destruct (Envelope.param env); [|reflexivity].
  cbn [context]. apply schedule_all_currentTime.
Qed.

Lemma try_stop_currentTime (e : R) (h : Store) (o : nat) :
  currentTime (context (Synth.try_stop e h o)) = currentTime (context h).
Proof.
  unfold Synth.try_stop, on_context, osc_stop. cbn [context].
  destruct (oscillator_nodes (context h) !! o) as [n0|]; [|reflexivity].
  destruct (start_time n0); reflexivity.
Qed.

Lemma release_voice_currentTime (v : ActiveVoice.t) (stopTime : R) (h : Store) :
  currentTime (context (Synth.release_voice v stopTime h)) = currentTime (context h).
Proof.
  unfold Synth.release_voice.
  assert (Hstop : forall l h0, currentTime (context (foldl (Synth.try_stop
              (stopTime + ActiveVoice.releaseTime v + 0.1)) h0 l)) = currentTime (context h0)).
  { induction l as [|o l IH]; intros h0; simpl; [reflexivity|].
    rewrite IH. apply try_stop_currentTime. }
  assert (Hfade : forall l h0, currentTime (context (foldl (Synth.fade_gain stopTime
              (ActiveVoice.releaseTime v)) h0 l)) = currentTime (context h0)).
  { induction l as [|g l IH]; intros h0; simpl; [reflexivity|].
    rewrite IH. reflexivity. }
  rewrite Hstop, Hfade, !env_triggerRelease_currentTime. reflexivity.
Qed.

(** What [stopNote] leaves alone. *)
Lemma stopNote_frame (n : string) (t : option R) (s : Synth.t) :
  let s' := Synth.stopNote n t s in
  Synth.osc1 s' = Synth.osc1 s /\ Synth.osc2 s' = Synth.osc2 s /\
  Synth.osc3 s' = Synth.osc3 s /\
  Synth.console s' = Synth.console s /\
  Synth.noiseFilter s' = Synth.noiseFilter s /\
  Synth.noiseLevel s' = Synth.noiseLevel s /\
  Synth.noiseStarted s' = Synth.noiseStarted s /\
  Synth.masterVolume s' = Synth.masterVolume s /\
  currentTime (context (Synth.store s')) = currentTime (context (Synth.store s)).
Proof.
  intros s'. subst s'.
  destruct (JSMap.get n (Synth.activeVoices s)) as [v|] eqn:Hg.
  - repeat split; try (unfold Synth.stopNote; rewrite Hg;
      cbn [Synth.activeVoices Synth.with_activeVoices Synth.with_store];
      destruct (JSMap.size _ =? 0)%nat; reflexivity).
    rewrite (stopNote_store _ _ _ _ Hg). apply release_voice_currentTime.
  - unfold Synth.stopNote. rewrite Hg. repeat split.
Qed.

Lemma stopped_first_frame (n : string) (s : Synth.t) :
  let s0 := if JSMap.has n (Synth.activeVoices s) then Synth.stopNote n None s else s in
  Synth.osc1 s0 = Synth.osc1 s /\ Synth.osc2 s0 = Synth.osc2 s /\
  Synth.osc3 s0 = Synth.osc3 s /\
  Synth.console s0 = Synth.console s /\
  Synth.noiseFilter s0 = Synth.noiseFilter s /\
  Synth.noiseLevel s0 = Synth.noiseLevel s /\
  Synth.noiseStarted s0 = Synth.noiseStarted s /\
  Synth.masterVolume s0 = Synth.masterVolume s /\
  currentTime (context (Synth.store s0)) = currentTime (context (Synth.store s)).
Proof.
  destruct (JSMap.has n (Synth.activeVoices s)); [apply stopNote_frame|].
  repeat split.
Qed.

Lemma rangeToFrequency_positive (f : R) (range : Z) :
  0 < f -> 0 < Synth.rangeToFrequency f range.
Proof.
  intros Hf. unfold Synth.rangeToFrequency.
  repeat (match goal with |- context [match ?x with _ => _ end] => destruct x end);
    lra.
Qed.

(** X11.  [playNote] never rejects a name.  It records, under the name, a
    voice with three new oscillators, one per slot in the order osc1, osc2,
    osc3.  Each has the waveform and the detune of its slot and the
    frequency [rangeToFrequency] gives for the note's frequency and the
    slot's range, which is positive; each is started at the start time
    given (the current time when none is given) and has no stop.  The note's
    frequency is the one [noteToFrequency] answers, 440 Hz for a name it does
    not accept, whose warning then goes to the console; the noise filter is
    tuned to that frequency. *)
Theorem playNote_builds_oscillators (n : string) (t : option R) (s : Synth.t) :
  let f := fst (AudioEngine.noteToFrequency n) in
  let st := default (currentTime (context (Synth.store s))) t in
  let s1 := Synth.playNote n t s in
  let node (slot : OscillatorSettings.t) :=
    {| osc_type := OscillatorSettings.waveform slot;
       osc_frequency :=
         mkAudioParam (Synth.rangeToFrequency f (OscillatorSettings.range slot)) [];
       detune := mkAudioParam (OscillatorSettings.detune slot) [];
       start_time := Some st;
       stop_time := None |} in
  exists v o1 o2 o3,
    JSMap.get n (Synth.activeVoices s1) = Some v /\
    ActiveVoice.note v = n /\
    ActiveVoice.oscillators v = [o1; o2; o3] /\
    ActiveVoice.releaseTime v = EnvelopeOptions.release (Synth.volumeEnvelopeSettings s) /\
    oscillator_nodes (context (Synth.store s1)) !! o1 = Some (node (Synth.osc1 s)) /\
    oscillator_nodes (context (Synth.store s1)) !! o2 = Some (node (Synth.osc2 s)) /\
    oscillator_nodes (context (Synth.store s1)) !! o3 = Some (node (Synth.osc3 s)) /\
    (forall slot, 0 < value (osc_frequency (node slot))) /\
    Synth.console s1 = (Synth.console s ++ snd (AudioEngine.noteToFrequency n))%list /\
    value (frequency (Synth.noiseFilter s1)) = f.
Proof.
  intros f st s1 node. subst s1. rewrite playNote_eq. fold st.
  set (s0 := if JSMap.has n (Synth.activeVoices s) then Synth.stopNote n None s else s).
  destruct (stopped_first_frame n s) as (H1 & H2 & H3 & Hc & Hnf & _). fold s0 in H1, H2, H3, Hc, Hnf.
  destruct (stopped_first_settings n s) as [Hv _]. fold s0 in Hv.
  exists (new_voice s0 n), (n_oscillators (Synth.store s0) + 0)%nat,
    (n_oscillators (Synth.store s0) + 1)%nat, (n_oscillators (Synth.store s0) + 2)%nat.
  rewrite start_voice_get, start_voice_store.
  split; [reflexivity|]. split; [reflexivity|]. split; [reflexivity|].
  split; [cbn [new_voice ActiveVoice.releaseTime]; rewrite Hv; reflexivity|].
  unfold voice_store, ext. cbn [context oscillator_nodes]. unfold n_oscillators.
  rewrite !lookup_at. cbn [lookup list_lookup]. rewrite H1, H2, H3.
  split; [reflexivity|]. split; [reflexivity|]. split; [reflexivity|].
  split.
  { intros slot. cbn [node osc_frequency value]. apply rangeToFrequency_positive.
    exact (proj1 (frequencies_positive n 0)). }
  rewrite start_voice_eq.
  cbn [Synth.console Synth.with_activeVoices Synth.with_noiseGate Synth.with_noiseFilter
       Synth.with_store Synth.with_console Synth.noiseFilter].
  rewrite Hc. split; reflexivity.
Qed.

(** X12.  The voice [playNote] records has three new gain nodes and three
    new filters, one pair per oscillator.  Each gain starts at 0 and each
    filter at the cutoff frequency, with the filter type and the Q of the
    settings; on each gain the calls of [trigger] for the volume settings are
    recorded, on each filter frequency those for the filter settings with the
    contour applied, and nothing else.  The envelopes are triggered at the
    start time given or at the current time, whichever is later. *)
Theorem playNote_builds_gains_and_filters (n : string) (t : option R) (s : Synth.t) :
  let st := default (currentTime (context (Synth.store s))) t in
  let now := Rmax st (currentTime (context (Synth.store s))) in
  let fs := Synth.filterEnvelopeSettings s in
  let s1 := Synth.playNote n t s in
  let volume_calls :=
    Envelope.trigger_calls now (Envelope.new (Synth.volumeEnvelopeSettings s)) in
  let filter_calls :=
    Envelope.trigger_calls now (Envelope.new (Synth.filter_envelope_options fs)) in
  exists v,
    JSMap.get n (Synth.activeVoices s1) = Some v /\
    length (ActiveVoice.gainNodes v) = 3%nat /\
    length (ActiveVoice.filters v) = 3%nat /\
    (forall k g, ActiveVoice.gainNodes v !! k = Some g ->
       gain_nodes (context (Synth.store s1)) !! g =
         Some {| gain := {| value := 0; automation := volume_calls |} |}) /\
    (forall k fl, ActiveVoice.filters v !! k = Some fl ->
       filter_nodes (context (Synth.store s1)) !! fl =
         Some {| filter_type := FilterEnvelopeSettings.filterType fs;
                 frequency :=
                   {| value := FilterEnvelopeSettings.cutoffFrequency fs;
                      automation := filter_calls |};
                 Q := mkAudioParam (FilterEnvelopeSettings.Q fs) [] |}).
Proof.
  intros st now fs s1 volume_calls filter_calls. subst s1. rewrite playNote_eq. fold st.
  set (s0 := if JSMap.has n (Synth.activeVoices s) then Synth.stopNote n None s else s).
  destruct (stopped_first_frame n s) as (_ & _ & _ & _ & _ & _ & _ & _ & Hct).
  fold s0 in Hct.
  destruct (stopped_first_settings n s) as [Hv Hf]. fold s0 in Hv, Hf.
  exists (new_voice s0 n).
  rewrite start_voice_get, start_voice_store.
  split; [reflexivity|]. split; [reflexivity|]. split; [reflexivity|].
  unfold voice_store, ext. cbn [context gain_nodes filter_nodes].
  cbn [new_voice ActiveVoice.gainNodes ActiveVoice.filters].
  unfold n_gains, n_filters.
  assert (Hnow : voice_trigger_time s0 st = now).
  { unfold voice_trigger_time, Math_max. rewrite Hct. reflexivity. }
  split.
  - intros k g Hk.
    do 3 (destruct k as [|k];
          [ injection Hk as <-; rewrite lookup_at; cbn [lookup list_lookup];
            unfold voice_gain; rewrite Hnow; unfold voice_volume_envelope; rewrite Hv;
            reflexivity |]).
    discriminate Hk.
  - intros k fl Hk.
    do 3 (destruct k as [|k];
          [ injection Hk as <-; rewrite lookup_at; cbn [lookup list_lookup];
            unfold voice_filter; rewrite Hnow; unfold voice_filter_envelope; rewrite Hf;
            reflexivity |]).
    discriminate Hk.
Qed.

(** ** The nodes keep what they were created with *)

Lemma nodes_kept_refl (ctx : AudioContext) : nodes_kept ctx ctx.
Proof. split; intros i n Hl; exists n; auto. Qed.

Lemma nodes_kept_trans (c1 c2 c3 : AudioContext) :
  nodes_kept c1 c2 -> nodes_kept c2 c3 -> nodes_kept c1 c3.
Proof.
  intros [Hf1 Ho1] [Hf2 Ho2]. split.
  - intros i f Hl. destruct (Hf1 i f Hl) as (f' & Hl' & Ht & Hq).
    destruct (Hf2 i f' Hl') as (f'' & Hl'' & Ht' & Hq').
    exists f''. split; [exact Hl''|]. split; congruence.
  - intros o n Hl. destruct (Ho1 o n Hl) as (n' & Hl' & Ht & Hfr & Hs).
    destruct (Ho2 o n' Hl') as (n'' & Hl'' & Ht' & Hfr' & Hs').
    exists n''. split; [exact Hl''|]. split; [congruence|]. split; [congruence|].
    intros HS. rewrite <- (Hs HS). apply Hs'. rewrite (Hs HS). exact HS.
Qed.

Lemma nodes_kept_param_modify (f : AudioParam -> AudioParam) (r : AudioParamRef)
    (ctx : AudioContext) :
  nodes_kept ctx (param_modify f r ctx).
Proof.
  destruct r as [g|i]; [split; intros j n Hl; exists n; auto|]. split.
  - intros j n Hl. cbn [param_modify filter_nodes]. rewrite list_lookup_alter.
    destruct (decide (i = j)) as [->|Hne]; [|exists n; auto].
    rewrite Hl. simpl. eexists. split; [reflexivity|]. split; reflexivity.
  - intros o n Hl. exists n. auto.
Qed.

Lemma nodes_kept_foldl {A : Type} (f : AudioContext -> A -> AudioContext) (l : list A)
    (ctx : AudioContext) :
  (forall c a, nodes_kept c (f c a)) -> nodes_kept ctx (foldl f ctx l).
Proof.
  intros Hf. revert ctx. induction l as [|a l IH]; intros ctx; simpl.
  - apply nodes_kept_refl.
  - exact (nodes_kept_trans _ _ _ (Hf ctx a) (IH _)).
Qed.

Lemma nodes_kept_schedule_all (cs : list AutomationCall) (r : AudioParamRef)
    (ctx : AudioContext) :
  nodes_kept ctx (schedule_all cs r ctx).
Proof. apply nodes_kept_foldl. intros c a. apply nodes_kept_param_modify. Qed.

Lemma nodes_kept_env_triggerRelease (e : nat) (t : option R) (h : Store) :
  nodes_kept (context h) (context (env_triggerRelease e t h)).
Proof.
  unfold env_triggerRelease. destruct (envelopes h !! e) as [env|]; [|apply nodes_kept_refl].
  unfold Envelope.triggerRelease.
  destruct (Envelope.param env); [|apply nodes_kept_refl].
  cbn [context]. apply nodes_kept_schedule_all.
Qed.

Lemma nodes_kept_fade_gain (st r : R) (h : Store) (g : nat) :
  nodes_kept (context h) (context (Synth.fade_gain st r h g)).
Proof. split; intros j n Hl; exists n; auto. Qed.

Lemma nodes_kept_try_stop (e : R) (h : Store) (o : nat) :
  nodes_kept (context h) (context (Synth.try_stop e h o)).
Proof.
  unfold Synth.try_stop, on_context, osc_stop. cbn [context].
  destruct (oscillator_nodes (context h) !! o) as [n0|] eqn:Ho; [|apply nodes_kept_refl].
  destruct (start_time n0) as [t0|] eqn:Hs0; [|apply nodes_kept_refl].
  simpl. split; [intros i f Hl; exists f; auto|].
  intros o' n Hl. cbn [oscillator_nodes].
  destruct (decide (o = o')) as [->|Hne].
  - rewrite list_lookup_insert_eq by (apply lookup_lt_Some in Ho; exact Ho).
    assert (n = n0) as -> by congruence.
    eexists. split; [reflexivity|]. auto.
  - rewrite list_lookup_insert_ne by exact Hne. exists n. auto.
Qed.

Lemma nodes_kept_store_foldl {A : Type} (f : Store -> A -> Store) (l : list A) (h : Store) :
  (forall h a, nodes_kept (context h) (context (f h a))) ->
  nodes_kept (context h) (context (foldl f h l)).
Proof.
  intros Hf. revert h. induction l as [|a l IH]; intros h; simpl.
  - apply nodes_kept_refl.
  - exact (nodes_kept_trans _ _ _ (Hf h a) (IH _)).
Qed.

Lemma nodes_kept_release_voice (v : ActiveVoice.t) (stopTime : R) (h : Store) :
  nodes_kept (context h) (context (Synth.release_voice v stopTime h)).
Proof.
  unfold Synth.release_voice.
  eapply nodes_kept_trans; [apply (nodes_kept_env_triggerRelease (ActiveVoice.volumeEnvelope v))|].
  eapply nodes_kept_trans; [apply (nodes_kept_env_triggerRelease (ActiveVoice.filterEnvelope v))|].
  eapply nodes_kept_trans;
    [apply (nodes_kept_store_foldl (Synth.fade_gain stopTime (ActiveVoice.releaseTime v)));
     intros h0 g; apply nodes_kept_fade_gain|].
  apply nodes_kept_store_foldl. intros h0 o. apply nodes_kept_try_stop.
Qed.

Lemma nodes_kept_stopNote (n : string) (t : option R) (s : Synth.t) :
  nodes_kept (context (Synth.store s)) (context (Synth.store (Synth.stopNote n t s))).
Proof.
  destruct (JSMap.get n (Synth.activeVoices s)) as [v|] eqn:Hg.
  - rewrite (stopNote_store _ _ _ _ Hg). apply nodes_kept_release_voice.
  - unfold Synth.stopNote. rewrite Hg. apply nodes_kept_refl.
Qed.

Lemma nodes_kept_ext (b : Store) (G : list GainNode) (F : list BiquadFilterNode)
    (O : list OscillatorNode) (E : list Envelope.t) :
  nodes_kept (context b) (context (ext b G F O E)).
Proof.
  unfold ext. cbn [context]. split.
  - intros i f Hl. exists f. cbn [filter_nodes]. rewrite (lookup_app_l_Some _ _ _ _ Hl). auto.
  - intros o n Hl. exists n. cbn [oscillator_nodes].
    rewrite (lookup_app_l_Some _ _ _ _ Hl). auto.
Qed.

Lemma nodes_kept_playNote (n : string) (t : option R) (s : Synth.t) :
  nodes_kept (context (Synth.store s)) (context (Synth.store (Synth.playNote n t s))).
Proof.
  rewrite playNote_eq, start_voice_store. unfold voice_store.
  eapply nodes_kept_trans; [|apply nodes_kept_ext].
  destruct (JSMap.has n (Synth.activeVoices s)); [apply nodes_kept_stopNote|apply nodes_kept_refl].
Qed.

Lemma nodes_kept_set_detune (o : nat) (v : R) (ctx : AudioContext) :
  nodes_kept ctx (osc_set_detune o v ctx).
Proof.
  split; [intros i f Hl; exists f; auto|].
  intros o' n Hl. cbn [osc_set_detune oscillator_nodes]. rewrite list_lookup_alter.
  destruct (decide (o = o')) as [->|Hne]; [|exists n; auto].
  rewrite Hl. simpl. eexists. split; [reflexivity|]. auto.
Qed.

Lemma nodes_kept_updateOscillator (k : string) (p : Synth.OscillatorParam) (s : Synth.t) :
  nodes_kept (context (Synth.store s))
    (context (Synth.store (Synth.updateOscillator k p s))).
Proof.
  unfold Synth.updateOscillator.
  destruct (Synth.oscillators_get k s); [|apply nodes_kept_refl].
  assert (Hput : forall o', Synth.store (Synth.oscillators_put k o' s) = Synth.store s).
  { intros o'. unfold Synth.oscillators_put.
    repeat (destruct (String.eqb k _)); reflexivity. }
  destruct p; try (rewrite Hput; apply nodes_kept_refl).
  cbn [Synth.store Synth.with_store]. rewrite Hput.
  apply nodes_kept_store_foldl. intros h voice.
  destruct (ActiveVoice.oscillators voice !! _); [|apply nodes_kept_refl].
  apply nodes_kept_set_detune.
Qed.

Lemma nodes_kept_step (o : Op) (s : Synth.t) :
  nodes_kept (context (Synth.store s)) (context (Synth.store (step s o))).
Proof.
  destruct o; simpl; try apply nodes_kept_refl.
  - apply nodes_kept_playNote.
  - apply nodes_kept_stopNote.
  - unfold Synth.stopAll. generalize (JSMap.keys (Synth.activeVoices s)). intros l.
    revert s. induction l as [|n l IH]; intros s; simpl; [apply nodes_kept_refl|].
    exact (nodes_kept_trans _ _ _ (nodes_kept_stopNote n None s) (IH _)).
  - unfold Synth.setNoiseLevel. destruct (Rlt_dec 0 v); apply nodes_kept_refl.
  - apply nodes_kept_updateOscillator.
  - split; intros i n Hl; exists n; auto.
  - apply nodes_kept_param_modify.
Qed.

(** X13.  Whatever is done to the engine, a filter that exists keeps its
    type and its Q, and an oscillator that exists keeps its waveform, its
    frequency and, once started, its start time: changing the filter type,
    the emphasis, the cutoff, a range or a waveform reaches the notes played
    afterwards only. *)
Theorem nodes_keep_their_settings (s : Synth.t) (ops : list Op) :
  nodes_kept (context (Synth.store s)) (context (Synth.store (run ops s))).
Proof.
  revert s. induction ops as [|o ops IH]; intros s; simpl.
  - apply nodes_kept_refl.
  - exact (nodes_kept_trans _ _ _ (nodes_kept_step o s) (IH _)).
Qed.

(** ** The noise source *)

Lemma step_noiseStarted (o : Op) (s : Synth.t) :
  Synth.noiseStarted (step s o) = true <->
  Synth.noiseStarted s = true \/ asks_for_noise o.
Proof.
  assert (Hstop : forall l s0,
            Synth.noiseStarted (foldl (fun s n => Synth.stopNote n None s) s0 l) =
            Synth.noiseStarted s0).
  { induction l as [|n l IH]; intros s0; simpl; [reflexivity|].
    rewrite IH. apply (stopNote_frame n None s0). }
  destruct o; simpl; try tauto.
  - rewrite playNote_eq, start_voice_eq.
    cbn [Synth.noiseStarted Synth.with_activeVoices Synth.with_noiseGate
         Synth.with_noiseFilter Synth.with_store Synth.with_console].
    rewrite (proj1 (proj2 (proj2 (proj2 (proj2 (proj2 (proj2 (stopped_first_frame note s)))))))).
    tauto.
  - rewrite (proj1 (proj2 (proj2 (proj2 (proj2 (proj2 (proj2 (stopNote_frame note stopTime s)))))))).
    tauto.
  - unfold Synth.stopAll. rewrite Hstop. tauto.
  - unfold Synth.setNoiseLevel. destruct (Rlt_dec 0 v); simpl; tauto.
  - unfold Synth.updateOscillator.
    destruct (Synth.oscillators_get oscKey s); [|tauto].
    unfold Synth.oscillators_put.
    destruct p; repeat (destruct (String.eqb oscKey _)); simpl; tauto.
Qed.

(** X14.  The noise source is started by the first call of [setNoiseLevel]
    with a positive value and by nothing else: in a state reached from a new
    engine it has been started exactly when the operations so far include
    such a call.  Playing notes opens the gate but does not start it. *)
Theorem noise_started_by_positive_level (volume : option R) (now : R) (ops : list Op) :
  Synth.noiseStarted (run ops (Synth.new volume now)) = true <->
  Exists asks_for_noise ops.
Proof.
  assert (H : forall s, Synth.noiseStarted (run ops s) = true <->
                        Synth.noiseStarted s = true \/ Exists asks_for_noise ops).
  { induction ops as [|o ops IH]; intros s; simpl.
    - rewrite Exists_nil. tauto.
    - rewrite IH, step_noiseStarted, Exists_cons. tauto. }
  rewrite H. simpl. split; [intros [Hf|He]; [discriminate|exact He] | auto].
Qed.

(** ** Detuning a slot while notes sound *)

Lemma retune_lookup (i : nat) (v : R) (h : Store) (voice : ActiveVoice.t) (x : nat) :
  oscillator_nodes (context (retune i v h voice)) !! x =
    if decide (ActiveVoice.oscillators voice !! i = Some x)
    then set_detune v <$> oscillator_nodes (context h) !! x
    else oscillator_nodes (context h) !! x.
Proof.
  unfold retune. destruct (ActiveVoice.oscillators voice !! i) as [o|] eqn:Ho.
  - cbn [on_context context osc_set_detune oscillator_nodes]. rewrite list_lookup_alter.
    destruct (decide (o = x)) as [->|Hne].
    + rewrite decide_True by reflexivity. reflexivity.
    + rewrite decide_False by congruence. reflexivity.
  - rewrite decide_False by discriminate. reflexivity.
Qed.

Lemma set_detune_twice (v : R) (n : OscillatorNode) :
  set_detune v (set_detune v n) = set_detune v n.
Proof. reflexivity. Qed.

Lemma fold_retune_lookup (i : nat) (v : R) (l : list ActiveVoice.t) (h : Store) (x : nat) :
  oscillator_nodes (context (foldl (retune i v) h l)) !! x =
    if decide (Exists (fun voice => ActiveVoice.oscillators voice !! i = Some x) l)
    then set_detune v <$> oscillator_nodes (context h) !! x
    else oscillator_nodes (context h) !! x.
Proof.
  revert h. induction l as [|voice l IH]; intros h; cbn [foldl].
  - destruct (decide _) as [H|H]; [inversion H | reflexivity].
  - rewrite IH, retune_lookup.
    destruct (decide (ActiveVoice.oscillators voice !! i = Some x)) as [Hv|Hv];
      destruct (decide (Exists _ l)) as [Hl|Hl];
      destruct (decide (Exists _ (voice :: l))) as [Hc|Hc];
      try reflexivity;
      try (exfalso; apply Hc; apply Exists_cons; tauto);
      try (exfalso; apply Exists_cons in Hc; tauto).
    destruct (oscillator_nodes (context h) !! x); reflexivity.
Qed.

Lemma updateOscillator_detune_store (oscKey : string) (i : nat) (v : R) (s : Synth.t) :
  (oscKey, i) ∈ [("osc1"%string, 0%nat); ("osc2"%string, 1%nat); ("osc3"%string, 2%nat)] ->
  Synth.store (Synth.updateOscillator oscKey (Synth.param_detune v) s) =
    foldl (retune i v) (Synth.store s) (JSMap.values (Synth.activeVoices s)) /\
  Synth.activeVoices (Synth.updateOscillator oscKey (Synth.param_detune v) s) =
    Synth.activeVoices s /\
  (OscillatorSettings.detune <$>
     Synth.oscillators_get oscKey (Synth.updateOscillator oscKey (Synth.param_detune v) s)) =
    Some v.
Proof.
  intros Hin.
  repeat (apply elem_of_cons in Hin as [[= -> ->]|Hin]); [| | |inversion Hin];
    repeat split.
Qed.

(** X15.  [updateOscillator] with a detune, for one of the three slots,
    stores the value in the slot's settings and writes it to the oscillator
    of that slot in every voice of the table, sounding or not: the node keeps
    everything else.  An oscillator that is in that position in no voice is
    left as it was. *)
Theorem updateOscillator_detune_reaches_voices
    (oscKey : string) (i : nat) (v : R) (s : Synth.t) :
  (oscKey, i) ∈ [("osc1"%string, 0%nat); ("osc2"%string, 1%nat); ("osc3"%string, 2%nat)] ->
  let s' := Synth.updateOscillator oscKey (Synth.param_detune v) s in
  (OscillatorSettings.detune <$> Synth.oscillators_get oscKey s') = Some v /\
  Synth.activeVoices s' = Synth.activeVoices s /\
  (forall n voice o node,
     JSMap.get n (Synth.activeVoices s) = Some voice ->
     ActiveVoice.oscillators voice !! i = Some o ->
     oscillator_nodes (context (Synth.store s)) !! o = Some node ->
     oscillator_nodes (context (Synth.store s')) !! o = Some (set_detune v node) /\
     value (detune (set_detune v node)) = v) /\
  (forall x,
     (forall n voice, JSMap.get n (Synth.activeVoices s) = Some voice ->
        ActiveVoice.oscillators voice !! i <> Some x) ->
     NoDup (JSMap.keys (Synth.activeVoices s)) ->
     oscillator_nodes (context (Synth.store s')) !! x =
       oscillator_nodes (context (Synth.store s)) !! x).
Proof.
  intros Hin s'. destruct (updateOscillator_detune_store oscKey i v s Hin) as (Hst & Hact & Hset).
  fold s' in Hst, Hact, Hset.
  split; [exact Hset|]. split; [exact Hact|]. rewrite Hst. split.
  - intros n voice o node Hg Ho Hl. split; [|reflexivity].
    rewrite fold_retune_lookup, Hl. rewrite decide_True; [reflexivity|].
    apply Exists_exists. exists voice. split; [|exact Ho].
    apply get_Some_elem in Hg. apply list_elem_of_fmap. exists (n, voice). auto.
  - intros x Hx Hnd. rewrite fold_retune_lookup. rewrite decide_False; [reflexivity|].
    intros H. apply Exists_exists in H as (voice & Hv & Ho).
    apply list_elem_of_fmap in Hv as ([n voice'] & -> & Hv).
    exact (Hx n voice' (elem_get _ _ _ Hnd Hv) Ho).
Qed.

Lemma updateOscillator_detune_reaches_voices_witness :
  let s := Synth.playNote "A4" None (Synth.new None 0) in
  let s' := Synth.updateOscillator "osc2" (Synth.param_detune 7) s in
  (OscillatorSettings.detune <$> Synth.oscillators_get "osc2" s') = Some 7 /\
  Synth.activeVoices s' = Synth.activeVoices s.
Proof.
  intros s s'.
  pose proof (updateOscillator_detune_reaches_voices "osc2" 1 7 s
                ltac:(apply list_elem_of_further, list_elem_of_here)) as H.
  split; [exact (proj1 H) | exact (proj1 (proj2 H))].
Defined.

(** ** The envelope on its own: times *)

(** X16.  [trigger] never schedules in the past: whatever start time is
    given, the calls are made for the later of that time and the current
    time (the current time when none is given), and the attack ramp and the
    decay ramp each take 1 ms at least, whatever the settings. *)
Theorem trigger_times (startTime : option R) (e : Envelope.t) (ctx : AudioContext)
    (p : AudioParamRef) (a : AudioParam) :
  Envelope.param e = Some p ->
  param_get ctx p = Some a ->
  let now := Rmax (default (currentTime ctx) startTime) (currentTime ctx) in
  let attackEnd := now + Rmax (Envelope.attack e) 0.001 in
  let decayEnd := attackEnd + Rmax (Envelope.decay e) 0.001 in
  param_get (Envelope.trigger startTime e ctx) p =
    Some {| value := value a;
            automation := automation a ++
              [ cancelScheduledValues now;
                setValueAtTime (Rmax (Envelope.startLevel e) 0.0001) now;
                exponentialRampToValueAtTime (Rmax (Envelope.maxLevel e) 0.0001) attackEnd;
                exponentialRampToValueAtTime (Rmax (Envelope.sustain e) 0.0001) decayEnd ] |} /\
  currentTime ctx <= now /\
  (startTime = None -> now = currentTime ctx) /\
  (forall t, startTime = Some t -> t <= currentTime ctx -> now = currentTime ctx) /\
  now + 0.001 <= attackEnd /\
  attackEnd + 0.001 <= decayEnd.
Proof.
  intros Hp Ha now attackEnd decayEnd.
  split.
  { rewrite (trigger_unfold _ _ _ _ Hp). rewrite (schedule_all_get _ _ _ _ Ha). reflexivity. }
  subst now attackEnd decayEnd.
  repeat split.
  - apply Rmax_r.
  - intros ->. simpl. apply Rmax_left. lra.
  - intros t -> Ht. simpl. apply Rmax_right. exact Ht.
  - pose proof (Rmax_r (Envelope.attack e) 0.001). lra.
  - pose proof (Rmax_r (Envelope.decay e) 0.001). lra.
Qed.

Lemma trigger_times_witness :
  let e := Envelope.connect (gain_of 0)
             (Envelope.new (EnvelopeOptions.mk (-1) 0 0.5 0 None None)) in
  let ctx := snd (AudioEngine.createGain 0 (mkAudioContext 5 [] [] [])) in
  let now := Rmax 2 5 in
  currentTime ctx <= now /\ now + 0.001 <= now + Rmax (-1) 0.001.
Proof.
  intros e ctx now.
  pose proof (trigger_times (Some 2) e ctx (gain_of 0) (mkAudioParam 0 [])
                eq_refl eq_refl) as H.
  split; [exact (proj1 (proj2 H)) | exact (proj1 (proj2 (proj2 (proj2 (proj2 H)))))].
Defined.

(** X17.  [triggerRelease] on a connected envelope holds the value read
    from the parameter, floored at 1e-4, at the later of the release time
    given and the current time, and ramps to the start level, floored, over
    the release time or 1 ms, whichever is longer; it records that time as
    the start of the release and changes no setting.  [getEndTime] then
    answers the start of the release plus the release time: this is the end
    of the ramp when the release time is 1 ms or more, and earlier than the
    end of the ramp otherwise. *)
Theorem triggerRelease_schedule_and_end (releaseTime : option R) (e : Envelope.t)
    (ctx : AudioContext) (p : AudioParamRef) (a : AudioParam) :
  Envelope.param e = Some p ->
  param_get ctx p = Some a ->
  let now := Rmax (default (currentTime ctx) releaseTime) (currentTime ctx) in
  let rampEnd := now + Rmax (Envelope.release e) 0.001 in
  let e' := fst (Envelope.triggerRelease releaseTime e ctx) in
  let ctx' := snd (Envelope.triggerRelease releaseTime e ctx) in
  param_get ctx' p =
    Some {| value := value a;
            automation := automation a ++
              [ cancelScheduledValues now;
                setValueAtTime (Rmax (value a) 0.0001) now;
                exponentialRampToValueAtTime (Rmax (Envelope.startLevel e) 0.0001) rampEnd ] |} /\
  (forall q, q <> p -> param_get ctx' q = param_get ctx q) /\
  currentTime ctx <= now /\
  Envelope.releaseStartTime e' = now /\
  same_settings e e' /\
  Envelope.getEndTime None e' = now + Envelope.release e /\
  Envelope.getEndTime None e' <= rampEnd /\
  (0.001 <= Envelope.release e -> Envelope.getEndTime None e' = rampEnd) /\
  (Envelope.release e < 0.001 -> Envelope.getEndTime None e' < rampEnd).
Proof.
  intros Hp Ha now rampEnd e' ctx'. subst e' ctx'.
  unfold Envelope.triggerRelease. rewrite Hp. cbn [fst snd].
  rewrite Ha. cbn [fmap option_fmap option_map default].
  split.
  { rewrite (schedule_all_get _ _ _ _ Ha). reflexivity. }
  split.
  { intros q Hq. apply schedule_all_get_ne. congruence. }
  split; [apply Rmax_r|].
  split; [reflexivity|].
  split; [repeat split; try reflexivity; simpl; congruence|].
  unfold Envelope.getEndTime. cbn [default Envelope.releaseStartTime Envelope.release].
  change (Math_max (default (currentTime ctx) releaseTime) (currentTime ctx)) with now.
  subst rampEnd. clearbody now.
  split; [reflexivity|].
  split; [pose proof (Rmax_l (Envelope.release e) 0.001); lra|].
  split.
  - intros Hr. rewrite Rmax_left by lra. reflexivity.
  - intros Hr. rewrite Rmax_right by lra. lra.
Qed.

Lemma triggerRelease_schedule_and_end_witness :
  let e := Envelope.connect (gain_of 0)
             (Envelope.new (EnvelopeOptions.mk 0 0 0.5 0 None None)) in
  let ctx := snd (AudioEngine.createGain 0 (mkAudioContext 5 [] [] [])) in
  let e' := fst (Envelope.triggerRelease (Some 2) e ctx) in
  Envelope.releaseStartTime e' = Rmax 2 5 /\
  Envelope.getEndTime None e' = Rmax 2 5 + 0.
Proof.
  intros e ctx e'.
  pose proof (triggerRelease_schedule_and_end (Some 2) e ctx (gain_of 0) (mkAudioParam 0 [])
                eq_refl eq_refl) as H.
  split; [exact (proj1 (proj2 (proj2 (proj2 H))))
         | exact (proj1 (proj2 (proj2 (proj2 (proj2 (proj2 H))))))].
Defined.

(** ** An envelope that is connected to nothing *)

Lemma unconnected_step (c : EnvelopeCall) (e : Envelope.t) (ctx : AudioContext) :
  Envelope.param e = None -> not_connect c ->
  Envelope.param (fst (env_step (e, ctx) c)) = None /\
  Envelope.releaseStartTime (fst (env_step (e, ctx) c)) = Envelope.releaseStartTime e /\
  (forall r, automation <$> param_get (snd (env_step (e, ctx) c)) r =
             automation <$> param_get ctx r).
Proof.
  intros Hp Hc. destruct c; cbn [env_step fst snd not_connect] in *; try contradiction.
  - unfold Envelope.trigger. rewrite Hp. auto.
  - unfold Envelope.triggerRelease. rewrite Hp. auto.
  - auto.
  - auto.
  - split; [exact Hp|]. split; [reflexivity|]. intros r.
    destruct (decide (p = r)) as [->|Hne].
    + rewrite param_get_modify. destruct (param_get ctx r); reflexivity.
    + rewrite param_get_modify_ne by exact Hne. reflexivity.
Qed.

(** X18.  An envelope that was never connected is inert: whatever is called
    on it afterwards, short of [connect], no automation call reaches any
    parameter and the start of the release it has recorded stays 0, so
    [getEndTime] answers the bare release time. *)
Theorem unconnected_envelope_is_inert (options : EnvelopeOptions.t)
    (calls : list EnvelopeCall) (ctx : AudioContext) :
  Forall not_connect calls ->
  let e' := fst (env_run calls (Envelope.new options, ctx)) in
  let ctx' := snd (env_run calls (Envelope.new options, ctx)) in
  (forall r, automation <$> param_get ctx' r = automation <$> param_get ctx r) /\
  Envelope.param e' = None /\
  Envelope.getEndTime None e' = 0 + Envelope.release e'.
Proof.
  intros Hcalls.
  assert (H : forall e c0, Envelope.param e = None ->
            Envelope.param (fst (env_run calls (e, c0))) = None /\
            Envelope.releaseStartTime (fst (env_run calls (e, c0))) =
              Envelope.releaseStartTime e /\
            (forall r, automation <$> param_get (snd (env_run calls (e, c0))) r =
                       automation <$> param_get c0 r)).
  { induction Hcalls as [|c calls Hc _ IH]; intros e c0 Hp; [simpl; auto|].
    change (env_run (c :: calls) (e, c0)) with (env_run calls (env_step (e, c0) c)).
    destruct (unconnected_step c e c0 Hp Hc) as (Hp1 & Hr1 & Ha1).
    destruct (env_step (e, c0) c) as [e1 c1] eqn:E. cbn [fst snd] in *.
    destruct (IH e1 c1 Hp1) as (Hp2 & Hr2 & Ha2).
    split; [exact Hp2|]. split; [congruence|]. intros r. rewrite Ha2. apply Ha1. }
  destruct (H (Envelope.new options) ctx eq_refl) as (Hp & Hr & Ha).
  intros e' ctx'. split; [exact Ha|]. split; [exact Hp|].
  unfold Envelope.getEndTime. cbn [default]. subst e'. rewrite Hr. reflexivity.
Qed.

Lemma unconnected_envelope_is_inert_witness :
  let options := EnvelopeOptions.mk 0.1 0.2 0.5 0.3 None None in
  let calls := [env_call_trigger None; env_call_triggerRelease (Some 4)] in
  let ctx := snd (AudioEngine.createGain 0 (mkAudioContext 1 [] [] [])) in
  Envelope.param (fst (env_run calls (Envelope.new options, ctx))) = None.
Proof.
  intros options calls ctx.
  refine (proj1 (proj2 (unconnected_envelope_is_inert options calls ctx _))).
  repeat (apply Forall_cons_2; [exact I|]). apply Forall_nil_2.
Defined.

(** ** The mixer and the LFO *)

Lemma updateMixer_keys (k : string) (v : R) (mixer : Mixer.t) :
  JSMap.keys (Mixer.updateMixer k v mixer) = JSMap.keys mixer.
Proof.
  unfold Mixer.updateMixer. destruct (JSMap.get k mixer) eqn:Hg; [|reflexivity].
  rewrite keys_set. unfold JSMap.has. rewrite Hg. reflexivity.
Qed.

Lemma mixer_ok_updateMixer (k : string) (v : R) (mixer : Mixer.t) :
  mixer_ok mixer -> mixer_ok (Mixer.updateMixer k v mixer).
Proof.
  intros [Hk Hc]. split; [rewrite updateMixer_keys; exact Hk|].
  intros k' channel. unfold Mixer.updateMixer.
  destruct (JSMap.get k mixer) as [c0|] eqn:Hg; [|apply Hc].
  destruct (String.eqb_spec k k') as [<-|Hne].
  - rewrite get_set_eq. intros [= <-]. simpl.
    destruct (Hc k c0 Hg) as (_ & Ha & Hact). auto.
  - rewrite get_set_ne by exact Hne. apply Hc.
Qed.

Lemma mixer_ok_new : mixer_ok Mixer.new.
Proof.
  split; [reflexivity|]. intros k0 channel. unfold Mixer.new. cbn [JSMap.get].
  repeat (destruct (String.eqb _ k0); [intros [= <-]; repeat split|]). discriminate.
Qed.

(** X19.  Whatever calls of [updateMixer] are made on a new mixer, with keys
    that are slots or that the mixer object does not have at all, it keeps
    its three channels, each active, and the gain node of each channel
    carries the volume the channel records.  A call for a slot stores the
    volume as given, without clamping, in the channel and in its gain node;
    a call for a key that is no slot, and that a plain object does not
    inherit either, changes nothing.  (A key the object inherits, such as
    [constructor], is outside this statement: the code takes the inherited
    property for a channel and ends in a TypeError.) *)
Theorem mixer_follows_updateMixer (calls : list (string * R)) (k : string) (v : R) :
  Forall (fun c => fst c ∉ Object_prototype_names) calls ->
  let mixer := foldl (fun m c => Mixer.updateMixer (fst c) (snd c) m) Mixer.new calls in
  mixer_ok mixer /\
  (k ∈ ["osc1"; "osc2"; "osc3"]%string ->
   exists channel,
     JSMap.get k (Mixer.updateMixer k v mixer) = Some channel /\
     MixerChannel.volume channel = v /\
     value (gain (MixerChannel.node channel)) = v) /\
  (k ∉ ["osc1"; "osc2"; "osc3"]%string -> k ∉ Object_prototype_names ->
   Mixer.updateMixer k v mixer = mixer).
Proof.
  intros _ mixer.
  assert (Hok : mixer_ok mixer).
  { subst mixer. pose proof mixer_ok_new as H0. revert H0. generalize Mixer.new.
    induction calls as [|c calls IH]; intros m Hm; simpl; [exact Hm|].
    apply IH, mixer_ok_updateMixer, Hm. }
  split; [exact Hok|]. destruct Hok as [Hk Hc]. split.
  - intros Hin. unfold Mixer.updateMixer.
    destruct (JSMap.get k mixer) as [c0|] eqn:Hg.
    + eexists. rewrite get_set_eq. split; [reflexivity|]. split; reflexivity.
    + exfalso. apply (get_None_keys _ _ Hg). rewrite Hk. exact Hin.
  - intros Hnin _. unfold Mixer.updateMixer.
    destruct (JSMap.get k mixer) as [c0|] eqn:Hg; [|reflexivity].
    exfalso. apply Hnin. rewrite <- Hk.
    apply get_Some_elem in Hg. apply list_elem_of_fmap. exists (k, c0). auto.
Qed.

Lemma mixer_follows_updateMixer_witness :
  let calls := [("osc2"%string, 0.8); ("noise"%string, 1)] in
  let mixer := foldl (fun m c => Mixer.updateMixer (fst c) (snd c) m) Mixer.new calls in
  Forall (fun c => fst c ∉ Object_prototype_names) calls /\
  mixer_ok mixer /\
  exists channel,
    JSMap.get "osc1"%string (Mixer.updateMixer "osc1" 0.5 mixer) = Some channel /\
    MixerChannel.volume channel = 0.5.
Proof.
  intros calls mixer.
  assert (Hcalls : Forall (fun c => fst c ∉ Object_prototype_names) calls).
  { repeat apply Forall_cons_2; try apply Forall_nil_2;
      (intros Hin; apply list_elem_of_In in Hin; simpl in Hin;
       repeat (destruct Hin as [Hin|Hin]; [discriminate Hin|]); exact Hin). }
  pose proof (mixer_follows_updateMixer calls "osc1" 0.5 Hcalls) as (Hok & Hslot & _).
  split; [exact Hcalls|]. split; [exact Hok|].
  destruct (Hslot ltac:(apply list_elem_of_here)) as (channel & Hg & Hv & _).
  exists channel. split; [exact Hg | exact Hv].
Defined.

Lemma lfo_ok_updateLFO (p : LFO.Param) (s : LFO.t) : lfo_ok s -> lfo_ok (LFO.updateLFO p s).
Proof.
  intros (osc & pg & fg & Ho & Hp & Hf & Ht & Hfr & Hd & Hd' & Hs & Hst).
  destruct p; unfold LFO.updateLFO; rewrite ?Ho, ?Hp, ?Hf; simpl;
    eexists _, _, _; repeat (split; [reflexivity || eassumption|]);
    first [reflexivity | eassumption].
Qed.

Lemma lfo_ok_initLFO : lfo_ok (LFO.initLFO LFO.new).
Proof. eexists _, _, _. simpl. repeat split; first [reflexivity | lra]. Qed.

(** X20.  After [initLFO], and whatever calls of [updateLFO] follow, the LFO
    nodes mirror [lfoSettings]: the oscillator has the waveform and the
    frequency of the settings and keeps running, the gain towards the
    oscillators' detune is the depth and the gain towards the filters'
    frequency a hundred times the depth, so a depth of 0 silences both. *)
Theorem lfo_nodes_mirror_settings (calls : list LFO.Param) :
  let s := foldl (fun s p => LFO.updateLFO p s) (LFO.initLFO LFO.new) calls in
  lfo_ok s /\
  (forall pitchGain filterGain,
     LFO.lfoPitchGain (LFO.updateLFO (LFO.param_depth 0) s) = Some pitchGain ->
     LFO.lfoFilterGain (LFO.updateLFO (LFO.param_depth 0) s) = Some filterGain ->
     value (gain pitchGain) = 0 /\ value (gain filterGain) = 0).
Proof.
  intros s.
  assert (Hok : lfo_ok s).
  { subst s. pose proof lfo_ok_initLFO as H0.
    revert H0. generalize (LFO.initLFO LFO.new).
    induction calls as [|c calls IH]; intros m Hm; simpl; [exact Hm|].
    apply IH, lfo_ok_updateLFO, Hm. }
  split; [exact Hok|].
  destruct (lfo_ok_updateLFO (LFO.param_depth 0) s Hok)
    as (osc & pg & fg & _ & Hp & Hf & _ & _ & Hd & Hd' & _).
  intros pitchGain filterGain Hp' Hf'.
  rewrite Hp in Hp'. rewrite Hf in Hf'. injection Hp' as <-. injection Hf' as <-.
  rewrite Hd, Hd'. simpl. split; lra.
Qed.

(** ** The names the keyboard sends *)

Lemma sharp_name_semitone (name : string) (o : Z) :
  name ∈ AudioEngine.noteNames -> (0 <= o)%Z ->
  exists semitone,
    (0 <= semitone < 12)%Z /\
    semitonesFromA4_of (name +:+ Z_to_string o) = Some (semitone - 9 + (o - 4) * 12)%Z.
Proof.
  intros Hin Ho. apply list_elem_of_lookup in Hin as (k & Hk).
  assert (Hlt : (k < 12)%nat) by (apply lookup_lt_Some in Hk; exact Hk).
  exists (Z.of_nat k). split; [lia|].
  pose proof (noteNames_semitone k o Hlt Ho) as H. rewrite Hk in H. exact H.
Qed.

Lemma octaves_shown_bounds (octave visibleOctaves o : Z) :
  o ∈ Keyboard.octaves_shown octave visibleOctaves ->
  (octave <= o < octave + visibleOctaves)%Z.
Proof.
  unfold Keyboard.octaves_shown. intros Hin.
  apply list_elem_of_fmap in Hin as (i & -> & Hi).
  apply elem_of_seq in Hi. lia.
Qed.

Lemma keyboard_name_shape (octave visibleOctaves : Z) (name : string) :
  (0 <= visibleOctaves)%Z ->
  keyboard_name octave visibleOctaves name ->
  exists n o,
    name = (n +:+ Z_to_string o)%string /\ n ∈ AudioEngine.noteNames /\
    (octave <= o <= octave + Z.max visibleOctaves 1)%Z.
Proof.
  intros Hv [Hw | [Hb | (key & mapping & Hk & ->)]].
  - unfold Keyboard.generateWhiteNotes in Hw. apply elem_of_app in Hw as [Hw|Hw].
    + apply list_elem_of_bind in Hw as (o & Hn & Ho).
      apply list_elem_of_fmap in Hn as (n & -> & Hn).
      apply octaves_shown_bounds in Ho. exists n, o. split; [reflexivity|]. split; [|lia].
      unfold Keyboard.WHITE_NOTES in Hn. unfold AudioEngine.noteNames.
      repeat (apply elem_of_cons in Hn as [->|Hn];
              [repeat (first [apply list_elem_of_here | apply list_elem_of_further])|]).
      inversion Hn.
    + apply list_elem_of_singleton in Hw as ->.
      exists "C"%string, (octave + visibleOctaves)%Z. split; [reflexivity|].
      split; [apply list_elem_of_here | lia].
  - apply list_elem_of_fmap in Hb as ([name' pos] & -> & Hb).
    unfold Keyboard.generateBlackNotes in Hb.
    apply list_elem_of_bind in Hb as (o & Hn & Ho).
    apply list_elem_of_fmap in Hn as ([n p] & [= -> ->] & Hn).
    apply octaves_shown_bounds in Ho. exists n, o. split; [reflexivity|]. split; [|lia].
    unfold Keyboard.BLACK_KEY_POSITIONS in Hn. unfold AudioEngine.noteNames.
    repeat (apply elem_of_cons in Hn as [[= -> ->]|Hn];
            [repeat (first [apply list_elem_of_here | apply list_elem_of_further])|]).
    inversion Hn.
  - apply get_Some_elem in Hk. unfold Keyboard.KEY_TO_NOTE in Hk.
    unfold Keyboard.fullNote, AudioEngine.noteNames.
    repeat (apply elem_of_cons in Hk as [[= -> ->]|Hk];
            [ eexists _, _; split; [reflexivity|]; cbn [Keyboard.note Keyboard.octaveOffset];
              split; [repeat (first [apply list_elem_of_here | apply list_elem_of_further]) | lia]
            |]).
    inversion Hk.
Qed.

(** X21.  Every name the keyboard can send, from a key on the screen or
    from a mapped key of the computer keyboard, is a name [noteToFrequency]
    accepts without a warning, whenever the octave is not negative: it is a
    name of the table followed by an octave between the keyboard's octave and
    the octave after the last one shown, and its frequency is 440 Hz times 2
    to the power (semitone - 9 + 12 (octave - 4)) / 12. *)
Theorem keyboard_names_are_accepted (octave visibleOctaves : Z) (name : string) :
  (0 <= octave)%Z -> (0 <= visibleOctaves)%Z ->
  keyboard_name octave visibleOctaves name ->
  exists semitone o,
    (0 <= semitone < 12)%Z /\
    (octave <= o <= octave + Z.max visibleOctaves 1)%Z /\
    AudioEngine.noteToFrequency name =
      (440 * Rpower 2 (IZR (semitone - 9 + (o - 4) * 12) / 12), []).
Proof.
  intros Ho Hv Hname.
  destruct (keyboard_name_shape _ _ _ Hv Hname) as (n & o & -> & Hn & Hb).
  destruct (sharp_name_semitone n o Hn ltac:(lia)) as (semitone & Hs & Hsem).
  exists semitone, o. split; [exact Hs|]. split; [exact Hb|].
  exact (noteToFrequency_semitones _ _ Hsem).
Qed.

Lemma keyboard_names_are_accepted_witness :
  exists semitone o,
    (0 <= semitone < 12)%Z /\ (4 <= o <= 4 + Z.max 2 1)%Z /\
    AudioEngine.noteToFrequency "C#5" =
      (440 * Rpower 2 (IZR (semitone - 9 + (o - 4) * 12) / 12), []).
Proof.
  apply (keyboard_names_are_accepted 4 2 "C#5"); [lia | lia |].
  right. right. exists "o"%string, (Keyboard.mkMapping "C#" 1). split; reflexivity.
Defined.

(** ** The octave of the keyboard *)

Lemma navigate_bounds (octave : Z) (n : Keyboard.Navigation) :
  (1 <= octave <= 6)%Z -> (1 <= Keyboard.navigate octave n <= 6)%Z.
Proof.
  intros Ho. destruct n; simpl;
    repeat (match goal with
            | |- context [Rlt_dec ?a ?b] => destruct (Rlt_dec a b)
            | |- context [(?a <? ?b)%Z] => destruct (Z.ltb_spec a b)
            end); lia.
Qed.

(** X22.  The octave of the keyboard starts at 4 and stays between 1 and 6
    whatever buttons are clicked and whatever swipes are made: a click or a
    swipe moves it by one octave at most, a swipe of 80 pixels or less does
    not move it, a swipe to the right lowers it and one to the left raises
    it.  With at most three octaves shown, every octave printed on a key is
    then between 1 and 9. *)
Theorem keyboard_octave_in_range (navs : list Keyboard.Navigation)
    (n : Keyboard.Navigation) (width : option Z) :
  let octave := foldl Keyboard.navigate Keyboard.initial_octave navs in
  let visibleOctaves := Keyboard.updateOctaves width in
  (1 <= octave <= 6)%Z /\
  (1 <= visibleOctaves <= 3)%Z /\
  (Z.abs (Keyboard.navigate octave n - octave) <= 1)%Z /\
  (forall diff, Rabs diff <= 80 -> Keyboard.navigate octave (Keyboard.swipe diff) = octave) /\
  (forall diff, 80 < diff ->
     Keyboard.navigate octave (Keyboard.swipe diff) =
     Keyboard.navigate octave Keyboard.click_lower) /\
  (forall diff, diff < -80 ->
     Keyboard.navigate octave (Keyboard.swipe diff) =
     Keyboard.navigate octave Keyboard.click_higher) /\
  (forall name,
     keyboard_name octave visibleOctaves name ->
     exists n o,
       name = (n +:+ Z_to_string o)%string /\ n ∈ AudioEngine.noteNames /\
       (1 <= o <= 9)%Z).
Proof.
  intros octave visibleOctaves.
  assert (Hoct : (1 <= octave <= 6)%Z).
  { subst octave. unfold Keyboard.initial_octave.
    assert (H : forall o, (1 <= o <= 6)%Z ->
              (1 <= foldl Keyboard.navigate o navs <= 6)%Z).
    { induction navs as [|x navs IH]; intros o Ho; simpl; [exact Ho|].
      apply IH, navigate_bounds, Ho. }
    apply H. lia. }
  assert (Hvis : (1 <= visibleOctaves <= 3)%Z).
  { subst visibleOctaves. unfold Keyboard.updateOctaves.
    repeat (match goal with
            | |- context [(?a <? ?b)%Z] => destruct (Z.ltb_spec a b)
            end); lia. }
  split; [exact Hoct|]. split; [exact Hvis|]. clearbody octave visibleOctaves.
  split.
  { destruct n; simpl;
      repeat (match goal with
              | |- context [Rlt_dec ?a ?b] => destruct (Rlt_dec a b)
              | |- context [(?a <? ?b)%Z] => destruct (Z.ltb_spec a b)
              end); lia. }
  split.
  { intros diff Hd. simpl. destruct (Rlt_dec 80 (Rabs diff)); [lra | reflexivity]. }
  split.
  { intros diff Hd. simpl.
    destruct (Rlt_dec 80 (Rabs diff)) as [_|Hn];
      [|exfalso; apply Hn; rewrite Rabs_right by lra; exact Hd].
    destruct (Rlt_dec 0 diff); [|lra].
    destruct (1 <? octave)%Z; [reflexivity|].
    destruct (Rlt_dec diff 0); [lra | reflexivity]. }
  split.
  { intros diff Hd. simpl.
    destruct (Rlt_dec 80 (Rabs diff)) as [_|Hn];
      [|exfalso; apply Hn; rewrite Rabs_left by lra; lra].
    destruct (Rlt_dec 0 diff); [lra|].
    destruct (Rlt_dec diff 0); [reflexivity | lra]. }
  intros name Hname.
  destruct (keyboard_name_shape octave visibleOctaves name ltac:(lia) Hname)
    as (n0 & o & -> & Hn & Hb).
  exists n0, o. split; [reflexivity|]. split; [exact Hn | lia].
Qed.

(** ** The keys are drawn in the order of their pitch *)

Lemma pitch_below_frequency (a b : string) :
  pitch_below a b = true ->
  fst (AudioEngine.noteToFrequency a) < fst (AudioEngine.noteToFrequency b).
Proof.
  unfold pitch_below.
  destruct (semitonesFromA4_of a) as [x|] eqn:Ha; [|discriminate].
  destruct (semitonesFromA4_of b) as [y|] eqn:Hb; [|discriminate].
  intros Hlt. apply Z.ltb_lt in Hlt.
  rewrite (noteToFrequency_semitones _ _ Ha), (noteToFrequency_semitones _ _ Hb).
  cbn [fst]. unfold Math_pow2.
  apply Rmult_lt_compat_l; [lra|]. apply Rpower_lt; [lra|].
  apply IZR_lt in Hlt. lra.
Qed.

Lemma ascending_lookup (l : list string) (i : nat) (a b : string) :
  ascending l = true -> l !! i = Some a -> l !! S i = Some b -> pitch_below a b = true.
Proof.
  revert i. induction l as [|x l IH]; intros i Hasc Ha Hb; [discriminate|].
  destruct l as [|y l]; [destruct i; discriminate|].
  cbn [ascending] in Hasc. apply andb_prop in Hasc as [Hxy Hasc].
  destruct i as [|i].
  - injection Ha as <-. injection Hb as <-. exact Hxy.
  - exact (IH i Hasc Ha Hb).
Qed.

Lemma layout_in_order_1_6 :
  forallb (fun o => forallb (layout_in_order o) [1; 2; 3]%Z) [1; 2; 3; 4; 5; 6]%Z = true.
Proof. vm_compute. reflexivity. Qed.

(** X23.  With the octave between 1 and 6 and one, two or three octaves
    shown, the keyboard has seven white keys for every octave shown and a
    last C, and five black keys for every octave shown.  The white keys are
    in strictly ascending pitch from left to right, and every black key sounds
    between the white key at its position and the next one. *)
Theorem keyboard_layout_in_pitch_order (octave visibleOctaves : Z) :
  (1 <= octave <= 6)%Z -> (1 <= visibleOctaves <= 3)%Z ->
  let whites := Keyboard.generateWhiteNotes octave visibleOctaves in
  let blacks := Keyboard.generateBlackNotes octave visibleOctaves in
  length whites = (7 * Z.to_nat visibleOctaves + 1)%nat /\
  length blacks = (5 * Z.to_nat visibleOctaves)%nat /\
  (forall i a b, whites !! i = Some a -> whites !! S i = Some b ->
     fst (AudioEngine.noteToFrequency a) < fst (AudioEngine.noteToFrequency b)) /\
  (forall name position, (name, position) ∈ blacks ->
     exists a b,
       (0 <= position)%Z /\
       whites !! Z.to_nat position = Some a /\
       whites !! S (Z.to_nat position) = Some b /\
       fst (AudioEngine.noteToFrequency a) < fst (AudioEngine.noteToFrequency name) /\
       fst (AudioEngine.noteToFrequency name) < fst (AudioEngine.noteToFrequency b)).
Proof.
  intros Ho Hv whites blacks.
  assert (Hok : layout_in_order octave visibleOctaves = true).
  { pose proof layout_in_order_1_6 as H.
    rewrite forallb_forall in H.
    assert (Hin : In octave [1; 2; 3; 4; 5; 6]%Z) by (simpl; lia).
    specialize (H octave Hin). rewrite forallb_forall in H.
    apply H. simpl. lia. }
  unfold layout_in_order in Hok. fold whites blacks in Hok.
  apply andb_prop in Hok as [Hok Hb]. apply andb_prop in Hok as [Hok Ha].
  apply andb_prop in Hok as [Hlw Hlb].
  apply Nat.eqb_eq in Hlw, Hlb.
  split; [exact Hlw|]. split; [exact Hlb|]. split.
  - intros i a b Hi Hsi. apply pitch_below_frequency.
    exact (ascending_lookup _ _ _ _ Ha Hi Hsi).
  - intros name position Hin. rewrite forallb_forall in Hb.
    apply list_elem_of_In in Hin. specialize (Hb _ Hin).
    unfold black_key_between in Hb. cbn [fst snd] in Hb.
    destruct (whites !! Z.to_nat position) as [a|]; [|discriminate].
    destruct (whites !! S (Z.to_nat position)) as [b|]; [|discriminate].
    apply andb_prop in Hb as [Hb Hnb]. apply andb_prop in Hb as [Hpos Han].
    exists a, b. split; [apply Z.leb_le, Hpos|]. split; [reflexivity|]. split; [reflexivity|].
    split; apply pitch_below_frequency; assumption.
Qed.

Lemma keyboard_layout_in_pitch_order_witness :
  length (Keyboard.generateWhiteNotes 4 2) = (7 * Z.to_nat 2 + 1)%nat.
Proof.
  refine (proj1 (keyboard_layout_in_pitch_order 4 2 _ _)); lia.
Defined.

(** ** A key of the computer keyboard, pressed and released *)

Lemma Z_to_string_inj (a b : Z) :
  (0 <= a)%Z -> (0 <= b)%Z -> Z_to_string a = Z_to_string b -> a = b.
Proof.
  intros Ha Hb Heq.
  rewrite <- (parseInt_Z_to_string a Ha), <- (parseInt_Z_to_string b Hb), Heq. reflexivity.
Qed.

Lemma append_inj_l (p s1 s2 : string) : (p +:+ s1 = p +:+ s2)%string -> s1 = s2.
Proof. induction p as [|c p IH]; simpl; [trivial|]. intros [= H]. exact (IH H). Qed.

Lemma fullNote_inj (mapping : Keyboard.Mapping) (o o' : Z) :
  (0 <= o + Keyboard.octaveOffset mapping)%Z ->
  (0 <= o' + Keyboard.octaveOffset mapping)%Z ->
  Keyboard.fullNote o mapping = Keyboard.fullNote o' mapping -> o = o'.
Proof.
  intros Ho Ho' Heq. unfold Keyboard.fullNote in Heq.
  apply append_inj_l in Heq. apply Z_to_string_inj in Heq; lia.
Qed.

Lemma Set_has_add (x : string) (l : list string) :
  Keyboard.Set_has x (Keyboard.Set_add x l) = true.
Proof.
  unfold Keyboard.Set_add. destruct (Keyboard.Set_has x l) eqn:E; [exact E|].
  unfold Keyboard.Set_has. rewrite existsb_app. simpl.
  rewrite String.eqb_refl. rewrite orb_true_r. reflexivity.
Qed.

Lemma Set_has_delete (x y : string) (l : list string) :
  Keyboard.Set_has x (Keyboard.Set_delete y l) =
    if String.eqb y x then false else Keyboard.Set_has x l.
Proof.
  unfold Keyboard.Set_has, Keyboard.Set_delete.
  induction l as [|z l IH]; simpl; [destruct (String.eqb y x); reflexivity|].
  destruct (String.eqb_spec y z) as [->|Hyz]; simpl.
  - rewrite IH. destruct (String.eqb_spec z x) as [->|Hzx].
    + reflexivity.
    + destruct (String.eqb_spec x z); [congruence | reflexivity].
  - rewrite IH. destruct (String.eqb_spec y x) as [->|Hyx].
    + destruct (String.eqb_spec x z); [congruence | reflexivity].
    + reflexivity.
Qed.

(** X24.  A mapped key of the computer keyboard that is pressed, while the
    note it stands for is not held already, plays that note: the name is the
    key's note with the octave of the keyboard at that moment.  Its release
    stops the note of the same key with the octave of the keyboard at the
    moment of the release.  When the octave is the same, the engine's table
    has no voice for the note afterwards.  When the octave was changed in
    between, the release stops another name: the note that was played stays
    in the table, and pressing the key again in the first octave plays
    nothing, for the note still counts as held. *)
Theorem key_release_stops_the_note_of_the_current_octave
    (volume : option R) (now : R) (ops : list Op)
    (key : string) (mapping : Keyboard.Mapping) (octave octave' : Z)
    (st : Keyboard.State) :
  JSMap.get (Keyboard.toLowerCase key) Keyboard.KEY_TO_NOTE = Some mapping ->
  (0 <= octave + Keyboard.octaveOffset mapping)%Z ->
  (0 <= octave' + Keyboard.octaveOffset mapping)%Z ->
  Keyboard.Set_has (Keyboard.fullNote octave mapping) (Keyboard.keyboardNotes st) = false ->
  let n := Keyboard.fullNote octave mapping in
  let down := Keyboard.handleKeyDown octave false key false st in
  let up := Keyboard.handleKeyUp octave' key (fst down) in
  let s := run ops (Synth.new volume now) in
  let s' := run (deliver <$> (snd down ++ snd up)) s in
  snd down = [Keyboard.onNoteOn n] /\
  snd up = [Keyboard.onNoteOff (Keyboard.fullNote octave' mapping)] /\
  (octave' = octave ->
     JSMap.get n (Synth.activeVoices s') = None /\
     Keyboard.Set_has n (Keyboard.keyboardNotes (fst up)) = false) /\
  (octave' <> octave ->
     is_Some (JSMap.get n (Synth.activeVoices s')) /\
     Keyboard.Set_has n (Keyboard.keyboardNotes (fst up)) = true /\
     Keyboard.handleKeyDown octave false key false (fst up) = (fst up, [])).
Proof.
  intros Hk Ho Ho' Hnot n down up s s'.
  assert (Hdown : down =
            ({| Keyboard.activeNotes := Keyboard.Set_add n (Keyboard.activeNotes st);
                Keyboard.keyboardNotes := Keyboard.Set_add n (Keyboard.keyboardNotes st) |},
             [Keyboard.onNoteOn n])).
  { subst down. unfold Keyboard.handleKeyDown. rewrite Hk, Hnot. reflexivity. }
  assert (Hup : up =
            ({| Keyboard.activeNotes :=
                  Keyboard.Set_delete (Keyboard.fullNote octave' mapping)
                    (Keyboard.activeNotes (fst down));
                Keyboard.keyboardNotes :=
                  Keyboard.Set_delete (Keyboard.fullNote octave' mapping)
                    (Keyboard.keyboardNotes (fst down)) |},
             [Keyboard.onNoteOff (Keyboard.fullNote octave' mapping)])).
  { subst up. unfold Keyboard.handleKeyUp. rewrite Hk. reflexivity. }
  assert (Hs' : s' = Synth.stopNote (Keyboard.fullNote octave' mapping) None
                       (Synth.playNote n None s)).
  { subst s'. rewrite Hdown, Hup. reflexivity. }
  assert (Hplayed : exists v, JSMap.get n (Synth.activeVoices (Synth.playNote n None s)) = Some v).
  { destruct (playNote_activeVoices n None s) as (v & _ & ->). exists v. apply get_set_eq. }
  assert (Hnd : NoDup (JSMap.keys (Synth.activeVoices (Synth.playNote n None s)))).
  { apply table_ok_playNote. exact (proj1 (run_ok ops _ (new_ok volume now))). }
  split; [rewrite Hdown; reflexivity|]. split; [rewrite Hup; reflexivity|].
  rewrite Hs', Hup. cbn [fst Keyboard.keyboardNotes]. rewrite Hdown.
  cbn [fst Keyboard.keyboardNotes]. rewrite Set_has_delete, stopNote_activeVoices.
  split.
  - intros ->. fold n. rewrite String.eqb_refl. split; [|reflexivity].
    apply get_delete_eq, Hnd.
  - intros Hne.
    assert (Hnames : Keyboard.fullNote octave' mapping <> n).
    { intros Heq. apply Hne. exact (fullNote_inj mapping _ _ Ho' Ho Heq). }
    destruct (String.eqb_spec (Keyboard.fullNote octave' mapping) n) as [Heq|_];
      [contradiction|].
    rewrite get_delete_ne by exact Hnames. rewrite Set_has_add.
    split; [destruct Hplayed as (v & ->); eexists; reflexivity|]. split; [reflexivity|].
    unfold Keyboard.handleKeyDown. rewrite Hk. fold n.
    cbn [Keyboard.keyboardNotes]. rewrite Set_has_delete.
    destruct (String.eqb_spec (Keyboard.fullNote octave' mapping) n) as [Heq|_];
      [contradiction|].
    rewrite Set_has_add. reflexivity.
Qed.

Lemma key_release_stops_the_note_of_the_current_octave_witness :
  let down := Keyboard.handleKeyDown 4 false "A" false (Keyboard.mkState [] []) in
  let up := Keyboard.handleKeyUp 5 "A" (fst down) in
  snd down = [Keyboard.onNoteOn "C4"] /\ snd up = [Keyboard.onNoteOff "C5"].
Proof.
  intros down up.
  pose proof (key_release_stops_the_note_of_the_current_octave None 0 []
                "A" (Keyboard.mkMapping "C" 0) 4 5 (Keyboard.mkState [] [])
                eq_refl ltac:(simpl; lia) ltac:(simpl; lia) eq_refl) as H.
  split; [exact (proj1 H) | exact (proj1 (proj2 H))].
Defined.

(** ** The voices of different notes do not disturb one another *)

Lemma voice_wired_kept (v : ActiveVoice.t) (h h' : Store) :
  store_kept h h' -> voice_wired v h -> voice_wired v h'.
Proof.
  intros (Hke & Hkg & Hkf & _) (Hg & Hf & He). split; [|split].
  - intros g Hin. specialize (Hg g Hin). lia.
  - intros f Hin. specialize (Hf f Hin). lia.
  - intros e Hin. destruct (He e Hin) as (env & Hl & Hown).
    destruct (Hke e env Hl) as (env' & Hl' & Hs).
    exists env'. split; [exact Hl'|]. intros r Hr. apply Hown.
    destruct Hs as (_ & _ & _ & _ & _ & _ & Hp). congruence.
Qed.

Lemma new_voice_wired (n : string) (st : R) (s : Synth.t) :
  voice_wired (new_voice s n) (Synth.store (Synth.start_voice n st s)).
Proof.
  rewrite start_voice_store.
  unfold voice_wired, voice_store, ext.
  cbn [context gain_nodes filter_nodes envelopes new_voice ActiveVoice.gainNodes
       ActiveVoice.filters ActiveVoice.volumeEnvelope ActiveVoice.filterEnvelope].
  unfold n_gains, n_filters. cbn [context gain_nodes filter_nodes].
  rewrite !length_app. cbn [length]. split; [|split].
  - intros g Hin. repeat (apply elem_of_cons in Hin as [->|Hin]); [lia..|inversion Hin].
  - intros f Hin. repeat (apply elem_of_cons in Hin as [->|Hin]); [lia..|inversion Hin].
  - intros e Hin. unfold n_envelopes in Hin.
    repeat (apply elem_of_cons in Hin as [->|Hin]); [| |inversion Hin];
      rewrite lookup_at; eexists; (split; [reflexivity|]);
      intros r [= <-]; cbn [owns ActiveVoice.gainNodes ActiveVoice.filters];
      unfold n_gains, n_filters;
      repeat (first [apply list_elem_of_here | apply list_elem_of_further]).
Qed.

Lemma new_voice_apart (n : string) (s : Synth.t) (v : ActiveVoice.t) :
  voice_wired v (Synth.store s) ->
  voices_apart (new_voice s n) v /\ voices_apart v (new_voice s n).
Proof.
  intros (Hg & Hf & He).
  assert (Hel : forall e, e ∈ [ActiveVoice.volumeEnvelope v; ActiveVoice.filterEnvelope v] ->
            (e < n_envelopes (Synth.store s))%nat).
  { intros e Hin. destruct (He e Hin) as (env & Hl & _). exact (lookup_lt_Some _ _ _ Hl). }
  unfold voices_apart.
  cbn [new_voice ActiveVoice.gainNodes ActiveVoice.filters ActiveVoice.volumeEnvelope
       ActiveVoice.filterEnvelope].
  repeat split.
  - intros g Hin Hin'. specialize (Hg g Hin').
    repeat (apply elem_of_cons in Hin as [->|Hin]); [lia..|inversion Hin].
  - intros f Hin Hin'. specialize (Hf f Hin').
    repeat (apply elem_of_cons in Hin as [->|Hin]); [lia..|inversion Hin].
  - intros e Hin Hin'. specialize (Hel e Hin').
    repeat (apply elem_of_cons in Hin as [->|Hin]); [lia..|inversion Hin].
  - intros g Hin Hin'. specialize (Hg g Hin).
    repeat (apply elem_of_cons in Hin' as [->|Hin']); [lia..|inversion Hin'].
  - intros f Hin Hin'. specialize (Hf f Hin).
    repeat (apply elem_of_cons in Hin' as [->|Hin']); [lia..|inversion Hin'].
  - intros e Hin Hin'. specialize (Hel e Hin).
    repeat (apply elem_of_cons in Hin' as [->|Hin']); [lia..|inversion Hin'].
Qed.

Lemma voices_separate_stopNote (n : string) (t : option R) (s : Synth.t) :
  voices_separate s -> voices_separate (Synth.stopNote n t s).
Proof.
  intros [Hw Ha]. unfold voices_separate. rewrite stopNote_activeVoices. split.
  - intros k v Hin. apply elem_of_delete in Hin.
    exact (voice_wired_kept _ _ _ (store_kept_stopNote n t s) (Hw k v Hin)).
  - intros k v k' v' Hin Hin'. apply Ha; eapply elem_of_delete; eassumption.
Qed.

Lemma voices_separate_start_voice (n : string) (st : R) (s : Synth.t) :
  voices_separate s -> voices_separate (Synth.start_voice n st s).
Proof.
  intros [Hw Ha].
  assert (Hacts : Synth.activeVoices (Synth.start_voice n st s) =
                  JSMap.set n (new_voice s n) (Synth.activeVoices s)).
  { rewrite start_voice_eq. reflexivity. }
  unfold voices_separate. rewrite Hacts. split.
  - intros k v Hin. apply elem_of_set in Hin as [[= -> ->]|Hin].
    + apply new_voice_wired.
    + exact (voice_wired_kept _ _ _ (store_kept_start_voice n st s) (Hw k v Hin)).
  - intros k v k' v' Hin Hin' Hne.
    apply elem_of_set in Hin as [[= -> ->]|Hin];
      apply elem_of_set in Hin' as [[= -> ->]|Hin'].
    + contradiction.
    + exact (proj1 (new_voice_apart n s v' (Hw _ _ Hin'))).
    + exact (proj2 (new_voice_apart n s v (Hw _ _ Hin))).
    + exact (Ha _ _ _ _ Hin Hin' Hne).
Qed.

Lemma voices_separate_step (o : Op) (s : Synth.t) :
  voices_separate s -> voices_separate (step s o).
Proof.
  intros Hsep.
  destruct o;
    try (match goal with
         | |- context [step s ?o] =>
             pose proof (parameter_op_frame o s I) as [Hv _];
             pose proof (store_kept_step o s) as Hk
         end;
         destruct Hsep as [Hw Ha]; unfold voices_separate; rewrite Hv; split;
         [ intros k v' Hin; exact (voice_wired_kept _ _ _ Hk (Hw k v' Hin)) | exact Ha ]).
  - simpl. rewrite playNote_eq. apply voices_separate_start_voice.
    destruct (JSMap.has note (Synth.activeVoices s));
      [apply voices_separate_stopNote|]; exact Hsep.
  - apply voices_separate_stopNote, Hsep.
  - simpl. unfold Synth.stopAll. generalize (JSMap.keys (Synth.activeVoices s)). intros l.
    revert s Hsep. induction l as [|n l IH]; intros s Hsep; simpl; [exact Hsep|].
    apply IH, voices_separate_stopNote, Hsep.
Qed.

Lemma voices_separate_reachable (volume : option R) (now : R) (ops : list Op) :
  voices_separate (run ops (Synth.new volume now)).
Proof.
  assert (H : forall s, voices_separate s -> voices_separate (run ops s)).
  { induction ops as [|o ops IH]; intros s Hs; simpl; [exact Hs|].
    apply IH, voices_separate_step, Hs. }
  apply H. split.
  - intros k v Hin. inversion Hin.
  - intros k v k' v' Hin. inversion Hin.
Qed.

Lemma voice_untouched_refl (v : ActiveVoice.t) (h : Store) : voice_untouched v h h.
Proof. repeat split. Qed.

Lemma voice_untouched_trans (v : ActiveVoice.t) (h1 h2 h3 : Store) :
  voice_untouched v h1 h2 -> voice_untouched v h2 h3 -> voice_untouched v h1 h3.
Proof.
  intros (Hg & Hf & Ho & He) (Hg' & Hf' & Ho' & He'). repeat split.
  - intros g Hin. rewrite (Hg' g Hin). exact (Hg g Hin).
  - intros f Hin. rewrite (Hf' f Hin). exact (Hf f Hin).
  - intros o Hin. rewrite (Ho' o Hin). exact (Ho o Hin).
  - intros e Hin. rewrite (He' e Hin). exact (He e Hin).
Qed.

Lemma param_modify_untouched (f : AudioParam -> AudioParam) (r : AudioParamRef)
    (v : ActiveVoice.t) (h : Store) :
  ~ owns v r -> voice_untouched v h (on_context (param_modify f r) h).
Proof.
  intros Hown. unfold voice_untouched, on_context. cbn [context envelopes].
  destruct r as [g0|f0]; cbn [param_modify gain_nodes filter_nodes oscillator_nodes];
    repeat split.
  - intros g Hin. apply list_lookup_alter_ne. intros ->. exact (Hown Hin).
  - intros f1 Hin. apply list_lookup_alter_ne. intros ->. exact (Hown Hin).
Qed.

Lemma env_triggerRelease_untouched (e : nat) (t : option R) (v : ActiveVoice.t) (h : Store) :
  (forall env r, envelopes h !! e = Some env -> Envelope.param env = Some r -> ~ owns v r) ->
  e ∉ [ActiveVoice.volumeEnvelope v; ActiveVoice.filterEnvelope v] ->
  voice_untouched v h (env_triggerRelease e t h).
Proof.
  intros Hown Hne. unfold env_triggerRelease.
  destruct (envelopes h !! e) as [env|] eqn:He; [|apply voice_untouched_refl].
  unfold Envelope.triggerRelease.
  destruct (Envelope.param env) as [p|] eqn:Hp.
  - rewrite schedule_all_modify.
    destruct (param_modify_untouched
                (append_calls (Envelope.release_calls
                   (Math_max (default (currentTime (context h)) t) (currentTime (context h)))
                   (default 0 (value <$> param_get (context h) p)) env))
                p v h (Hown env p eq_refl Hp)) as (Hg & Hf & Ho & _).
    unfold voice_untouched. cbn [context envelopes on_context] in *.
    repeat split; try assumption.
    intros e' Hin. apply list_lookup_insert_ne. intros ->. exact (Hne Hin).
  - unfold voice_untouched. cbn [context envelopes]. repeat split.
    intros e' Hin. apply list_lookup_insert_ne. intros ->. exact (Hne Hin).
Qed.

Lemma fade_gain_untouched (st r : R) (g : nat) (v : ActiveVoice.t) (h : Store) :
  g ∉ ActiveVoice.gainNodes v -> voice_untouched v h (Synth.fade_gain st r h g).
Proof.
  intros Hg. unfold Synth.fade_gain.
  pose proof (fun f h0 => param_modify_untouched f (gain_of g) v h0 Hg) as H.
  set (h1 := on_context (param_modify (schedule (cancelScheduledValues st)) (gain_of g)) h).
  set (h2 := on_context (param_modify (schedule (setValueAtTime
                (default 0 (value <$> param_get (context h) (gain_of g))) st)) (gain_of g)) h1).
  apply (voice_untouched_trans v h h1); [apply H|].
  apply (voice_untouched_trans v h1 h2); [apply H|].
  apply (H _ h2).
Qed.

Lemma try_stop_untouched (e : R) (o : nat) (v : ActiveVoice.t) (h : Store) :
  o ∉ ActiveVoice.oscillators v -> voice_untouched v h (Synth.try_stop e h o).
Proof.
  intros Ho. unfold Synth.try_stop, on_context, osc_stop, voice_untouched. cbn [context envelopes].
  destruct (oscillator_nodes (context h) !! o) as [n0|]; [|repeat split].
  destruct (start_time n0); [|repeat split]. simpl. repeat split.
  intros o' Hin. apply list_lookup_insert_ne. intros ->. exact (Ho Hin).
Qed.

Lemma fold_untouched {A : Type} (f : Store -> A -> Store) (l : list A)
    (v : ActiveVoice.t) (h : Store) :
  (forall h0 a, a ∈ l -> voice_untouched v h0 (f h0 a)) ->
  voice_untouched v h (foldl f h l).
Proof.
  revert h. induction l as [|a l IH]; intros h Hf; simpl; [apply voice_untouched_refl|].
  apply (voice_untouched_trans v h (f h a)).
  - apply Hf, list_elem_of_here.
  - apply IH. intros h0 b Hb. apply Hf, list_elem_of_further, Hb.
Qed.

Lemma apart_not_owned (v v' : ActiveVoice.t) (r : AudioParamRef) :
  voices_apart v v' -> owns v r -> ~ owns v' r.
Proof.
  intros (Hg & Hf & _) Hown. destruct r as [g|f]; [exact (Hg g Hown) | exact (Hf f Hown)].
Qed.

Lemma release_voice_untouched (v v' : ActiveVoice.t) (stopTime : R) (h : Store) :
  voice_wired v h -> voices_apart v v' ->
  (forall o, o ∈ ActiveVoice.oscillators v -> o ∉ ActiveVoice.oscillators v') ->
  voice_untouched v' h (Synth.release_voice v stopTime h).
Proof.
  intros Hw Ha Hosc. unfold Synth.release_voice.
  set (h1 := env_triggerRelease (ActiveVoice.volumeEnvelope v) (Some stopTime) h).
  set (h2 := env_triggerRelease (ActiveVoice.filterEnvelope v) (Some stopTime) h1).
  set (h3 := foldl (Synth.fade_gain stopTime (ActiveVoice.releaseTime v)) h2
               (ActiveVoice.gainNodes v)).
  assert (Hw1 : voice_wired v h1).
  { exact (voice_wired_kept _ _ _ (store_kept_env_triggerRelease _ _ h) Hw). }
  assert (Hstage : forall e h0, voice_wired v h0 ->
            e ∈ [ActiveVoice.volumeEnvelope v; ActiveVoice.filterEnvelope v] ->
            voice_untouched v' h0 (env_triggerRelease e (Some stopTime) h0)).
  { intros e h0 (_ & _ & He) Hin. apply env_triggerRelease_untouched.
    - intros env r Hl Hr. destruct (He e Hin) as (env0 & Hl0 & Hown).
      assert (env0 = env) as -> by congruence.
      exact (apart_not_owned v v' r Ha (Hown r Hr)).
    - exact (proj2 (proj2 Ha) e Hin). }
  apply (voice_untouched_trans v' h h1);
    [apply Hstage; [exact Hw | apply list_elem_of_here]|].
  apply (voice_untouched_trans v' h1 h2);
    [apply Hstage; [exact Hw1 | apply list_elem_of_further, list_elem_of_here]|].
  apply (voice_untouched_trans v' h2 h3).
  - apply fold_untouched. intros h0 g Hg. apply fade_gain_untouched. exact (proj1 Ha g Hg).
  - apply fold_untouched. intros h0 o Ho. apply try_stop_untouched. exact (Hosc o Ho).
Qed.

Lemma stopNote_untouched (volume : option R) (now : R) (ops : list Op)
    (n m : string) (t : option R) (vm : ActiveVoice.t) :
  let s := run ops (Synth.new volume now) in
  n <> m -> JSMap.get m (Synth.activeVoices s) = Some vm ->
  voice_untouched vm (Synth.store s) (Synth.store (Synth.stopNote n t s)).
Proof.
  intros s Hne Hm.
  destruct (JSMap.get n (Synth.activeVoices s)) as [v|] eqn:Hn.
  2:{ unfold Synth.stopNote. rewrite Hn. apply voice_untouched_refl. }
  rewrite (stopNote_store _ _ _ _ Hn).
  destruct (voices_separate_reachable volume now ops) as [Hw Ha].
  destruct (voices_ok_run ops _ (voices_ok_new volume now)) as (_ & _ & _ & Hd).
  fold s in Hw, Ha, Hd.
  apply get_Some_elem in Hn, Hm.
  apply release_voice_untouched.
  - exact (Hw n v Hn).
  - exact (Ha n v m vm Hn Hm Hne).
  - intros o Ho Ho'. exact (Hne (Hd n v m vm o Hn Hm Ho Ho')).
Qed.

Lemma ext_untouched (v : ActiveVoice.t) (b : Store) (G : list GainNode)
    (F : list BiquadFilterNode) (O : list OscillatorNode) (E : list Envelope.t) :
  voice_wired v b ->
  (forall o, o ∈ ActiveVoice.oscillators v -> (o < n_oscillators b)%nat) ->
  voice_untouched v b (ext b G F O E).
Proof.
  intros (Hg & Hf & He) Ho. unfold voice_untouched, ext.
  cbn [context gain_nodes filter_nodes oscillator_nodes envelopes]. repeat split.
  - intros g Hin. apply lookup_app_l, Hg, Hin.
  - intros f Hin. apply lookup_app_l, Hf, Hin.
  - intros o Hin. apply lookup_app_l, Ho, Hin.
  - intros e Hin. destruct (He e Hin) as (env & Hl & _).
    apply lookup_app_l. exact (lookup_lt_Some _ _ _ Hl).
Qed.

(** X25.  In every state reached from a new engine, playing or stopping a
    note leaves the voice of every other note as it was: the voice stays in
    the table, and its gain nodes, its filters, its oscillators and its two
    envelopes are, each one, what they were before the call. *)
Theorem other_notes_are_not_disturbed (volume : option R) (now : R) (ops : list Op)
    (n m : string) (t : option R) (vm : ActiveVoice.t) :
  let s := run ops (Synth.new volume now) in
  n <> m ->
  JSMap.get m (Synth.activeVoices s) = Some vm ->
  (JSMap.get m (Synth.activeVoices (Synth.stopNote n t s)) = Some vm /\
   voice_untouched vm (Synth.store s) (Synth.store (Synth.stopNote n t s))) /\
  (JSMap.get m (Synth.activeVoices (Synth.playNote n t s)) = Some vm /\
   voice_untouched vm (Synth.store s) (Synth.store (Synth.playNote n t s))).
Proof.
  intros s Hne Hm. split.
  - split; [rewrite stopNote_activeVoices, get_delete_ne by exact Hne; exact Hm|].
    exact (stopNote_untouched volume now ops n m t vm Hne Hm).
  - split.
    { destruct (playNote_activeVoices n t s) as (v & _ & ->).
      rewrite get_set_ne, get_delete_ne by exact Hne. exact Hm. }
    rewrite playNote_eq, start_voice_store. unfold voice_store.
    set (s0 := if JSMap.has n (Synth.activeVoices s) then Synth.stopNote n None s else s).
    assert (H0 : voice_untouched vm (Synth.store s) (Synth.store s0)).
    { subst s0. destruct (JSMap.has n (Synth.activeVoices s)).
      - exact (stopNote_untouched volume now ops n m None vm Hne Hm).
      - apply voice_untouched_refl. }
    assert (Hk : store_kept (Synth.store s) (Synth.store s0)).
    { subst s0. destruct (JSMap.has n (Synth.activeVoices s));
        [apply store_kept_stopNote | apply store_kept_refl]. }
    apply (voice_untouched_trans vm _ (Synth.store s0)); [exact H0|].
    destruct (voices_separate_reachable volume now ops) as [Hw _].
    destruct (voices_ok_run ops _ (voices_ok_new volume now)) as (_ & Hs & _).
    fold s in Hw, Hs. apply get_Some_elem in Hm.
    apply ext_untouched.
    + exact (voice_wired_kept _ _ _ Hk (Hw m vm Hm)).
    + intros o Ho. pose proof (sounding_started _ _ (Hs m vm o Hm Ho)) as Hst.
      destruct (proj2 (proj2 (proj2 Hk)) o Hst) as (node & t0 & Hl & _).
      exact (lookup_lt_Some _ _ _ Hl).
Qed.

Lemma other_notes_are_not_disturbed_witness :
  let s := run [playNote "A4" None] (Synth.new None 0) in
  JSMap.get "A4" (Synth.activeVoices (Synth.stopNote "C4" None s)) =
    Some (new_voice (Synth.new None 0) "A4").
Proof.
  intros s.
  refine (proj1 (proj1 (other_notes_are_not_disturbed None 0 [playNote "A4" None]
                          "C4" "A4" None (new_voice (Synth.new None 0) "A4") _ _))).
  - discriminate.
  - reflexivity.
Defined.

(** ** A tool call applies the fields it carries *)

Ltac crack :=
  repeat match goal with
         | |- context [ChatPanel.if_defined ?f _ _] =>
             destruct f; cbn [ChatPanel.if_defined]; cbv beta
         | |- context [ChatPanel.if_truthy ?f _ _] =>
             let v := fresh "v" in
             destruct f as [v|]; cbn [ChatPanel.if_truthy];
             [destruct (v =? 0)%Z|]; cbv beta
         end.

Ltac peel_side :=
  crack;
  first
    [ reflexivity
    | unfold Synth.setNoiseLevel; destruct (Rlt_dec _ _); reflexivity ].

(** Take away the statement of [onToolCall] for the field [f], when it does
    not write what the goal reads. *)
Ltac peel_field f :=
  match goal with
  | |- ?T = _ =>
      match T with
      | context E [ChatPanel.if_defined f ?g ?r] =>
          let H := fresh "H" in
          assert (H : forall x,
                    ltac:(let lhs := context E [ChatPanel.if_defined f g x] in
                          let rhs := context E [x] in
                          exact (lhs = rhs)))
            by (intros x; peel_side);
          rewrite (H r); clear H
      | context E [ChatPanel.if_truthy f ?g ?r] =>
          let H := fresh "H" in
          assert (H : forall x,
                    ltac:(let lhs := context E [ChatPanel.if_truthy f g x] in
                          let rhs := context E [x] in
                          exact (lhs = rhs)))
            by (intros x; peel_side);
          rewrite (H r); clear H
      end
  end.

Ltac peel a :=
  unfold patched, ChatPanel.onToolCall, ChatPanel.apply_oscillator; cbv zeta;
  try peel_field (ToolArgs.lfoDepth a); try peel_field (ToolArgs.lfoFrequency a);
  try peel_field (ToolArgs.lfoWaveform a);
  try peel_field (ToolArgs.noiseFilterQ a); try peel_field (ToolArgs.noiseFilterFreq a);
  try peel_field (ToolArgs.noiseLevel a); try peel_field (ToolArgs.masterVolume a);
  try peel_field (ToolArgs.volumeRelease a); try peel_field (ToolArgs.volumeSustain a);
  try peel_field (ToolArgs.volumeDecay a); try peel_field (ToolArgs.volumeAttack a);
  try peel_field (ToolArgs.filterContour a); try peel_field (ToolArgs.filterStartLevel a);
  try peel_field (ToolArgs.filterEmphasis a); try peel_field (ToolArgs.filterCutoff a);
  try peel_field (ToolArgs.filterRelease a); try peel_field (ToolArgs.filterSustain a);
  try peel_field (ToolArgs.filterDecay a); try peel_field (ToolArgs.filterAttack a);
  try peel_field (ToolArgs.osc3Volume a); try peel_field (ToolArgs.osc3Detune a);
  try peel_field (ToolArgs.osc3Range a); try peel_field (ToolArgs.osc3Waveform a);
  try peel_field (ToolArgs.osc2Volume a); try peel_field (ToolArgs.osc2Detune a);
  try peel_field (ToolArgs.osc2Range a); try peel_field (ToolArgs.osc2Waveform a);
  try peel_field (ToolArgs.osc1Volume a); try peel_field (ToolArgs.osc1Detune a);
  try peel_field (ToolArgs.osc1Range a); try peel_field (ToolArgs.osc1Waveform a).

(** Once the others are gone: the statement that writes what the goal reads. *)
Ltac written :=
  match goal with
  | |- context [ChatPanel.if_defined ?f _ _] =>
      destruct f; cbn [ChatPanel.if_defined default]; reflexivity
  | |- _ => reflexivity
  end.

Lemma a_range_truthy (field : option Z) (f : Z -> Instrument.t -> Instrument.t)
    (i : Instrument.t) :
  a_range field -> ChatPanel.if_truthy field f i = ChatPanel.if_defined field f i.
Proof.
  destruct field as [v|]; [|reflexivity]. cbn [a_range ChatPanel.if_truthy ChatPanel.if_defined].
  intros Hin. repeat (apply elem_of_cons in Hin as [->|Hin]; [reflexivity|]). inversion Hin.
Qed.

Lemma clamp_between (lo hi v : R) :
  lo <= v <= hi -> Math_max lo (Math_min hi v) = v.
Proof.
  intros [Hlo Hhi]. unfold Math_max, Math_min.
  rewrite (Rmin_right hi v) by exact Hhi. apply Rmax_right. exact Hlo.
Qed.

Section ToolCall.
Variable a : ToolArgs.t.
Variable i : Instrument.t.
Hypothesis Hschema : schema_admits a.

Let s := Instrument.synth i.
Let s' := Instrument.synth (ChatPanel.onToolCall a i).

Lemma tool_call_table : Synth.activeVoices s' = Synth.activeVoices s.
Proof. subst s s'. peel a. reflexivity. Qed.

Lemma tool_call_waveforms :
  patched (OscillatorSettings.waveform (Synth.osc1 s)) (ToolArgs.osc1Waveform a)
          (OscillatorSettings.waveform (Synth.osc1 s')) /\
  patched (OscillatorSettings.waveform (Synth.osc2 s)) (ToolArgs.osc2Waveform a)
          (OscillatorSettings.waveform (Synth.osc2 s')) /\
  patched (OscillatorSettings.waveform (Synth.osc3 s)) (ToolArgs.osc3Waveform a)
          (OscillatorSettings.waveform (Synth.osc3 s')).
Proof. subst s s'. repeat split; peel a; written. Qed.

Lemma tool_call_detunes :
  patched (OscillatorSettings.detune (Synth.osc1 s)) (ToolArgs.osc1Detune a)
          (OscillatorSettings.detune (Synth.osc1 s')) /\
  patched (OscillatorSettings.detune (Synth.osc2 s)) (ToolArgs.osc2Detune a)
          (OscillatorSettings.detune (Synth.osc2 s')) /\
  patched (OscillatorSettings.detune (Synth.osc3 s)) (ToolArgs.osc3Detune a)
          (OscillatorSettings.detune (Synth.osc3 s')).
Proof. subst s s'. repeat split; peel a; written. Qed.

Lemma tool_call_ranges :
  patched (OscillatorSettings.range (Synth.osc1 s)) (ToolArgs.osc1Range a)
          (OscillatorSettings.range (Synth.osc1 s')) /\
  patched (OscillatorSettings.range (Synth.osc2 s)) (ToolArgs.osc2Range a)
          (OscillatorSettings.range (Synth.osc2 s')) /\
  patched (OscillatorSettings.range (Synth.osc3 s)) (ToolArgs.osc3Range a)
          (OscillatorSettings.range (Synth.osc3 s')).
Proof.
  destruct Hschema as (H1 & _ & _ & H2 & _ & _ & H3 & _).
  subst s s'. repeat split; peel a.
  - rewrite (a_range_truthy _ _ _ H1). written.
  - rewrite (a_range_truthy _ _ _ H2). written.
  - rewrite (a_range_truthy _ _ _ H3). written.
Qed.

Let fs := Synth.filterEnvelopeSettings s.
Let fs' := Synth.filterEnvelopeSettings s'.

Lemma tool_call_filter :
  patched (FilterEnvelopeSettings.attack fs) (ToolArgs.filterAttack a)
          (FilterEnvelopeSettings.attack fs') /\
  patched (FilterEnvelopeSettings.decay fs) (ToolArgs.filterDecay a)
          (FilterEnvelopeSettings.decay fs') /\
  patched (FilterEnvelopeSettings.sustain fs) (ToolArgs.filterSustain a)
          (FilterEnvelopeSettings.sustain fs') /\
  patched (FilterEnvelopeSettings.release fs) (ToolArgs.filterRelease a)
          (FilterEnvelopeSettings.release fs') /\
  patched (FilterEnvelopeSettings.cutoffFrequency fs) (ToolArgs.filterCutoff a)
          (FilterEnvelopeSettings.cutoffFrequency fs') /\
  patched (FilterEnvelopeSettings.maxLevel fs) (Some <$> ToolArgs.filterCutoff a)
          (FilterEnvelopeSettings.maxLevel fs') /\
  patched (FilterEnvelopeSettings.startLevel fs) (Some <$> ToolArgs.filterStartLevel a)
          (FilterEnvelopeSettings.startLevel fs') /\
  patched (FilterEnvelopeSettings.Q fs) (ToolArgs.filterEmphasis a)
          (FilterEnvelopeSettings.Q fs') /\
  patched (FilterEnvelopeSettings.contour fs) (ToolArgs.filterContour a)
          (FilterEnvelopeSettings.contour fs') /\
  FilterEnvelopeSettings.filterType fs' = FilterEnvelopeSettings.filterType fs.
Proof. subst fs fs' s s'. repeat split; peel a; written. Qed.

Let vs := Synth.volumeEnvelopeSettings s.
Let vs' := Synth.volumeEnvelopeSettings s'.

Lemma tool_call_volume_envelope :
  patched (EnvelopeOptions.attack vs) (ToolArgs.volumeAttack a) (EnvelopeOptions.attack vs') /\
  patched (EnvelopeOptions.decay vs) (ToolArgs.volumeDecay a) (EnvelopeOptions.decay vs') /\
  patched (EnvelopeOptions.sustain vs) (ToolArgs.volumeSustain a)
          (EnvelopeOptions.sustain vs') /\
  patched (EnvelopeOptions.release vs) (ToolArgs.volumeRelease a)
          (EnvelopeOptions.release vs') /\
  EnvelopeOptions.startLevel vs' = EnvelopeOptions.startLevel vs /\
  EnvelopeOptions.maxLevel vs' = EnvelopeOptions.maxLevel vs.
Proof. subst vs vs' s s'. repeat split; peel a; written. Qed.

Lemma tool_call_master :
  patched (value (gain (Synth.masterVolume s))) (ToolArgs.masterVolume a)
          (value (gain (Synth.masterVolume s'))) /\
  patched (value (gain (Synth.noiseLevel s))) (ToolArgs.noiseLevel a)
          (value (gain (Synth.noiseLevel s'))) /\
  patched (value (frequency (Synth.noiseFilter s))) (ToolArgs.noiseFilterFreq a)
          (value (frequency (Synth.noiseFilter s'))) /\
  patched (value (Q (Synth.noiseFilter s))) (ToolArgs.noiseFilterQ a)
          (value (Q (Synth.noiseFilter s'))).
Proof.
  destruct Hschema as (_ & _ & _ & _ & _ & _ & _ & _ & _ & _ & _ & _ & _ & _ & _ & _ & _
                       & _ & _ & _ & _ & Hm & Hl & Hf & Hq & _).
  subst s s'. repeat split; peel a.
  - destruct (ToolArgs.masterVolume a) as [v|]; [|reflexivity].
    cbn [ChatPanel.if_defined default]. exact (clamp_between 0 1 v Hm).
  - destruct (ToolArgs.noiseLevel a) as [v|]; [|reflexivity].
    cbn [ChatPanel.if_defined default]. cbv beta. unfold Synth.setNoiseLevel.
    destruct (Rlt_dec 0 v); exact (clamp_between 0 1 v Hl).
  - destruct (ToolArgs.noiseFilterFreq a) as [v|]; [|reflexivity].
    cbn [ChatPanel.if_defined default]. apply (clamp_between 20 20000 v).
    cbn [between] in Hf. lra.
  - destruct (ToolArgs.noiseFilterQ a) as [v|]; [|reflexivity].
    cbn [ChatPanel.if_defined default]. apply (clamp_between 0.1 20 v).
    cbn [between] in Hq. lra.
Qed.

Let l := LFO.lfoSettings (Instrument.lfo i).
Let l' := LFO.lfoSettings (Instrument.lfo (ChatPanel.onToolCall a i)).

Lemma tool_call_lfo :
  patched (LFOSettings.waveform l) (ToolArgs.lfoWaveform a) (LFOSettings.waveform l') /\
  patched (LFOSettings.frequency l) (ToolArgs.lfoFrequency a) (LFOSettings.frequency l') /\
  patched (LFOSettings.depth l) (ToolArgs.lfoDepth a) (LFOSettings.depth l') /\
  (lfo_ok (Instrument.lfo i) -> lfo_ok (Instrument.lfo (ChatPanel.onToolCall a i))).
Proof.
  subst l l'. split; [|split; [|split]]; [peel a; written ..|].
  intros Hok.
  assert (H : Instrument.lfo (ChatPanel.onToolCall a i) =
              default (Instrument.lfo i) None \/ lfo_ok (Instrument.lfo (ChatPanel.onToolCall a i))).
  { right.
    assert (Hl : Instrument.lfo (ChatPanel.onToolCall a i) =
              match ToolArgs.lfoDepth a with
              | Some v => LFO.updateLFO (LFO.param_depth v)
              | None => fun x => x
              end
                (match ToolArgs.lfoFrequency a with
                 | Some v => LFO.updateLFO (LFO.param_frequency v)
                 | None => fun x => x
                 end
                   (match ToolArgs.lfoWaveform a with
                    | Some w => LFO.updateLFO (LFO.param_waveform w)
                    | None => fun x => x
                    end (Instrument.lfo i)))).
    { peel a. crack; reflexivity. }
    rewrite Hl.
    destruct (ToolArgs.lfoDepth a), (ToolArgs.lfoFrequency a), (ToolArgs.lfoWaveform a);
      repeat apply lfo_ok_updateLFO; exact Hok. }
  destruct H as [H|H]; [rewrite H; exact Hok | exact H].
Qed.

Lemma tool_call_mixer :
  mixer_ok (Instrument.mixer i) ->
  mixer_ok (Instrument.mixer (ChatPanel.onToolCall a i)) /\
  forall key field,
    (key, field) ∈ [ ("osc1"%string, ToolArgs.osc1Volume a);
                     ("osc2"%string, ToolArgs.osc2Volume a);
                     ("osc3"%string, ToolArgs.osc3Volume a) ] ->
    exists channel channel',
      JSMap.get key (Instrument.mixer i) = Some channel /\
      JSMap.get key (Instrument.mixer (ChatPanel.onToolCall a i)) = Some channel' /\
      patched (MixerChannel.volume channel) field (MixerChannel.volume channel').
Proof.
  intros Hok.
  assert (Hm : Instrument.mixer (ChatPanel.onToolCall a i) =
            match ToolArgs.osc3Volume a with
            | Some v => Mixer.updateMixer "osc3" v
            | None => fun x => x
            end
              (match ToolArgs.osc2Volume a with
               | Some v => Mixer.updateMixer "osc2" v
               | None => fun x => x
               end
                 (match ToolArgs.osc1Volume a with
                  | Some v => Mixer.updateMixer "osc1" v
                  | None => fun x => x
                  end (Instrument.mixer i)))).
  { peel a. crack; reflexivity. }
  rewrite Hm. clear Hm.
  set (m1 := match ToolArgs.osc1Volume a with
             | Some v => Mixer.updateMixer "osc1" v
             | None => fun x => x
             end (Instrument.mixer i)).
  set (m2 := match ToolArgs.osc2Volume a with
             | Some v => Mixer.updateMixer "osc2" v
             | None => fun x => x
             end m1).
  assert (Hok1 : mixer_ok m1).
  { subst m1. destruct (ToolArgs.osc1Volume a); [apply mixer_ok_updateMixer|]; exact Hok. }
  assert (Hok2 : mixer_ok m2).
  { subst m2. destruct (ToolArgs.osc2Volume a); [apply mixer_ok_updateMixer|]; exact Hok1. }
  split.
  { destruct (ToolArgs.osc3Volume a); [apply mixer_ok_updateMixer|]; exact Hok2. }
  assert (Hhas : forall m k, mixer_ok m -> k ∈ ["osc1"; "osc2"; "osc3"]%string ->
            exists c, JSMap.get k m = Some c).
  { intros m k [Hk _] Hin. destruct (JSMap.get k m) as [c|] eqn:Hg; [eauto|].
    exfalso. apply (get_None_keys _ _ Hg). rewrite Hk. exact Hin. }
  assert (Hstep : forall k k' (field : option R) m c,
            mixer_ok m -> JSMap.get k m = Some c ->
            exists c',
              JSMap.get k (match field with
                           | Some v => Mixer.updateMixer k' v
                           | None => fun x => x
                           end m) = Some c' /\
              MixerChannel.volume c' =
                if String.eqb k' k then default (MixerChannel.volume c) field
                else MixerChannel.volume c).
  { intros k k' field m c Hmok Hg. destruct field as [v|].
    - unfold Mixer.updateMixer.
      destruct (String.eqb_spec k' k) as [->|Hne].
      + rewrite Hg, get_set_eq. eexists. split; reflexivity.
      + destruct (JSMap.get k' m); [rewrite get_set_ne by exact Hne|];
          exists c; split; auto.
    - exists c. split; [exact Hg|]. destruct (String.eqb k' k); reflexivity. }
  intros key field Hin.
  assert (Hkey : key ∈ ["osc1"; "osc2"; "osc3"]%string).
  { repeat (apply elem_of_cons in Hin as [[= -> ->]|Hin]);
      [ | | | inversion Hin];
      repeat (first [apply list_elem_of_here | apply list_elem_of_further]). }
  destruct (Hhas _ key Hok Hkey) as (c0 & Hg0).
  destruct (Hstep key "osc1"%string (ToolArgs.osc1Volume a) _ c0 Hok Hg0) as (c1 & Hg1 & Hv1).
  fold m1 in Hg1.
  destruct (Hstep key "osc2"%string (ToolArgs.osc2Volume a) _ c1 Hok1 Hg1) as (c2 & Hg2 & Hv2).
  fold m2 in Hg2.
  destruct (Hstep key "osc3"%string (ToolArgs.osc3Volume a) _ c2 Hok2 Hg2) as (c3 & Hg3 & Hv3).
  exists c0, c3. split; [exact Hg0|]. split; [exact Hg3|].
  unfold patched. rewrite Hv3, Hv2, Hv1.
  repeat (apply elem_of_cons in Hin as [[= -> ->]|Hin]); [ | | | inversion Hin];
    cbn [String.eqb Ascii.eqb Bool.eqb];
    destruct (ToolArgs.osc1Volume a), (ToolArgs.osc2Volume a), (ToolArgs.osc3Volume a);
    reflexivity.
Qed.
End ToolCall.

(** X26.  A tool call whose arguments the schema admits writes every field
    it carries, as given, to the setting the field stands for, and leaves
    every other setting as it was: the waveform, the range and the detune of
    the three slots, the eight filter settings (the cutoff goes to both
    [cutoffFrequency] and [maxLevel]), the four volume-envelope settings,
    the master volume, the noise level and the noise filter, which are not
    clamped since the schema's bounds lie within the setters', the three mixer
    volumes and the three LFO settings.  The mixer and the LFO nodes keep
    mirroring their settings, and the table of the voices is not touched. *)
Theorem tool_call_applies_the_fields_it_carries (a : ToolArgs.t) (i : Instrument.t) :
  schema_admits a ->
  mixer_ok (Instrument.mixer i) ->
  lfo_ok (Instrument.lfo i) ->
  let i' := ChatPanel.onToolCall a i in
  let s := Instrument.synth i in
  let s' := Instrument.synth i' in
  let fs := Synth.filterEnvelopeSettings s in
  let fs' := Synth.filterEnvelopeSettings s' in
  let vs := Synth.volumeEnvelopeSettings s in
  let vs' := Synth.volumeEnvelopeSettings s' in
  let l := LFO.lfoSettings (Instrument.lfo i) in
  let l' := LFO.lfoSettings (Instrument.lfo i') in
  Synth.activeVoices s' = Synth.activeVoices s /\
  (patched (OscillatorSettings.waveform (Synth.osc1 s)) (ToolArgs.osc1Waveform a)
           (OscillatorSettings.waveform (Synth.osc1 s')) /\
   patched (OscillatorSettings.waveform (Synth.osc2 s)) (ToolArgs.osc2Waveform a)
           (OscillatorSettings.waveform (Synth.osc2 s')) /\
   patched (OscillatorSettings.waveform (Synth.osc3 s)) (ToolArgs.osc3Waveform a)
           (OscillatorSettings.waveform (Synth.osc3 s'))) /\
  (patched (OscillatorSettings.range (Synth.osc1 s)) (ToolArgs.osc1Range a)
           (OscillatorSettings.range (Synth.osc1 s')) /\
   patched (OscillatorSettings.range (Synth.osc2 s)) (ToolArgs.osc2Range a)
           (OscillatorSettings.range (Synth.osc2 s')) /\
   patched (OscillatorSettings.range (Synth.osc3 s)) (ToolArgs.osc3Range a)
           (OscillatorSettings.range (Synth.osc3 s'))) /\
  (patched (OscillatorSettings.detune (Synth.osc1 s)) (ToolArgs.osc1Detune a)
           (OscillatorSettings.detune (Synth.osc1 s')) /\
   patched (OscillatorSettings.detune (Synth.osc2 s)) (ToolArgs.osc2Detune a)
           (OscillatorSettings.detune (Synth.osc2 s')) /\
   patched (OscillatorSettings.detune (Synth.osc3 s)) (ToolArgs.osc3Detune a)
           (OscillatorSettings.detune (Synth.osc3 s'))) /\
  (patched (FilterEnvelopeSettings.attack fs) (ToolArgs.filterAttack a)
           (FilterEnvelopeSettings.attack fs') /\
   patched (FilterEnvelopeSettings.decay fs) (ToolArgs.filterDecay a)
           (FilterEnvelopeSettings.decay fs') /\
   patched (FilterEnvelopeSettings.sustain fs) (ToolArgs.filterSustain a)
           (FilterEnvelopeSettings.sustain fs') /\
   patched (FilterEnvelopeSettings.release fs) (ToolArgs.filterRelease a)
           (FilterEnvelopeSettings.release fs') /\
   patched (FilterEnvelopeSettings.cutoffFrequency fs) (ToolArgs.filterCutoff a)
           (FilterEnvelopeSettings.cutoffFrequency fs') /\
   patched (FilterEnvelopeSettings.maxLevel fs) (Some <$> ToolArgs.filterCutoff a)
           (FilterEnvelopeSettings.maxLevel fs') /\
   patched (FilterEnvelopeSettings.startLevel fs) (Some <$> ToolArgs.filterStartLevel a)
           (FilterEnvelopeSettings.startLevel fs') /\
   patched (FilterEnvelopeSettings.Q fs) (ToolArgs.filterEmphasis a)
           (FilterEnvelopeSettings.Q fs') /\
   patched (FilterEnvelopeSettings.contour fs) (ToolArgs.filterContour a)
           (FilterEnvelopeSettings.contour fs') /\
   FilterEnvelopeSettings.filterType fs' = FilterEnvelopeSettings.filterType fs) /\
  (patched (EnvelopeOptions.attack vs) (ToolArgs.volumeAttack a)
           (EnvelopeOptions.attack vs') /\
   patched (EnvelopeOptions.decay vs) (ToolArgs.volumeDecay a)
           (EnvelopeOptions.decay vs') /\
   patched (EnvelopeOptions.sustain vs) (ToolArgs.volumeSustain a)
           (EnvelopeOptions.sustain vs') /\
   patched (EnvelopeOptions.release vs) (ToolArgs.volumeRelease a)
           (EnvelopeOptions.release vs') /\
   EnvelopeOptions.startLevel vs' = EnvelopeOptions.startLevel vs /\
   EnvelopeOptions.maxLevel vs' = EnvelopeOptions.maxLevel vs) /\
  (patched (value (gain (Synth.masterVolume s))) (ToolArgs.masterVolume a)
           (value (gain (Synth.masterVolume s'))) /\
   patched (value (gain (Synth.noiseLevel s))) (ToolArgs.noiseLevel a)
           (value (gain (Synth.noiseLevel s'))) /\
   patched (value (frequency (Synth.noiseFilter s))) (ToolArgs.noiseFilterFreq a)
           (value (frequency (Synth.noiseFilter s'))) /\
   patched (value (Q (Synth.noiseFilter s))) (ToolArgs.noiseFilterQ a)
           (value (Q (Synth.noiseFilter s')))) /\
  (patched (LFOSettings.waveform l) (ToolArgs.lfoWaveform a) (LFOSettings.waveform l') /\
   patched (LFOSettings.frequency l) (ToolArgs.lfoFrequency a) (LFOSettings.frequency l') /\
   patched (LFOSettings.depth l) (ToolArgs.lfoDepth a) (LFOSettings.depth l') /\
   lfo_ok (Instrument.lfo i')) /\
  (mixer_ok (Instrument.mixer i') /\
   forall key field,
     (key, field) ∈ [ ("osc1"%string, ToolArgs.osc1Volume a);
                      ("osc2"%string, ToolArgs.osc2Volume a);
                      ("osc3"%string, ToolArgs.osc3Volume a) ] ->
     exists channel channel',
       JSMap.get key (Instrument.mixer i) = Some channel /\
       JSMap.get key (Instrument.mixer i') = Some channel' /\
       patched (MixerChannel.volume channel) field (MixerChannel.volume channel')).
Proof.
  intros Hschema Hmixer Hlfo i' s s' fs fs' vs vs' l l'.
  split; [exact (tool_call_table a i)|].
  split; [exact (tool_call_waveforms a i)|].
  split; [exact (tool_call_ranges a i Hschema)|].
  split; [exact (tool_call_detunes a i)|].
  split; [exact (tool_call_filter a i)|].
  split; [exact (tool_call_volume_envelope a i)|].
  split; [exact (tool_call_master a i Hschema)|].
  split; [|exact (tool_call_mixer a i Hmixer)].
  destruct (tool_call_lfo a i) as (Hw & Hf & Hd & Hok).
  split; [exact Hw|]. split; [exact Hf|]. split; [exact Hd|]. exact (Hok Hlfo).
Qed.

Lemma tool_call_applies_the_fields_it_carries_witness :
  let a :=
    ToolArgs.mk (Some sine) (Some 32%Z) None (Some 0.5) None None None None None None None None
      None None None None (Some 800) None None None None None None None
      (Some 0.8) None None None None None (Some 10) in
  let i := Instrument.new None 0 in
  Synth.activeVoices (Instrument.synth (ChatPanel.onToolCall a i)) =
    Synth.activeVoices (Instrument.synth i).
Proof.
  intros a i.
  refine (proj1 (tool_call_applies_the_fields_it_carries a i _ _ _)).
  - unfold schema_admits, a. cbn [ToolArgs.osc1Range ToolArgs.osc1Detune ToolArgs.osc1Volume
      ToolArgs.osc2Range ToolArgs.osc2Detune ToolArgs.osc2Volume
      ToolArgs.osc3Range ToolArgs.osc3Detune ToolArgs.osc3Volume
      ToolArgs.filterAttack ToolArgs.filterDecay ToolArgs.filterSustain ToolArgs.filterRelease
      ToolArgs.filterCutoff ToolArgs.filterStartLevel ToolArgs.filterEmphasis
      ToolArgs.filterContour ToolArgs.volumeAttack ToolArgs.volumeDecay ToolArgs.volumeSustain
      ToolArgs.volumeRelease ToolArgs.masterVolume ToolArgs.noiseLevel ToolArgs.noiseFilterFreq
      ToolArgs.noiseFilterQ ToolArgs.lfoFrequency ToolArgs.lfoDepth between a_range].
    repeat split; try exact I; try lra.
    repeat (first [apply list_elem_of_here | apply list_elem_of_further]).
  - exact mixer_ok_new.
  - exact lfo_ok_initLFO.
Defined.
